(** * Algoritmos avanzados: Prim, Kruskal, Dijkstra and Huffman

    A shallow embedding of the algorithmic core of the repository
    (src/prim.py, src/kruskal.py, src/dijkstra.py, src/huffman.py) and the
    proofs of the properties its specification states.

    Conventions of the embedding:
    - a node label is a [string]; an edge is a triple (nodo1, nodo2, peso)
      with an unbounded integer weight ([Z], Python's [int]);
    - Python dictionaries whose iteration order is never observed are
      [gmap]s, sets are [gset]s; the adjacency dictionary of Prim, whose
      first key is observed, and the frequency table of Huffman, whose items
      are iterated, are association lists in insertion order;
    - exceptions are values of [resultado]; loops and the recursion of
      [encontrar] take a fuel argument, and running out of it is the
      separate outcome [Agotado], which the theorems show is never reached
      with the fuel the engines are run with. *)

From Stdlib Require Import ZArith Lia QArith.
From stdpp Require Import gmap strings list fin_maps sorting.

Open Scope Z_scope.

(** ** Outcomes of a call *)

Inductive resultado (A : Type) : Type :=
| Ok (a : A)
| KeyError
| IndexError
| ZeroDivisionError
| Agotado.

Arguments Ok {A} a.
Arguments KeyError {A}.
Arguments IndexError {A}.
Arguments ZeroDivisionError {A}.
Arguments Agotado {A}.

Global Instance resultado_ret : MRet resultado := @Ok.

Global Instance resultado_bind : MBind resultado := λ A B f m,
  match m with
  | Ok a => f a
  | KeyError => KeyError
  | IndexError => IndexError
  | ZeroDivisionError => ZeroDivisionError
  | Agotado => Agotado
  end.

Global Instance resultado_fmap : FMap resultado := λ A B f m,
  match m with
  | Ok a => Ok (f a)
  | KeyError => KeyError
  | IndexError => IndexError
  | ZeroDivisionError => ZeroDivisionError
  | Agotado => Agotado
  end.

(** [d[k]] on a dictionary: the value, or KeyError. *)
Definition consultar {V : Type} (d : gmap string V) (k : string) : resultado V :=
  match d !! k with
  | Some v => Ok v
  | None => KeyError
  end.

(** ** Edges *)

Definition arista : Type := string * string * Z.

Definition nodo1 (e : arista) : string := e.1.1.
Definition nodo2 (e : arista) : string := e.1.2.
Definition peso (e : arista) : Z := e.2.

(** The set of endpoints, as the loops over [aristas] collect it. *)
Definition nodos_de (aristas : list arista) : gset string :=
  foldl (λ nodos e, nodos ∪ {[nodo1 e]} ∪ {[nodo2 e]}) ∅ aristas.

(** ** Union-Find (src/kruskal.py, class UnionFind) *)

Record UnionFind : Type := MkUF {
  padre : gmap string string;
  rango : gmap string nat
}.

(** [UnionFind.__init__] *)
Definition uf_init (nodos : list string) : UnionFind :=
  {| padre := list_to_map ((λ n, (n, n)) <$> nodos);
     rango := list_to_map ((λ n, (n, 0%nat)) <$> nodos) |}.

Definition asignar_padre (uf : UnionFind) (n p : string) : UnionFind :=
  {| padre := <[n := p]> (padre uf); rango := rango uf |}.

(** [UnionFind.encontrar]: the recursion depth is bounded by [fuel]. *)
Fixpoint encontrar (fuel : nat) (uf : UnionFind) (nodo : string)
  : resultado (UnionFind * string) :=
  match fuel with
  | O => Agotado
  | S fuel' =>
    p ← consultar (padre uf) nodo;
    if decide (p ≠ nodo) then
      '(uf1, r) ← encontrar fuel' uf p;
      Ok (asignar_padre uf1 nodo r, r)
    else Ok (uf, p)
  end.

(** [UnionFind.unir] *)
Definition unir (fuel : nat) (uf : UnionFind) (n1 n2 : string)
  : resultado (UnionFind * bool) :=
  '(uf1, raiz1) ← encontrar fuel uf n1;
  '(uf2, raiz2) ← encontrar fuel uf1 n2;
  if decide (raiz1 = raiz2) then Ok (uf2, false)
  else
    r1 ← consultar (rango uf2) raiz1;
    r2 ← consultar (rango uf2) raiz2;
    if (r1 <? r2)%nat then Ok (asignar_padre uf2 raiz1 raiz2, true)
    else if (r2 <? r1)%nat then Ok (asignar_padre uf2 raiz2 raiz1, true)
    else Ok ({| padre := <[raiz2 := raiz1]> (padre uf2);
                rango := <[raiz1 := S r1]> (rango uf2) |}, true).

(** ** Kruskal (src/kruskal.py, kruskal) *)

(** [sorted(aristas, key=lambda x: x[2])]: Python's sort is stable, and the
    stable sort of a list is unique; it is computed here by insertion. *)
Fixpoint insertar_por_peso (e : arista) (l : list arista) : list arista :=
  match l with
  | [] => [e]
  | x :: l' => if peso e <=? peso x then e :: l else x :: insertar_por_peso e l'
  end.

Definition sorted_por_peso (aristas : list arista) : list arista :=
  foldr insertar_por_peso [] aristas.

(** The loop over the sorted edges, with its early exit. *)
Fixpoint kruskal_bucle (fuel : nat) (num_nodos : nat) (ordenadas : list arista)
    (uf : UnionFind) (mst_aristas : list arista) (peso_total : Z)
  : resultado (list arista * Z) :=
  match ordenadas with
  | [] => Ok (mst_aristas, peso_total)
  | (n1, n2, p) :: resto =>
    '(uf', unido) ← unir fuel uf n1 n2;
    if (unido : bool) then
      let mst_aristas' := mst_aristas ++ [(n1, n2, p)] in
      let peso_total' := peso_total + p in
      if decide (Z.of_nat (length mst_aristas') = Z.of_nat num_nodos - 1)
      then Ok (mst_aristas', peso_total')
      else kruskal_bucle fuel num_nodos resto uf' mst_aristas' peso_total'
    else kruskal_bucle fuel num_nodos resto uf' mst_aristas peso_total
  end.

Definition kruskal_con (fuel : nat) (aristas : list arista)
  : resultado (list arista * Z) :=
  match aristas with
  | [] => Ok ([], 0)
  | _ =>
    let nodos := nodos_de aristas in
    let aristas_ordenadas := sorted_por_peso aristas in
    let uf := uf_init (elements nodos) in
    kruskal_bucle fuel (size nodos) aristas_ordenadas uf [] 0
  end.

(** The engine, run with a recursion budget for [encontrar] that is never
    exhausted (see [kruskal_total]). *)
Definition kruskal (aristas : list arista) : resultado (list arista * Z) :=
  kruskal_con (S (length aristas)) aristas.

(** ** Adjacency dictionary (src/prim.py and src/dijkstra.py)

    [grafo] is a dictionary from a node to the list of its (neighbour,
    weight) pairs. Prim reads its first key, so it is kept as an association
    list in insertion order, with one entry per key. *)

Definition grafo_t : Type := list (string * list (string * Z)).

Fixpoint grafo_buscar (grafo : grafo_t) (n : string) : option (list (string * Z)) :=
  match grafo with
  | [] => None
  | (k, ady) :: resto => if decide (k = n) then Some ady else grafo_buscar resto n
  end.

(** [grafo[n]] *)
Definition grafo_consultar (grafo : grafo_t) (n : string)
  : resultado (list (string * Z)) :=
  match grafo_buscar grafo n with
  | Some ady => Ok ady
  | None => KeyError
  end.

(** [if n not in grafo: grafo[n] = []] *)
Definition grafo_registrar (grafo : grafo_t) (n : string) : grafo_t :=
  match grafo_buscar grafo n with
  | Some _ => grafo
  | None => grafo ++ [(n, [])]
  end.

(** [grafo[n].append(x)] *)
Fixpoint grafo_anexar (grafo : grafo_t) (n : string) (x : string * Z) : grafo_t :=
  match grafo with
  | [] => []
  | (k, ady) :: resto =>
    if decide (k = n) then (k, ady ++ [x]) :: resto
    else (k, ady) :: grafo_anexar resto n x
  end.

Definition construir_grafo (aristas : list arista) : grafo_t :=
  foldl (λ grafo e,
           let g1 := grafo_registrar grafo (nodo1 e) in
           let g2 := grafo_registrar g1 (nodo2 e) in
           let g3 := grafo_anexar g2 (nodo1 e) (nodo2 e, peso e) in
           grafo_anexar g3 (nodo2 e) (nodo1 e, peso e))
        [] aristas.

(** The adjacency list of a node, empty for a node that is not a key. *)
Definition ady_de (grafo : grafo_t) (n : string) : list (string * Z) :=
  default [] (grafo_buscar grafo n).

(** The number of adjacency entries of the nodes outside [visitados]. *)
Definition grado_pendiente (grafo : grafo_t) (visitados : gset string) : nat :=
  sum_list ((λ kv, if decide (kv.1 ∈ visitados) then 0%nat else length kv.2) <$> grafo).

(** ** Priority queues of tuples (heapq on tuples)

    Prim and Dijkstra push tuples that start with an integer and continue
    with node labels; Python orders them lexicographically, which is a total
    order, so the sequence of popped tuples depends only on the contents of
    the queue. The queue is kept as the list of its contents in ascending
    order: [heappush] inserts in place, [heappop] takes the head. *)

Definition cadena_ltb (a b : string) : bool := String.ltb a b.

Definition tupla3_ltb (x y : Z * string * string) : bool :=
  let '(p1, a1, b1) := x in
  let '(p2, a2, b2) := y in
  (p1 <? p2) || ((p1 =? p2) && (cadena_ltb a1 a2 || (String.eqb a1 a2 && cadena_ltb b1 b2))).

Definition tupla2_ltb (x y : Z * string) : bool :=
  let '(d1, a1) := x in
  let '(d2, a2) := y in
  (d1 <? d2) || ((d1 =? d2) && cadena_ltb a1 a2).

Fixpoint heappush {A : Type} (ltb : A → A → bool) (heap : list A) (x : A) : list A :=
  match heap with
  | [] => [x]
  | y :: resto => if ltb y x then y :: heappush ltb resto x else x :: heap
  end.

Definition heappop {A : Type} (heap : list A) : option (A * list A) :=
  match heap with
  | [] => None
  | x :: resto => Some (x, resto)
  end.

(** ** Prim (src/prim.py, prim) *)

(** The inner loop that pushes the edges leaving [n] towards nodes that are
    not yet visited. *)
Definition prim_empujar (visitados : gset string) (n : string)
    (heap : list (Z * string * string)) (ady : list (string * Z))
  : list (Z * string * string) :=
  foldl (λ h '(vecino, peso_arista),
           if decide (vecino ∈ visitados) then h
           else heappush tupla3_ltb h (peso_arista, n, vecino))
        heap ady.

Fixpoint prim_bucle (fuel : nat) (grafo : grafo_t) (visitados : gset string)
    (mst_aristas : list arista) (peso_total : Z) (heap : list (Z * string * string))
  : resultado (list arista * Z) :=
  match fuel with
  | O => Agotado
  | S fuel' =>
    if bool_decide (heap ≠ []) && bool_decide (size visitados < length grafo)%nat then
      match heappop heap with
      | None => IndexError
      | Some ((p, n1, n2), heap') =>
        if decide (n2 ∈ visitados) then
          prim_bucle fuel' grafo visitados mst_aristas peso_total heap'
        else
          let visitados' := visitados ∪ {[n2]} in
          let mst_aristas' := mst_aristas ++ [(n1, n2, p)] in
          let peso_total' := peso_total + p in
          ady ← grafo_consultar grafo n2;
          prim_bucle fuel' grafo visitados' mst_aristas' peso_total'
                     (prim_empujar visitados' n2 heap' ady)
      end
    else Ok (mst_aristas, peso_total)
  end.

Definition prim_con (fuel : nat) (aristas : list arista) (nodo_inicial : option string)
  : resultado (list arista * Z) :=
  match aristas with
  | [] => Ok ([], 0)
  | _ =>
    let grafo := construir_grafo aristas in
    inicial ← match nodo_inicial with
              | Some n => Ok n
              | None => match grafo with
                        | (k, _) :: _ => Ok k
                        | [] => IndexError
                        end
              end;
    let visitados : gset string := {[inicial]} in
    ady ← grafo_consultar grafo inicial;
    let heap := foldl (λ h '(vecino, p), heappush tupla3_ltb h (p, inicial, vecino)) [] ady in
    prim_bucle fuel grafo visitados [] 0 heap
  end.

(** The engine, run with a budget of loop iterations that is never exhausted
    (see [prim_total]): every iteration pops one tuple, and at most two
    tuples per edge are ever pushed. *)
Definition prim (aristas : list arista) (nodo_inicial : option string)
  : resultado (list arista * Z) :=
  prim_con (S (2 * length aristas)) aristas nodo_inicial.

(** ** Dijkstra (src/dijkstra.py, dijkstra and reconstruir_ruta) *)

(** A recorded distance: an integer, or [float('inf')]. *)
Inductive distancia : Type :=
| Finita (d : Z)
| Infinita.

(** [nueva < distancias[vecino]] *)
Definition menor_que (nueva : Z) (d : distancia) : bool :=
  match d with
  | Finita x => nueva <? x
  | Infinita => true
  end.

Record estado_dijkstra : Type := MkEstado {
  distancias : gmap string distancia;
  predecesores : gmap string string;
  heap_d : list (Z * string)
}.

(** The loop over the neighbours of the node that has just been finalised. *)
Fixpoint dijkstra_relajar (visitados : gset string) (distancia_actual : Z)
    (nodo_actual : string) (ady : list (string * Z)) (st : estado_dijkstra)
  : resultado estado_dijkstra :=
  match ady with
  | [] => Ok st
  | (vecino, p) :: resto =>
    if decide (vecino ∈ visitados) then
      dijkstra_relajar visitados distancia_actual nodo_actual resto st
    else
      let nueva_distancia := distancia_actual + p in
      dv ← consultar (distancias st) vecino;
      if menor_que nueva_distancia dv then
        dijkstra_relajar visitados distancia_actual nodo_actual resto
          {| distancias := <[vecino := Finita nueva_distancia]> (distancias st);
             predecesores := <[vecino := nodo_actual]> (predecesores st);
             heap_d := heappush tupla2_ltb (heap_d st) (nueva_distancia, vecino) |}
      else dijkstra_relajar visitados distancia_actual nodo_actual resto st
  end.

Fixpoint dijkstra_bucle (fuel : nat) (grafo : grafo_t) (visitados : gset string)
    (st : estado_dijkstra)
  : resultado (gmap string distancia * gmap string string) :=
  match fuel with
  | O => Agotado
  | S fuel' =>
    match heappop (heap_d st) with
    | None => Ok (distancias st, predecesores st)
    | Some ((distancia_actual, nodo_actual), heap') =>
      let st1 := {| distancias := distancias st;
                    predecesores := predecesores st;
                    heap_d := heap' |} in
      if decide (nodo_actual ∈ visitados) then
        dijkstra_bucle fuel' grafo visitados st1
      else
        let visitados' := visitados ∪ {[nodo_actual]} in
        ady ← grafo_consultar grafo nodo_actual;
        st2 ← dijkstra_relajar visitados' distancia_actual nodo_actual ady st1;
        dijkstra_bucle fuel' grafo visitados' st2
    end
  end.

Definition dijkstra_con (fuel : nat) (aristas : list arista) (nodo_origen : string)
  : resultado (gmap string distancia * gmap string string) :=
  let grafo := construir_grafo aristas in
  match grafo_buscar grafo nodo_origen with
  | None => Ok (∅, ∅)
  | Some _ =>
    let distancias0 : gmap string distancia :=
      <[nodo_origen := Finita 0]> (list_to_map ((λ kv, (kv.1, Infinita)) <$> grafo)) in
    dijkstra_bucle fuel grafo ∅
      {| distancias := distancias0; predecesores := ∅; heap_d := [(0, nodo_origen)] |}
  end.

(** The engine, run with a budget of loop iterations that is never exhausted
    (see [dijkstra_total]). *)
Definition dijkstra (aristas : list arista) (nodo_origen : string)
  : resultado (gmap string distancia * gmap string string) :=
  dijkstra_con (2 * length aristas + 2) aristas nodo_origen.

(** The loop of [reconstruir_ruta]; on a predecessor map with a cycle the
    source never ends, which is the outcome [Agotado] for every fuel. *)
Fixpoint ruta_bucle (fuel : nat) (predecesores : gmap string string)
    (nodo_origen nodo_actual : string) (ruta : list string)
  : resultado (list string) :=
  match fuel with
  | O => Agotado
  | S fuel' =>
    if decide (nodo_actual ≠ nodo_origen) then
      let ruta' := ruta ++ [nodo_actual] in
      match predecesores !! nodo_actual with
      | None => Ok []
      | Some p => ruta_bucle fuel' predecesores nodo_origen p ruta'
      end
    else Ok (reverse (ruta ++ [nodo_origen]))
  end.

Definition reconstruir_ruta (fuel : nat) (predecesores : gmap string string)
    (nodo_origen nodo_destino : string) : resultado (list string) :=
  if bool_decide (predecesores !! nodo_destino = None)
     && bool_decide (nodo_destino ≠ nodo_origen)
  then Ok []
  else ruta_bucle fuel predecesores nodo_origen nodo_destino [].

(** ** Huffman (src/huffman.py) *)

(** [class NodoHuffman]: the four fields of the constructor. The induction
    principle over the optional children is [NodoHuffman_ind] below. *)
Unset Elimination Schemes.
Inductive NodoHuffman : Type :=
| Nodo (caracter : option string) (frecuencia : Z)
       (izquierdo derecho : option NodoHuffman).
Set Elimination Schemes.

Definition caracter (n : NodoHuffman) : option string :=
  match n with Nodo c _ _ _ => c end.
Definition frecuencia (n : NodoHuffman) : Z :=
  match n with Nodo _ f _ _ => f end.
Definition izquierdo (n : NodoHuffman) : option NodoHuffman :=
  match n with Nodo _ _ i _ => i end.
Definition derecho (n : NodoHuffman) : option NodoHuffman :=
  match n with Nodo _ _ _ d => d end.

(** [NodoHuffman.__lt__] *)
Definition nodo_lt (a b : NodoHuffman) : bool := frecuencia a <? frecuencia b.

(** [NodoHuffman.es_hoja] *)
Definition es_hoja (n : NodoHuffman) : bool :=
  match izquierdo n, derecho n with
  | None, None => true
  | _, _ => false
  end.

(** [calcular_frecuencias]: [dict(Counter(texto))]; a text is the sequence of
    its characters, and the table lists them in order of first occurrence. *)
Fixpoint contar (tabla : list (string * Z)) (c : string) : list (string * Z) :=
  match tabla with
  | [] => [(c, 1)]
  | (k, f) :: resto => if decide (k = c) then (k, f + 1) :: resto
                       else (k, f) :: contar resto c
  end.

Definition calcular_frecuencias (texto : list string) : list (string * Z) :=
  foldl contar [] texto.

(** The priority queue of tree nodes. [NodoHuffman.__lt__] compares the
    frequencies only, so between nodes of equal frequency the order of
    extraction is decided by the queue's internal layout; the engine is
    therefore embedded over the operations of a queue, [es_monticulo] being
    the layout that the operations maintain. *)
Class Monticulo : Type := {
  es_monticulo : list NodoHuffman → Prop;
  heapify_h : list NodoHuffman → list NodoHuffman;
  heappop_h : list NodoHuffman → option (NodoHuffman * list NodoHuffman);
  heappush_h : list NodoHuffman → NodoHuffman → list NodoHuffman
}.

(** The contract of heapq: the operations keep the layout and the contents,
    [heappop] returns on a non-empty queue, and no node left in the queue is
    less than the one it returns. *)
Record monticulo_correcto (M : Monticulo) : Prop := {
  heapify_h_spec : ∀ l, es_monticulo (heapify_h l) ∧ heapify_h l ≡ₚ l;
  heappop_h_some : ∀ h, es_monticulo h → h ≠ [] → is_Some (heappop_h h);
  heappop_h_spec : ∀ h x h', es_monticulo h → heappop_h h = Some (x, h') →
    es_monticulo h' ∧ h ≡ₚ x :: h' ∧ Forall (λ y, nodo_lt y x = false) h';
  heappush_h_spec : ∀ h x, es_monticulo h →
    es_monticulo (heappush_h h x) ∧ heappush_h h x ≡ₚ x :: h
}.

(** [heapq.heappop(heap)] raises IndexError on an empty list. *)
Definition extraer `{Monticulo} (heap : list NodoHuffman)
  : resultado (NodoHuffman * list NodoHuffman) :=
  match heappop_h heap with
  | Some r => Ok r
  | None => IndexError
  end.

(** The merging loop of [construir_arbol_huffman]. *)
Fixpoint huffman_bucle `{Monticulo} (fuel : nat) (heap : list NodoHuffman)
  : resultado (list NodoHuffman) :=
  match fuel with
  | O => Agotado
  | S fuel' =>
    if decide (1 < length heap)%nat then
      '(izq, heap1) ← extraer heap;
      '(der, heap2) ← extraer heap1;
      let padre_n := Nodo None (frecuencia izq + frecuencia der) (Some izq) (Some der) in
      huffman_bucle fuel' (heappush_h heap2 padre_n)
    else Ok heap
  end.

(** [construir_arbol_huffman]; every turn of the loop shortens the queue by
    one, so the length of the table bounds the number of turns. *)
Definition construir_arbol_huffman `{Monticulo} (frecuencias : list (string * Z))
  : resultado (option NodoHuffman) :=
  match frecuencias with
  | [] => Ok None
  | _ =>
    let heap := heapify_h ((λ '(char, freq), Nodo (Some char) freq None None) <$> frecuencias) in
    heap' ← huffman_bucle (length frecuencias) heap;
    Ok (head heap')
  end.

(** [generar_codigos]: the dictionary [codigos] is threaded through the
    traversal; its keys are the [caracter] fields of the leaves. *)
Fixpoint generar_codigos_desde (raiz : NodoHuffman) (codigo : string)
    (codigos : gmap (option string) string) : gmap (option string) string :=
  match raiz with
  | Nodo c _ izq der =>
    match izq, der with
    | None, None => <[c := if decide (codigo = "") then "0" else codigo]> codigos
    | _, _ =>
      let codigos1 := match izq with
                      | Some i => generar_codigos_desde i (codigo +:+ "0") codigos
                      | None => codigos
                      end in
      match der with
      | Some d => generar_codigos_desde d (codigo +:+ "1") codigos1
      | None => codigos1
      end
    end
  end.

Definition generar_codigos (raiz : option NodoHuffman) : gmap (option string) string :=
  match raiz with
  | None => ∅
  | Some r => generar_codigos_desde r "" ∅
  end.

(** The statistics of [ejecutar_huffman]. The source computes the ratio in
    floating point; it is kept here as an exact rational. *)
Definition bits_original (texto : list string) : Z := Z.of_nat (length texto) * 8.

Fixpoint bits_comprimido (codigos : gmap (option string) string)
    (frecuencias : list (string * Z)) : resultado Z :=
  match frecuencias with
  | [] => Ok 0
  | (char, freq) :: resto =>
    match codigos !! Some char with
    | None => KeyError
    | Some cod =>
      s ← bits_comprimido codigos resto;
      Ok (Z.of_nat (String.length cod) * freq + s)
    end
  end.

(** [tasa_compresion = (1 - bits_comprimido / bits_original) * 100] *)
Definition tasa_compresion `{Monticulo} (texto : list string) : resultado Q :=
  let frecuencias := calcular_frecuencias texto in
  raiz ← construir_arbol_huffman frecuencias;
  let codigos := generar_codigos raiz in
  let original := bits_original texto in
  comprimido ← bits_comprimido codigos frecuencias;
  if decide (original = 0) then ZeroDivisionError
  else Ok ((1 - inject_Z comprimido / inject_Z original) * 100)%Q.

(** One queue that meets the contract: the nodes in ascending order of
    frequency, a new node placed after the nodes of equal frequency. *)
Fixpoint insertar_nodo (heap : list NodoHuffman) (x : NodoHuffman) : list NodoHuffman :=
  match heap with
  | [] => [x]
  | y :: resto => if nodo_lt x y then x :: heap else y :: insertar_nodo resto x
  end.

Definition ordenar_nodos (l : list NodoHuffman) : list NodoHuffman :=
  foldl insertar_nodo [] l.

Definition ordenado_por_frecuencia (l : list NodoHuffman) : Prop :=
  StronglySorted (λ a b, frecuencia a <= frecuencia b) l.

#[export] Instance monticulo_lista : Monticulo := {|
  es_monticulo := ordenado_por_frecuencia;
  heapify_h := ordenar_nodos;
  heappop_h := heappop;
  heappush_h := insertar_nodo
|}.

(** ** Vocabulary of the specification *)

(** The edge [e] joins [a] and [b], in one direction or the other. *)
Definition une (e : arista) (a b : string) : Prop :=
  (nodo1 e = a ∧ nodo2 e = b) ∨ (nodo1 e = b ∧ nodo2 e = a).

(** [a] and [b] are joined by a walk over the edges of [E]. *)
Inductive conectados (E : list arista) : string → string → Prop :=
| con_refl a : conectados E a a
| con_paso a b c e : e ∈ E → une e a b → conectados E b c → conectados E a c.

(** No edge of [E] closes a cycle with the edges listed after it. *)
Fixpoint aciclico (E : list arista) : Prop :=
  match E with
  | [] => True
  | e :: E' => ¬ conectados E' (nodo1 e) (nodo2 e) ∧ aciclico E'
  end.

(** The graph of an edge list is connected. *)
Definition conexo (aristas : list arista) : Prop :=
  ∀ a b, a ∈ nodos_de aristas → b ∈ nodos_de aristas → conectados aristas a b.

(** Every edge of [T] is an edge of [E], in one direction or the other. *)
Definition subgrafo (T E : list arista) : Prop :=
  ∀ e, e ∈ T → ∃ e', e' ∈ E ∧ peso e' = peso e ∧ une e' (nodo1 e) (nodo2 e).

(** [T] connects whatever [E] connects. *)
Definition abarca (T E : list arista) : Prop :=
  ∀ a b, conectados E a b → conectados T a b.

(** A spanning tree (forest, when [E] is not connected) of [E]. *)
Definition arbol_de_expansion (T E : list arista) : Prop :=
  subgrafo T E ∧ aciclico T ∧ abarca T E.

Definition suma_pesos (E : list arista) : Z :=
  foldr (λ e s, peso e + s) 0 E.

(** A spanning tree of least total weight. *)
Definition arbol_minimo (T E : list arista) : Prop :=
  arbol_de_expansion T E ∧
  ∀ T0, arbol_de_expansion T0 E → suma_pesos T <= suma_pesos T0.

(** The edge has one endpoint on each side of the cut [S]. *)
Definition cruza (S : string → Prop) (e : arista) : Prop :=
  (S (nodo1 e) ∧ ¬ S (nodo2 e)) ∨ (¬ S (nodo1 e) ∧ S (nodo2 e)).

(** The accepted edges [A] can still be completed to a spanning tree that is
    no heavier than any given one. *)
Definition prometedor (E A : list arista) : Prop :=
  ∀ T0, arbol_de_expansion T0 E →
    ∃ T, arbol_de_expansion T E ∧ (∀ x, x ∈ A → x ∈ T) ∧
         suma_pesos T <= suma_pesos T0.

(** The root that the parent pointers lead to, without compression. *)
Inductive raiz_de (p : gmap string string) : string → string → Prop :=
| raiz_aqui r : p !! r = Some r → raiz_de p r r
| raiz_paso x y r : p !! x = Some y → y ≠ x → raiz_de p y r → raiz_de p x r.

(** The nodes that a search from [x] traverses before it reaches the root. *)
Inductive en_camino (p : gmap string string) : string → string → Prop :=
| camino_aqui x y : p !! x = Some y → y ≠ x → en_camino p x x
| camino_paso x y z : p !! x = Some y → y ≠ x → en_camino p y z → en_camino p x z.

(** The states of a Union-Find object: built by the constructor and then
    used through [encontrar] and [unir] on registered nodes. *)
Inductive alcanzable : UnionFind → Prop :=
| alc_init nodos : alcanzable (uf_init nodos)
| alc_encontrar uf fuel x uf' r :
    alcanzable uf → encontrar fuel uf x = Ok (uf', r) → alcanzable uf'
| alc_unir uf fuel x y uf' b :
    alcanzable uf → unir fuel uf x y = Ok (uf', b) → alcanzable uf'.

(** The node Prim starts from: the one supplied, or the first key of the
    adjacency dictionary, which is the first endpoint of the first edge. *)
Definition nodo_inicial_de (aristas : list arista) (nodo_inicial : option string)
  : option string :=
  match nodo_inicial with
  | Some n => Some n
  | None => nodo1 <$> head aristas
  end.

(** A start node that Prim can be given: none, or a node of the graph. *)
Definition inicio_valido (aristas : list arista) (nodo_inicial : option string) : Prop :=
  match nodo_inicial with
  | Some n => n ∈ nodos_de aristas
  | None => True
  end.

(** Two nodes are in the same class when their parent pointers lead to the
    same root. *)
Definition misma_clase (uf : UnionFind) (a b : string) : Prop :=
  ∃ r, raiz_de (padre uf) a r ∧ raiz_de (padre uf) b r.

(** The representatives: the nodes that are their own parent. *)
Definition raices (uf : UnionFind) : gset string :=
  dom (filter (λ kv, kv.1 = kv.2) (padre uf)).

(** The chain of predecessors from a node back to the source, the node
    first. *)
Inductive cadena (P : gmap string string) (origen : string)
  : string → list string → Prop :=
| cadena_fin : cadena P origen origen [origen]
| cadena_paso v u l :
    v ≠ origen → P !! v = Some u → cadena P origen u l →
    cadena P origen v (v :: l).

(** [es] lists one edge of [E] for every two consecutive nodes of [ruta],
    joining them. *)
Fixpoint camino_por (E : list arista) (ruta : list string) (es : list arista) : Prop :=
  match ruta, es with
  | [_], [] => True
  | a :: ((b :: _) as resto), e :: es' =>
    e ∈ E ∧ une e a b ∧ camino_por E resto es'
  | _, _ => False
  end.

(** The recorded distance of a node is the integer [d]. *)
Definition distancia_es (D : gmap string distancia) (n : string) (d : Z) : Prop :=
  D !! n = Some (Finita d).

(** The symbols held by the leaves of a tree, from left to right. *)
Fixpoint hojas (t : NodoHuffman) : list (option string) :=
  match t with
  | Nodo c _ izq der =>
    match izq, der with
    | None, None => [c]
    | _, _ =>
      match izq with Some i => hojas i | None => [] end ++
      match der with Some d => hojas d | None => [] end
    end
  end.

(** The bits on the way from the root of a tree to a leaf, and the symbol
    of that leaf: '0' towards the left child, '1' towards the right one. *)
Inductive ruta_a : NodoHuffman → string → option string → Prop :=
| ruta_hoja c f : ruta_a (Nodo c f None None) "" c
| ruta_izq c f i der bits s :
    ruta_a i bits s → ruta_a (Nodo c f (Some i) der) ("0" +:+ bits) s
| ruta_der c f izq d bits s :
    ruta_a d bits s → ruta_a (Nodo c f izq (Some d)) ("1" +:+ bits) s.

(** [k1] is an initial segment of [k2]. *)
Definition es_prefijo (k1 k2 : string) : Prop := ∃ s, k2 = k1 +:+ s.

(** No code of the table is an initial segment of the code of another
    symbol. *)
Definition libre_de_prefijos (codigos : gmap (option string) string) : Prop :=
  ∀ c1 c2 k1 k2,
    codigos !! c1 = Some k1 → codigos !! c2 = Some k2 →
    es_prefijo k1 k2 → c1 = c2.

(** ** Decoding (the repository has no decoder) *)

(** Modelled from the spec: the repository generates the code table and
    never decodes; the specification speaks of decoding an encoded bit
    stream with the generated table. The decoder reads the stream from the
    left and emits a symbol as soon as the bits read since the last symbol
    are the code of one. *)
Definition simbolo_de (tabla : list (string * string)) (bits : string) : option string :=
  (λ kv, kv.1) <$> List.find (λ kv, String.eqb kv.2 bits) tabla.

Fixpoint decodificar_desde (tabla : list (string * string)) (pendiente : string)
    (bits : string) : option (list string) :=
  match bits with
  | EmptyString => if decide (pendiente = "") then Some [] else None
  | String b resto =>
    let leido := pendiente +:+ String b EmptyString in
    match simbolo_de tabla leido with
    | Some s => cons s <$> decodificar_desde tabla "" resto
    | None => decodificar_desde tabla leido resto
    end
  end.

Definition decodificar (tabla : list (string * string)) (bits : string)
  : option (list string) :=
  decodificar_desde tabla "" bits.

(** The encoder that goes with it: the concatenation of the codes. *)
Fixpoint codificar (codigos : gmap (option string) string) (texto : list string)
  : option string :=
  match texto with
  | [] => Some ""
  | c :: resto =>
    cod ← codigos !! Some c;
    r ← codificar codigos resto;
    Some (cod +:+ r)
  end.

(** The code table as the list of its (symbol, code) rows. *)
Definition tabla_de (codigos : gmap (option string) string) : list (string * string) :=
  omap (λ kv, match kv.1 with Some c => Some (c, kv.2) | None => None end)
       (map_to_list codigos).

(** ** Invariants of the loops and worked inputs *)

(** *** Union-Find *)

(** The invariant of the structure: both dictionaries have the same keys,
    parents are registered, and the rank grows strictly from a node to its
    parent. *)
Record uf_inv (uf : UnionFind) : Prop := {
  inv_dom : ∀ x, is_Some (padre uf !! x) ↔ is_Some (rango uf !! x);
  inv_cerrado : ∀ x y, padre uf !! x = Some y → is_Some (padre uf !! y);
  inv_rango : ∀ x y kx ky, padre uf !! x = Some y → y ≠ x →
    rango uf !! x = Some kx → rango uf !! y = Some ky → (kx < ky)%nat
}.

Definition rango_acotado (uf : UnionFind) (B : nat) : Prop :=
  ∀ x k, rango uf !! x = Some k → (k ≤ B)%nat.

(** A state reached by three unions: d -> c -> a and b -> a. *)
Definition uf_ejemplo : UnionFind :=
  {| padre := {[ "a" := "a"; "b" := "a"; "c" := "a"; "d" := "c" ]};
     rango := {[ "a" := 2%nat; "b" := 0%nat; "c" := 1%nat; "d" := 0%nat ]} |}.

(** *** Kruskal *)

(** The order of the sort. *)
Definition por_peso (a b : arista) : Prop := peso a <= peso b.

(** The invariant of the loop of Kruskal: [hecho] are the edges already
    iterated over. *)
Record kruskal_inv (E hecho : list arista) (uf : UnionFind) (mst : list arista) : Prop := {
  ki_inv : uf_inv uf;
  ki_cota : rango_acotado uf (length hecho);
  ki_reg : ∀ n, is_Some (padre uf !! n) ↔ n ∈ nodos_de E;
  ki_clases : ∀ a b, a ∈ nodos_de E → b ∈ nodos_de E →
    (misma_clase uf a b ↔ conectados mst a b);
  ki_hecho : ∀ a b, conectados hecho a b ↔ conectados mst a b;
  ki_aciclico : aciclico mst;
  ki_sub : ∀ x, x ∈ mst → x ∈ hecho;
  ki_prom : prometedor E mst;
  ki_cuenta : (size (raices uf) + length mst = size (nodos_de E))%nat
}.

(** The edges that a pass over the list [l] accepts, [visto] being the
    edges examined before it: an edge is accepted exactly when the edges
    examined before it do not already connect its two nodes, and the
    accepted edges are kept in the order of the pass. *)
Inductive seleccion_voraz : list arista → list arista → list arista → Prop :=
| sv_fin visto : seleccion_voraz visto [] []
| sv_acepta visto e l s :
    ¬ conectados visto (nodo1 e) (nodo2 e) →
    seleccion_voraz (visto ++ [e]) l s →
    seleccion_voraz visto (e :: l) (e :: s)
| sv_rechaza visto e l s :
    conectados visto (nodo1 e) (nodo2 e) →
    seleccion_voraz (visto ++ [e]) l s →
    seleccion_voraz visto (e :: l) s.

(** *** The adjacency dictionary and the queues of tuples *)

(** One turn of the loop of [construir_grafo]. *)
Definition grafo_paso (g : grafo_t) (e : arista) : grafo_t :=
  grafo_anexar
    (grafo_anexar (grafo_registrar (grafo_registrar g (nodo1 e)) (nodo2 e))
                  (nodo1 e) (nodo2 e, peso e))
    (nodo2 e) (nodo1 e, peso e).

(** The total number of adjacency entries. *)
Definition grado_total (g : grafo_t) : nat := sum_list ((λ kv, length kv.2) <$> g).

(** The order of a queue whose tuples begin with the key. *)
Definition por_clave {A : Type} (clave : A → Z) (x y : A) : Prop := clave x <= clave y.

Definition peso3 (t : Z * string * string) : Z := t.1.1.
Definition peso2 (t : Z * string) : Z := t.1.

(** *** Prim *)

(** The queue that Prim starts with. *)
Definition heap_inicial (inicial : string) (ady : list (string * Z))
  : list (Z * string * string) :=
  foldl (λ h '(vecino, p), heappush tupla3_ltb h (p, inicial, vecino)) [] ady.

(** The invariant of the loop of Prim. *)
Record prim_inv (E : list arista) (ini : string) (V : gset string)
    (mst : list arista) (heap : list (Z * string * string)) : Prop := {
  pi_ini : ini ∈ V;
  pi_nodos : ∀ n, n ∈ V → n ∈ nodos_de E;
  pi_con : ∀ n, n ∈ V → conectados mst ini n;
  pi_dentro : ∀ x, x ∈ mst → nodo1 x ∈ V ∧ nodo2 x ∈ V;
  pi_sub : subgrafo mst E;
  pi_aciclico : aciclico mst;
  pi_completo : ∀ e a b, e ∈ E → une e a b → a ∈ V → b ∉ V → (peso e, a, b) ∈ heap;
  pi_heap : ∀ p a b, (p, a, b) ∈ heap →
    a ∈ V ∧ ∃ e, e ∈ E ∧ peso e = p ∧ une e a b;
  pi_orden : StronglySorted (por_clave peso3) heap;
  pi_prom : prometedor E mst;
  pi_cuenta : size V = S (length mst)
}.

(** A connected graph and a graph with two components. *)
Definition triangulo : list arista := [("A", "B", 1); ("B", "C", 2); ("A", "C", 4)].

Definition dos_islas : list arista := [("A", "B", 1); ("C", "D", 2)].

(** *** Dijkstra *)

(** The loop invariant. The map [r] is not part of the program: it records
    how many nodes had been finalised when each node was finalised. *)
Record dijkstra_inv (E : list arista) (origen : string) (r : gmap string nat)
    (V : gset string) (st : estado_dijkstra) : Prop := {
  di_D_origen : distancias st !! origen = Some (Finita 0);
  di_P_origen : predecesores st !! origen = None;
  di_V_origen : origen ∈ V ∨
    (V = ∅ ∧ predecesores st = ∅ ∧ heap_d st = [(0, origen)]);
  di_claves : ∀ n, n ∈ nodos_de E → is_Some (distancias st !! n);
  di_heap_nodos : ∀ d n, (d, n) ∈ heap_d st → n ∈ nodos_de E;
  di_heap_min : ∀ d n, (d, n) ∈ heap_d st → n ∉ V →
    ∃ d', distancias st !! n = Some (Finita d') ∧ d' <= d ∧ (d', n) ∈ heap_d st;
  di_orden : StronglySorted (por_clave peso2) (heap_d st);
  di_pred : ∀ v u, predecesores st !! v = Some u →
    u ∈ V ∧ ∃ du e, distancias st !! u = Some (Finita du) ∧
                   distancias st !! v = Some (Finita (du + peso e)) ∧
                   e ∈ E ∧ une e u v;
  di_pend : ∀ v u, predecesores st !! v = Some u →
    v ∈ V ∨ ∃ d, (d, v) ∈ heap_d st;
  di_rango_V : ∀ n, n ∈ V → ∃ k, r !! n = Some k ∧ (k < size V)%nat;
  di_rango_P : ∀ v u kv ku, predecesores st !! v = Some u → v ∈ V →
    r !! v = Some kv → r !! u = Some ku → (ku < kv)%nat
}.

(** The state with its queue replaced. *)
Definition con_heap (st : estado_dijkstra) (heap : list (Z * string)) : estado_dijkstra :=
  {| distancias := distancias st; predecesores := predecesores st; heap_d := heap |}.

(** *** Huffman *)

(** The code stored for a leaf reached with the path [codigo]. *)
Definition codigo_final (codigo : string) : string :=
  if decide (codigo = "") then "0" else codigo.

Definition hoja_de (kv : string * Z) : NodoHuffman :=
  let '(char, freq) := kv in Nodo (Some char) freq None None.

Definition hojas_de_cola (heap : list NodoHuffman) : list (option string) :=
  mjoin (hojas <$> heap).

Definition frecuencias_ejemplo : list (string * Z) :=
  [("A", 5); ("B", 3); ("C", 1); ("D", 1)].

Definition suma_frecuencias (tabla : list (string * Z)) : Z :=
  foldr (λ kv s, kv.2 + s) 0 tabla.


(** ** Further vocabulary *)

(** Union by rank: a representative of rank [k] has at least [2^k] nodes in
    its class. *)
Definition rango_logaritmico (uf : UnionFind) : Prop :=
  ∀ r k, padre uf !! r = Some r → rango uf !! r = Some k →
    ∃ S : gset string, (2 ^ k ≤ size S)%nat ∧ ∀ n, n ∈ S → raiz_de (padre uf) n r.

(** Two edge lists that describe the same undirected weighted graph: every
    edge of one is an edge of the other, in one direction or the other. *)
Definition mismo_grafo (E E' : list arista) : Prop :=
  subgrafo E E' ∧ subgrafo E' E.

(** A list of edges that grows a tree from the nodes [V] the way Prim does:
    every edge leaves the nodes reached so far, is an edge of [E] from its
    first node to its second, and no edge of [E] that leaves the nodes
    reached so far is lighter. *)
Fixpoint crecimiento_voraz (E : list arista) (V : gset string) (mst : list arista)
  : Prop :=
  match mst with
  | [] => True
  | e :: resto =>
    nodo1 e ∈ V ∧ nodo2 e ∉ V ∧
    (∃ e0, e0 ∈ E ∧ peso e0 = peso e ∧ une e0 (nodo1 e) (nodo2 e)) ∧
    (∀ e' a b, e' ∈ E → une e' a b → a ∈ V → b ∉ V → peso e <= peso e') ∧
    crecimiento_voraz E (V ∪ {[nodo2 e]}) resto
  end.

Definition grafo_ejemplo_reordenado : list arista :=
  [("C", "A", 4); ("B", "A", 1); ("C", "B", 2); ("A", "B", 1)].

(** A walk over the edges of [E] from one node to another, with the sum of
    the weights of its edges. *)
Inductive camino_de_peso (E : list arista) : string → string → Z → Prop :=
| cp_fin a : camino_de_peso E a a 0
| cp_paso a b c e w :
    e ∈ E → une e a b → camino_de_peso E b c w →
    camino_de_peso E a c (peso e + w).

(** What the loop of Dijkstra keeps when no weight is negative. [V] are the
    finalised nodes and [C] those among them whose neighbours have all been
    relaxed. *)
Record dijkstra_opt (E : list arista) (origen : string) (V C : gset string)
    (st : estado_dijkstra) : Prop := {
  do_claves : ∀ n, is_Some (distancias st !! n) → n ∈ nodos_de E;
  do_real : ∀ n d, distancias st !! n = Some (Finita d) → camino_de_peso E origen n d;
  do_min : ∀ n, n ∈ V →
    ∃ d, distancias st !! n = Some (Finita d) ∧
         ∀ w, camino_de_peso E origen n w → d <= w;
  do_relajado : ∀ u v e du, u ∈ C → e ∈ E → une e u v →
    distancias st !! u = Some (Finita du) →
    ∃ dv, distancias st !! v = Some (Finita dv) ∧ dv <= du + peso e;
  do_orden : ∀ n d x m, n ∈ V → distancias st !! n = Some (Finita d) →
    (x, m) ∈ heap_d st → d <= x;
  do_pendiente : ∀ n d, n ∉ V → distancias st !! n = Some (Finita d) →
    (d, n) ∈ heap_d st;
  do_pred : ∀ n d, n ≠ origen → distancias st !! n = Some (Finita d) →
    is_Some (predecesores st !! n)
}.

(** The state in which the loop of Dijkstra starts. *)
Definition estado_inicial (E : list arista) (origen : string) : estado_dijkstra :=
  {| distancias := <[origen := Finita 0]>
                     (list_to_map ((λ kv, (kv.1, Infinita)) <$> construir_grafo E));
     predecesores := ∅;
     heap_d := [(0, origen)] |}.

(** A tree as [construir_arbol_huffman] builds them: a leaf holds a symbol;
    an inner node holds none, has two children and the sum of their
    frequencies. *)
Fixpoint arbol_bien_formado (t : NodoHuffman) : Prop :=
  match t with
  | Nodo c f izq der =>
    match izq, der with
    | None, None => is_Some c
    | Some i, Some d =>
      c = None ∧ f = frecuencia i + frecuencia d ∧
      arbol_bien_formado i ∧ arbol_bien_formado d
    | _, _ => False
    end
  end.

(** The leaves of a tree from left to right, each with its symbol, its
    frequency and its depth, the root being at depth [k]. *)
Fixpoint hojas_prof (k : nat) (t : NodoHuffman) : list (option string * Z * nat) :=
  match t with
  | Nodo c f izq der =>
    match izq, der with
    | None, None => [(c, f, k)]
    | _, _ =>
      match izq with Some i => hojas_prof (S k) i | None => [] end ++
      match der with Some d => hojas_prof (S k) d | None => [] end
    end
  end.

(** The leaves with their symbols and frequencies. *)
Definition hojas_cf (t : NodoHuffman) : list (option string * Z) :=
  (λ x, x.1) <$> hojas_prof 0 t.

(** The weighted path length of a tree: the sum over its leaves of
    frequency times depth. *)
Definition coste (t : NodoHuffman) : Z :=
  foldr (λ x s, x.1.2 * Z.of_nat x.2 + s) 0 (hojas_prof 0 t).

(** The length of the code of a symbol, zero for a symbol without code. *)
Definition longitud_codigo (codigos : gmap (option string) string) (c : string) : nat :=
  match codigos !! Some c with
  | Some k => String.length k
  | None => 0
  end.

(** The number of occurrences of a character in a text. *)
Definition ocurrencias (c : string) (texto : list string) : Z :=
  Z.of_nat (length (filter (λ x, x = c) texto)).

(** A binary tree in which every node has two children or none. *)
Fixpoint arbol_completo (t : NodoHuffman) : Prop :=
  match t with
  | Nodo _ _ izq der =>
    match izq, der with
    | None, None => True
    | Some i, Some d => arbol_completo i ∧ arbol_completo d
    | _, _ => False
    end
  end.

(** The lists of the depths of the leaves, from left to right, of the
    binary trees whose root is at depth [k] and in which every node has two
    children or none. *)
Inductive profundidades (k : nat) : list nat → Prop :=
| prof_hoja : profundidades k [k]
| prof_nodo l1 l2 :
    profundidades (S k) l1 → profundidades (S k) l2 → profundidades k (l1 ++ l2).

(** The weighted path length of leaves given by weight and depth. *)
Definition coste_pares (ps : list (Z * nat)) : Z :=
  foldr (λ p s, p.1 * Z.of_nat p.2 + s) 0 ps.

(** [C] is the weighted path length of some binary tree, every node of
    which has two children or none, whose leaves have the weights [W]. *)
Definition arbol_posible (W : list Z) (C : Z) : Prop :=
  ∃ ps ds, profundidades 0 ds ∧ ds ≡ₚ ps.*2 ∧ ps.*1 ≡ₚ W ∧ C = coste_pares ps.

(** The weights and depths of the leaves of a tree. *)
Definition pesos_prof (k : nat) (t : NodoHuffman) : list (Z * nat) :=
  (λ x, (x.1.2, x.2)) <$> hojas_prof k t.

(** The sum of the weighted path lengths of the trees of a queue. *)
Definition coste_bosque (ts : list NodoHuffman) : Z :=
  foldr (λ t s, coste t + s) 0 ts.

(** The bits that a code table spends on symbols given with their
    frequencies. *)
Definition bits_hojas (codigos : gmap (option string) string)
    (l : list (option string * Z)) : Z :=
  foldr (λ x s, Z.of_nat (String.length (default "" (codigos !! x.1))) * x.2 + s) 0 l.

(** * Proofs *)

(** ** The engines on worked inputs *)

Example kruskal_ejemplo :
  kruskal [("A", "B", 1); ("B", "C", 2); ("A", "C", 4)]
  = Ok ([("A", "B", 1); ("B", "C", 2)], 3).
Proof. vm_compute. reflexivity. Qed.

Example prim_ejemplo :
  prim [("A", "B", 1); ("B", "C", 2); ("A", "C", 4)] None
  = Ok ([("A", "B", 1); ("B", "C", 2)], 3).
Proof. vm_compute. reflexivity. Qed.

Example prim_ejemplo_C :
  prim [("A", "B", 1); ("B", "C", 2); ("A", "C", 4)] (Some "C")
  = Ok ([("C", "B", 2); ("B", "A", 1)], 3).
Proof. vm_compute. reflexivity. Qed.

Example dijkstra_ejemplo :
  dijkstra [("A", "B", 1); ("B", "C", 2); ("A", "C", 4)] "A"
  = Ok ({[ "A" := Finita 0; "B" := Finita 1; "C" := Finita 3 ]},
        {[ "B" := "A"; "C" := "B" ]}).
Proof. vm_compute. reflexivity. Qed.

Example reconstruir_ruta_ejemplo :
  reconstruir_ruta 5 {[ "B" := "A"; "C" := "B" ]} "A" "C" = Ok ["A"; "B"; "C"].
Proof. vm_compute. reflexivity. Qed.

(** ** The outcome monad *)

Lemma bind_Ok {A B : Type} (m : resultado A) (f : A → resultado B) (b : B) :
  m ≫= f = Ok b → ∃ a, m = Ok a ∧ f a = Ok b.
Proof. destruct m; simpl; intros; try discriminate. eauto. Qed.

Lemma consultar_Ok {V : Type} (d : gmap string V) (k : string) (v : V) :
  consultar d k = Ok v ↔ d !! k = Some v.
Proof. unfold consultar. destruct (d !! k); split; intros; simplify_eq; done. Qed.

Ltac inv_bind H :=
  let a := fresh "a" in
  let Ha := fresh "Ha" in
  apply bind_Ok in H as (a & Ha & H).

(** ** Union-Find *)

Section union_find.
Implicit Types (uf : UnionFind) (p : gmap string string) (x y r : string).

Lemma raiz_de_es_raiz p x r : raiz_de p x r → p !! r = Some r.
Proof. induction 1; auto. Qed.

Lemma raiz_de_registrado p x r : raiz_de p x r → is_Some (p !! x).
Proof. destruct 1; eauto. Qed.

Lemma raiz_de_unica p x r r' : raiz_de p x r → raiz_de p x r' → r = r'.
Proof.
  induction 1 as [r Hr | x y r Hxy Hne _ IH]; intros H'.
  - inversion H' as [? Hr' | ? y' ? Hy' Hne' _]; subst; [done | congruence].
  - inversion H' as [? Hr' | ? y' ? Hy' Hne' Hrest]; subst.
    + congruence.
    + rewrite Hxy in Hy'. simplify_eq. auto.
Qed.

Lemma raiz_de_raiz p r s : p !! r = Some r → raiz_de p r s → s = r.
Proof. intros Hr Hs. eapply raiz_de_unica; [exact Hs | by constructor]. Qed.

(** Path compression of one node does not move any root. *)
Lemma comprimir_raices p x r :
  raiz_de p x r → x ≠ r →
  ∀ n s, raiz_de p n s ↔ raiz_de (<[x := r]> p) n s.
Proof.
  intros Hx Hne n s.
  assert (Hr : p !! r = Some r) by eauto using raiz_de_es_raiz.
  split.
  - induction 1 as [s Hs | n y s Hny Hyn Hys IH].
    + constructor. rewrite lookup_insert_ne; [done |].
      intros ->. apply Hne. symmetry. eapply raiz_de_raiz; eauto.
    + destruct (decide (n = x)) as [-> | Hnx].
      * assert (s = r) as ->.
        { eapply raiz_de_unica; [| exact Hx]. econstructor 2; eauto. }
        apply raiz_paso with r; [by rewrite lookup_insert_eq | done |].
        constructor. by rewrite lookup_insert_ne.
      * apply raiz_paso with y; [by rewrite lookup_insert_ne | done | done].
  - induction 1 as [s Hs | n y s Hny Hyn Hys IH].
    + destruct (decide (s = x)) as [-> | Hsx].
      * rewrite lookup_insert_eq in Hs. congruence.
      * rewrite lookup_insert_ne in Hs by done. by constructor.
    + destruct (decide (n = x)) as [-> | Hnx].
      * rewrite lookup_insert_eq in Hny. injection Hny as <-.
        assert (s = r) as -> by (eapply raiz_de_raiz; eauto). done.
      * rewrite lookup_insert_ne in Hny by done. econstructor 2; eauto.
Qed.

(** Linking a root [a] under another root [b] merges their two classes. *)
Lemma enlazar_raices p a b :
  p !! a = Some a → p !! b = Some b → a ≠ b →
  ∀ n s, raiz_de (<[a := b]> p) n s ↔
         (raiz_de p n s ∧ s ≠ a) ∨ (raiz_de p n a ∧ s = b).
Proof.
  intros Ha Hb Hab n s. split.
  - induction 1 as [s Hs | n y s Hny Hyn Hys IH].
    + destruct (decide (s = a)) as [-> | Hsa].
      * rewrite lookup_insert_eq in Hs. congruence.
      * rewrite lookup_insert_ne in Hs by done. left. split; [by constructor | done].
    + destruct (decide (n = a)) as [-> | Hna].
      * rewrite lookup_insert_eq in Hny. simplify_eq.
        destruct IH as [[Hbs _] | [Hba _]].
        -- apply raiz_de_raiz in Hbs as ->; [| done]. right. split; [by constructor | done].
        -- apply raiz_de_raiz in Hba; [| done]. congruence.
      * rewrite lookup_insert_ne in Hny by done.
        destruct IH as [[Hys' Hsa] | [Hya ->]].
        -- left. split; [econstructor 2; eauto | done].
        -- right. split; [econstructor 2; eauto | done].
  - intros [[Hns Hsa] | [Hna ->]].
    + induction Hns as [s Hs | n y s Hny Hyn Hys IH].
      * constructor. by rewrite lookup_insert_ne.
      * assert (n ≠ a) by congruence.
        apply raiz_paso with y; [by rewrite lookup_insert_ne | done | auto].
    + remember a as a' eqn:Ea in Hna.
      induction Hna as [s Hs | n y s Hny Hyn Hys IH]; subst.
      * apply raiz_paso with b; [by rewrite lookup_insert_eq | done |].
        constructor. by rewrite lookup_insert_ne.
      * assert (n ≠ a) by congruence.
        apply raiz_paso with y; [by rewrite lookup_insert_ne | done | auto].
Qed.

Lemma rango_crece uf x r kx kr :
  uf_inv uf → raiz_de (padre uf) x r → x ≠ r →
  rango uf !! x = Some kx → rango uf !! r = Some kr → (kx < kr)%nat.
Proof.
  intros Hinv Hx. revert kx.
  induction Hx as [r Hr | x y r Hxy Hyx Hyr IH]; intros kx Hne Hkx Hkr; [done |].
  destruct (decide (y = r)) as [-> | Hyr'].
  - eapply (inv_rango uf Hinv x r); eauto.
  - assert (is_Some (rango uf !! y)) as [ky Hky].
    { apply (inv_dom uf Hinv). eapply inv_cerrado; eauto. }
    assert (kx < ky)%nat by (eapply (inv_rango uf Hinv x y); eauto).
    assert (ky < kr)%nat by eauto. lia.
Qed.

Lemma en_camino_inv p x n :
  en_camino p x n ↔
  ∃ y, p !! x = Some y ∧ y ≠ x ∧ (n = x ∨ en_camino p y n).
Proof.
  split.
  - destruct 1; eauto 6.
  - intros (y & Hxy & Hne & [-> | Hy]); [econstructor 1 | econstructor 2]; eauto.
Qed.

(** What a call of [encontrar] that returns has done. *)
Lemma encontrar_Ok fuel uf x uf' r :
  uf_inv uf → encontrar fuel uf x = Ok (uf', r) →
  raiz_de (padre uf) x r ∧ rango uf' = rango uf ∧ uf_inv uf' ∧
  (∀ n s, raiz_de (padre uf) n s ↔ raiz_de (padre uf') n s) ∧
  (∀ n, en_camino (padre uf) x n → padre uf' !! n = Some r) ∧
  (∀ n, ¬ en_camino (padre uf) x n → padre uf' !! n = padre uf !! n).
Proof.
  intros Hinv. revert x uf' r.
  induction fuel as [| fuel IH]; intros x uf' r H; [discriminate |].
  simpl in H. inv_bind H. rename a into q. apply consultar_Ok in Ha.
  destruct (decide (q ≠ x)) as [Hqx | Hqx].
  - inv_bind H. destruct a as [uf1 r1]. injection H as <- <-.
    destruct (IH _ _ _ Ha0) as (Hq & Hrg & Hinv1 & Hraices & Hcam & Hfuera).
    assert (Hxr : raiz_de (padre uf) x r1) by (econstructor 2; eauto).
    assert (Hne : x ≠ r1).
    { intros ->. apply raiz_de_es_raiz in Hq. congruence. }
    assert (Hx1 : raiz_de (padre uf1) x r1) by (by apply Hraices).
    split; [done |]. split; [done |]. split; [| split; [| split]].
    + constructor; simpl.
      * intros n. rewrite <- (inv_dom uf1 Hinv1 n).
        destruct (decide (n = x)) as [-> | Hn].
        -- rewrite lookup_insert_eq. split; [intros _ | eauto].
           eapply raiz_de_registrado; eauto.
        -- by rewrite lookup_insert_ne.
      * intros n y Hn.
        destruct (decide (n = x)) as [-> | Hnx].
        -- rewrite lookup_insert_eq in Hn. injection Hn as <-.
           destruct (decide (r1 = x)); [congruence |].
           rewrite lookup_insert_ne by done.
           apply raiz_de_es_raiz in Hx1. eauto.
        -- rewrite lookup_insert_ne in Hn by done.
           destruct (decide (y = x)) as [-> | Hyx].
           ++ rewrite lookup_insert_eq. eauto.
           ++ rewrite lookup_insert_ne by done. eapply inv_cerrado; eauto.
      * intros n y kn ky Hn Hyn Hkn Hky.
        destruct (decide (n = x)) as [-> | Hnx].
        -- rewrite lookup_insert_eq in Hn. injection Hn as <-.
           eapply rango_crece; eauto.
        -- rewrite lookup_insert_ne in Hn by done.
           eapply (inv_rango uf1 Hinv1 n y); eauto.
    + intros n s. rewrite (Hraices n s). simpl. by apply comprimir_raices.
    + intros n Hn. simpl. apply en_camino_inv in Hn as (y & Hy & _ & Hn).
      rewrite Ha in Hy. injection Hy as <-.
      destruct (decide (n = x)) as [-> | Hnx]; [by rewrite lookup_insert_eq |].
      rewrite lookup_insert_ne by done. destruct Hn; [done | auto].
    + intros n Hn. simpl.
      assert (n ≠ x).
      { intros ->. apply Hn. econstructor 1; eauto. }
      rewrite lookup_insert_ne by done. apply Hfuera.
      intros Hc. apply Hn. econstructor 2; eauto.
  - assert (q = x) as -> by (destruct (decide (q = x)); [done | by destruct Hqx]).
    injection H as <- <-.
    split; [by constructor |]. split; [done |]. split; [done |].
    split; [done |]. split; [| done].
    intros n Hn. apply en_camino_inv in Hn as (y & Hy & Hne & _). congruence.
Qed.

(** [encontrar] returns when its fuel exceeds the distance between the rank
    of the node and the largest rank. *)
Lemma encontrar_termina fuel uf x k B :
  uf_inv uf → rango_acotado uf B → rango uf !! x = Some k →
  (B - k < fuel)%nat →
  ∃ uf' r, encontrar fuel uf x = Ok (uf', r).
Proof.
  intros Hinv HB. revert x k.
  induction fuel as [| fuel IH]; intros x k Hk Hf; [lia |].
  assert (is_Some (padre uf !! x)) as [q Hq] by (apply (inv_dom uf Hinv); eauto).
  simpl. unfold consultar at 1. rewrite Hq. simpl.
  destruct (decide (q ≠ x)) as [Hqx | Hqx]; [| eauto].
  assert (is_Some (rango uf !! q)) as [kq Hkq].
  { apply (inv_dom uf Hinv). eapply inv_cerrado; eauto. }
  assert (k < kq)%nat by (eapply (inv_rango uf Hinv x q); eauto).
  assert (kq ≤ B)%nat by eauto.
  destruct (IH q kq Hkq) as (uf1 & r & ->); [lia |]. simpl. eauto.
Qed.

Lemma encontrar_mas_fuel fuel fuel' uf x res :
  encontrar fuel uf x = Ok res → (fuel ≤ fuel')%nat → encontrar fuel' uf x = Ok res.
Proof.
  revert fuel' x res.
  induction fuel as [| fuel IH]; intros fuel' x res H Hle; [discriminate |].
  destruct fuel' as [| fuel']; [lia |].
  simpl in *. destruct (consultar (padre uf) x) as [q | | | |]; simpl in *; try done.
  destruct (decide (q ≠ x)); [| done].
  inv_bind H. rewrite (IH fuel' q a Ha) by lia. done.
Qed.

(** The only pointers that [encontrar] rewrites are those of the traversed
    nodes. *)
Lemma encontrar_cambios fuel uf x uf' r :
  encontrar fuel uf x = Ok (uf', r) →
  ∀ n, padre uf' !! n = padre uf !! n ∨
       (padre uf' !! n = Some r ∧ en_camino (padre uf) x n).
Proof.
  revert x uf' r.
  induction fuel as [| fuel IH]; intros x uf' r H n; [discriminate |].
  simpl in H. inv_bind H. rename a into q. apply consultar_Ok in Ha.
  destruct (decide (q ≠ x)) as [Hqx | Hqx].
  - inv_bind H. destruct a as [uf1 r1]. injection H as <- <-. simpl.
    destruct (decide (n = x)) as [-> | Hnx].
    + right. rewrite lookup_insert_eq. split; [done |]. econstructor 1; eauto.
    + rewrite lookup_insert_ne by done.
      destruct (IH _ _ _ Ha0 n) as [Hn | [Hn Hc]]; [by left |].
      right. split; [done |]. econstructor 2; eauto.
  - injection H as <- <-. by left.
Qed.

Lemma elem_of_raices uf n : n ∈ raices uf ↔ padre uf !! n = Some n.
Proof.
  unfold raices. rewrite elem_of_dom. split.
  - intros [v Hv]. apply map_lookup_filter_Some in Hv as [Hv Heq].
    simpl in Heq. by subst.
  - intros Hn. exists n. by apply map_lookup_filter_Some.
Qed.

Lemma raiz_de_propia p n : raiz_de p n n ↔ p !! n = Some n.
Proof.
  split; [apply raiz_de_es_raiz | by constructor].
Qed.

(** What a call of [unir] that returns has done. *)
Lemma unir_Ok fuel uf a b uf' res :
  uf_inv uf → unir fuel uf a b = Ok (uf', res) →
  ∃ ra rb,
    raiz_de (padre uf) a ra ∧ raiz_de (padre uf) b rb ∧ uf_inv uf' ∧
    (ra = rb → res = false ∧ rango uf' = rango uf ∧
       (∀ n s, raiz_de (padre uf') n s ↔ raiz_de (padre uf) n s) ∧
       (∀ n, padre uf' !! n = padre uf !! n ∨ padre uf' !! n = Some ra)) ∧
    (ra ≠ rb → res = true ∧
       ∃ x y, ((x = ra ∧ y = rb) ∨ (x = rb ∧ y = ra)) ∧
         ∀ n s, raiz_de (padre uf') n s ↔
                (raiz_de (padre uf) n s ∧ s ≠ x) ∨ (raiz_de (padre uf) n x ∧ s = y)) ∧
    (∀ B, rango_acotado uf B → rango_acotado uf' (S B)).
Proof.
  intros Hinv H. unfold unir in H.
  inv_bind H. destruct a0 as [uf1 ra].
  inv_bind H. destruct a0 as [uf2 rb].
  destruct (encontrar_Ok _ _ _ _ _ Hinv Ha) as (Hra & Hrg1 & Hinv1 & Hraices1 & _ & _).
  destruct (encontrar_Ok _ _ _ _ _ Hinv1 Ha0) as (Hrb & Hrg2 & Hinv2 & Hraices2 & _ & _).
  assert (Hraices : ∀ n s, raiz_de (padre uf) n s ↔ raiz_de (padre uf2) n s).
  { intros n s. by rewrite Hraices1, Hraices2. }
  apply Hraices1 in Hrb.
  exists ra, rb. split; [done |]. split; [done |].
  assert (HA : padre uf2 !! ra = Some ra).
  { apply raiz_de_propia, Hraices, raiz_de_propia. eauto using raiz_de_es_raiz. }
  assert (HB : padre uf2 !! rb = Some rb).
  { apply raiz_de_propia, Hraices, raiz_de_propia. eauto using raiz_de_es_raiz. }
  destruct (decide (ra = rb)) as [Heq | Hne].
  - injection H as <- <-. split; [done |]. split; [| split].
    + intros _. split; [done |]. split; [congruence |]. split.
      * intros n s. symmetry. apply Hraices.
      * intros n.
        destruct (encontrar_cambios _ _ _ _ _ Ha0 n) as [-> | [-> _]]; [| right; congruence].
        destruct (encontrar_cambios _ _ _ _ _ Ha n) as [-> | [-> _]]; auto.
    + done.
    + intros B HBd x k Hk. rewrite Hrg2, Hrg1 in Hk. apply HBd in Hk. lia.
  - inv_bind H. rename a0 into k1. inv_bind H. rename a0 into k2.
    apply consultar_Ok in Ha1, Ha2.
    assert (Hlink : ∀ x y, ((x = ra ∧ y = rb) ∨ (x = rb ∧ y = ra)) →
      ∀ n s, raiz_de (<[x := y]> (padre uf2)) n s ↔
             (raiz_de (padre uf) n s ∧ s ≠ x) ∨ (raiz_de (padre uf) n x ∧ s = y)).
    { intros x y Hxy n s. rewrite !Hraices.
      apply enlazar_raices; destruct Hxy as [[-> ->] | [-> ->]]; done. }
    assert (Hdom : ∀ x y n, is_Some (padre uf2 !! x) →
      (is_Some (<[x := y]> (padre uf2) !! n) ↔ is_Some (padre uf2 !! n))).
    { intros x y n Hx. destruct (decide (n = x)) as [-> | Hn].
      - rewrite lookup_insert_eq. split; eauto.
      - by rewrite lookup_insert_ne. }
    assert (Hcer : ∀ x y, is_Some (padre uf2 !! x) → is_Some (padre uf2 !! y) →
      ∀ n m, <[x := y]> (padre uf2) !! n = Some m →
             is_Some (<[x := y]> (padre uf2) !! m)).
    { intros x y Hx Hy n m Hn. apply Hdom; [done |].
      destruct (decide (n = x)) as [-> | Hnx].
      - rewrite lookup_insert_eq in Hn. by injection Hn as <-.
      - rewrite lookup_insert_ne in Hn by done. eapply inv_cerrado; eauto. }
    destruct (k1 <? k2)%nat eqn:E12; [| destruct (k2 <? k1)%nat eqn:E21].
    + injection H as <- <-. apply Nat.ltb_lt in E12. split; [| split; [done | split]].
      * constructor; simpl.
        -- intros n. rewrite Hdom by eauto. apply (inv_dom uf2 Hinv2).
        -- apply Hcer; eauto.
        -- intros n m kn km Hn Hmn Hkn Hkm.
           destruct (decide (n = ra)) as [-> | Hnx].
           ++ rewrite lookup_insert_eq in Hn. injection Hn as <-.
              rewrite Ha1 in Hkn. rewrite Ha2 in Hkm. simplify_eq. done.
           ++ rewrite lookup_insert_ne in Hn by done.
              eapply (inv_rango uf2 Hinv2 n m); eauto.
      * intros _. split; [done |]. exists ra, rb. split; [by left |].
        apply (Hlink ra rb). by left.
      * intros B HBd x k Hk. simpl in Hk. rewrite Hrg2, Hrg1 in Hk. apply HBd in Hk. lia.
    + injection H as <- <-. apply Nat.ltb_lt in E21. split; [| split; [done | split]].
      * constructor; simpl.
        -- intros n. rewrite Hdom by eauto. apply (inv_dom uf2 Hinv2).
        -- apply Hcer; eauto.
        -- intros n m kn km Hn Hmn Hkn Hkm.
           destruct (decide (n = rb)) as [-> | Hnx].
           ++ rewrite lookup_insert_eq in Hn. injection Hn as <-.
              rewrite Ha2 in Hkn. rewrite Ha1 in Hkm. simplify_eq. done.
           ++ rewrite lookup_insert_ne in Hn by done.
              eapply (inv_rango uf2 Hinv2 n m); eauto.
      * intros _. split; [done |]. exists rb, ra. split; [by right |].
        apply (Hlink rb ra). by right.
      * intros B HBd x k Hk. simpl in Hk. rewrite Hrg2, Hrg1 in Hk. apply HBd in Hk. lia.
    + injection H as <- <-. apply Nat.ltb_ge in E12, E21.
      assert (k1 = k2) as <- by lia.
      split; [| split; [done | split]].
      * constructor; simpl.
        -- intros n. rewrite Hdom by eauto.
           rewrite (inv_dom uf2 Hinv2 n).
           destruct (decide (n = ra)) as [-> | Hn].
           ++ rewrite lookup_insert_eq. split; eauto.
           ++ by rewrite lookup_insert_ne.
        -- apply Hcer; eauto.
        -- intros n m kn km Hn Hmn Hkn Hkm.
           destruct (decide (n = rb)) as [-> | Hnx].
           ++ rewrite lookup_insert_eq in Hn. injection Hn as <-.
              rewrite lookup_insert_eq in Hkm.
              rewrite lookup_insert_ne in Hkn by done.
              rewrite Ha2 in Hkn. simplify_eq. lia.
           ++ rewrite lookup_insert_ne in Hn by done.
              assert (n ≠ ra) by congruence.
              rewrite lookup_insert_ne in Hkn by done.
              destruct (decide (m = ra)) as [-> | Hm].
              ** rewrite lookup_insert_eq in Hkm. injection Hkm as <-.
                 assert (kn < k1)%nat; [| lia].
                 eapply (inv_rango uf2 Hinv2 n ra); eauto.
              ** rewrite lookup_insert_ne in Hkm by done.
                 eapply (inv_rango uf2 Hinv2 n m); eauto.
      * intros _. split; [done |]. exists rb, ra. split; [by right |].
        apply (Hlink rb ra). by right.
      * intros B HBd x k Hk. simpl in Hk.
        destruct (decide (x = ra)) as [-> | Hx].
        -- rewrite lookup_insert_eq in Hk. injection Hk as <-.
           rewrite Hrg2, Hrg1 in Ha1. apply HBd in Ha1. lia.
        -- rewrite lookup_insert_ne in Hk by done.
           rewrite Hrg2, Hrg1 in Hk. apply HBd in Hk. lia.
Qed.

Lemma unir_termina fuel uf a b B :
  uf_inv uf → rango_acotado uf B →
  is_Some (padre uf !! a) → is_Some (padre uf !! b) → (B < fuel)%nat →
  ∃ uf' res, unir fuel uf a b = Ok (uf', res).
Proof.
  intros Hinv HB Ha Hb Hf.
  apply (inv_dom uf Hinv) in Ha as [ka Hka].
  destruct (encontrar_termina fuel uf a ka B) as (uf1 & ra & E1); [done.. | lia |].
  destruct (encontrar_Ok _ _ _ _ _ Hinv E1) as (Hra & Hrg1 & Hinv1 & Hraices1 & _ & _).
  assert (is_Some (rango uf1 !! b)) as [kb Hkb].
  { rewrite Hrg1. by apply (inv_dom uf Hinv). }
  destruct (encontrar_termina fuel uf1 b kb B) as (uf2 & rb & E2);
    [done | by unfold rango_acotado; rewrite Hrg1 | done | lia |].
  destruct (encontrar_Ok _ _ _ _ _ Hinv1 E2) as (Hrb & Hrg2 & Hinv2 & Hraices2 & _ & _).
  unfold unir. rewrite E1. simpl. rewrite E2. simpl.
  destruct (decide (ra = rb)); [eauto |].
  assert (is_Some (rango uf2 !! ra)) as [k1 Hk1].
  { apply (inv_dom uf2 Hinv2). eapply raiz_de_registrado, Hraices2, Hraices1.
    constructor. eauto using raiz_de_es_raiz. }
  assert (is_Some (rango uf2 !! rb)) as [k2 Hk2].
  { apply (inv_dom uf2 Hinv2). eapply raiz_de_registrado, Hraices2.
    constructor. eauto using raiz_de_es_raiz. }
  unfold consultar. rewrite Hk1, Hk2. simpl.
  destruct (k1 <? k2)%nat; [eauto |]. destruct (k2 <? k1)%nat; eauto.
Qed.


Lemma uf_init_padre nodos n :
  padre (uf_init nodos) !! n = if decide (n ∈ nodos) then Some n else None.
Proof.
  induction nodos as [| m nodos IH]; [done |].
  unfold uf_init in *. cbn [padre] in *. rewrite fmap_cons. cbn [list_to_map foldr].
  simpl fst. simpl snd.
  destruct (decide (m = n)) as [-> | Hne].
  - rewrite lookup_insert_eq. rewrite decide_True; [done | by left].
  - rewrite lookup_insert_ne by done. rewrite IH.
    destruct (decide (n ∈ nodos)) as [Hin | Hnin].
    + rewrite decide_True; [done | by right].
    + rewrite decide_False; [done |]. intros Hc. apply elem_of_cons in Hc. destruct Hc as [Hc | Hc]; [congruence | done].
Qed.

Lemma uf_init_rango nodos n :
  rango (uf_init nodos) !! n = if decide (n ∈ nodos) then Some 0%nat else None.
Proof.
  induction nodos as [| m nodos IH]; [done |].
  unfold uf_init in *. cbn [rango] in *. rewrite fmap_cons. cbn [list_to_map foldr].
  simpl fst. simpl snd.
  destruct (decide (m = n)) as [-> | Hne].
  - rewrite lookup_insert_eq. rewrite decide_True; [done | by left].
  - rewrite lookup_insert_ne by done. rewrite IH.
    destruct (decide (n ∈ nodos)) as [Hin | Hnin].
    + rewrite decide_True; [done | by right].
    + rewrite decide_False; [done |]. intros Hc. apply elem_of_cons in Hc. destruct Hc as [Hc | Hc]; [congruence | done].
Qed.

Lemma uf_init_inv nodos : uf_inv (uf_init nodos).
Proof.
  constructor.
  - intros x. rewrite uf_init_padre, uf_init_rango.
    destruct (decide (x ∈ nodos)); split; intros [? ?]; eauto; discriminate.
  - intros x y. rewrite !uf_init_padre.
    destruct (decide (x ∈ nodos)); [| discriminate].
    intros [= <-]. rewrite decide_True by done. eauto.
  - intros x y kx ky. rewrite uf_init_padre.
    destruct (decide (x ∈ nodos)); [| discriminate]. congruence.
Qed.

Lemma uf_init_acotado nodos : rango_acotado (uf_init nodos) 0.
Proof.
  intros x k. rewrite uf_init_rango. destruct (decide (x ∈ nodos)); [| discriminate].
  intros [= <-]. lia.
Qed.

(** Every state the object can be in satisfies the invariant, with some
    bound on its ranks. *)
Lemma alcanzable_inv uf : alcanzable uf → uf_inv uf ∧ ∃ B, rango_acotado uf B.
Proof.
  induction 1 as [nodos | uf fuel x uf' r _ [Hinv [B HB]] H
                 | uf fuel x y uf' b _ [Hinv [B HB]] H].
  - split; [apply uf_init_inv | exists 0%nat; apply uf_init_acotado].
  - destruct (encontrar_Ok _ _ _ _ _ Hinv H) as (_ & Hrg & Hinv' & _).
    split; [done |]. exists B. unfold rango_acotado. by rewrite Hrg.
  - destruct (unir_Ok _ _ _ _ _ _ Hinv H) as (ra & rb & _ & _ & Hinv' & _ & _ & Hcot).
    split; [done |]. exists (S B). auto.
Qed.

Lemma registrado_tiene_raiz uf x :
  uf_inv uf → (∃ B, rango_acotado uf B) → is_Some (padre uf !! x) →
  ∃ r, raiz_de (padre uf) x r.
Proof.
  intros Hinv [B HB] Hx.
  apply (inv_dom uf Hinv) in Hx as [k Hk].
  destruct (encontrar_termina (S B) uf x k B) as (uf' & r & E); [done.. | lia |].
  exists r. by destruct (encontrar_Ok _ _ _ _ _ Hinv E) as (? & _).
Qed.

End union_find.

(** *** The two claims about Union-Find *)

Lemma uf_ejemplo_alcanzable : alcanzable uf_ejemplo.
Proof.
  apply (alc_unir
    {| padre := {[ "a" := "a"; "b" := "a"; "c" := "c"; "d" := "c" ]};
       rango := {[ "a" := 1%nat; "b" := 0%nat; "c" := 1%nat; "d" := 0%nat ]} |}
    5 "a" "c" _ true); [| vm_compute; reflexivity].
  apply (alc_unir
    {| padre := {[ "a" := "a"; "b" := "a"; "c" := "c"; "d" := "d" ]};
       rango := {[ "a" := 1%nat; "b" := 0%nat; "c" := 0%nat; "d" := 0%nat ]} |}
    5 "c" "d" _ true); [| vm_compute; reflexivity].
  apply (alc_unir (uf_init ["a"; "b"; "c"; "d"]) 5 "a" "b" _ true);
    [| vm_compute; reflexivity].
  apply alc_init.
Qed.




(** C4: on every reachable state and for every registered node,
    [encontrar] returns (with any fuel from some bound on, and always the
    same result): the parent pointers lead from the node to a root, so they
    hold no cycle; and after the call every node traversed on the way points
    directly at the returned root, the other pointers being as they were. *)
Theorem encontrar_termina_y_comprime (uf : UnionFind) (x : string) :
  alcanzable uf → is_Some (padre uf !! x) →
  ∃ fuel0 uf' r,
    (∀ fuel, (fuel0 ≤ fuel)%nat → encontrar fuel uf x = Ok (uf', r)) ∧
    raiz_de (padre uf) x r ∧
    (∀ n, en_camino (padre uf) x n → padre uf' !! n = Some r) ∧
    (∀ n, ¬ en_camino (padre uf) x n → padre uf' !! n = padre uf !! n).
Proof.
  intros Halc Hx.
  destruct (alcanzable_inv uf Halc) as [Hinv [B HB]].
  apply (inv_dom uf Hinv) in Hx as [k Hk].
  destruct (encontrar_termina (S B) uf x k B) as (uf' & r & E); [done.. | lia |].
  destruct (encontrar_Ok _ _ _ _ _ Hinv E) as (Hr & _ & _ & _ & Hcam & Hfuera).
  exists (S B), uf', r. split; [| done].
  intros fuel Hle. eapply encontrar_mas_fuel; eauto.
Qed.

Lemma encontrar_termina_y_comprime_witness :
  ∃ fuel0 uf' r,
    (∀ fuel, (fuel0 ≤ fuel)%nat → encontrar fuel uf_ejemplo "d" = Ok (uf', r)) ∧
    raiz_de (padre uf_ejemplo) "d" r ∧
    (∀ n, en_camino (padre uf_ejemplo) "d" n → padre uf' !! n = Some r) ∧
    (∀ n, ¬ en_camino (padre uf_ejemplo) "d" n → padre uf' !! n = padre uf_ejemplo !! n).
Proof.
  apply (encontrar_termina_y_comprime uf_ejemplo "d").
  - apply uf_ejemplo_alcanzable.
  - exists "c". reflexivity.
Defined.

(** *** Classes and representatives across a union *)

Lemma en_camino_registrado p x n : en_camino p x n → is_Some (p !! n).
Proof. induction 1; eauto. Qed.

Lemma encontrar_dom fuel uf x uf' r :
  encontrar fuel uf x = Ok (uf', r) →
  ∀ n, is_Some (padre uf' !! n) ↔ is_Some (padre uf !! n).
Proof.
  intros H n.
  destruct (encontrar_cambios _ _ _ _ _ H n) as [-> | [-> Hc]]; [done |].
  split; [intros _; eauto using en_camino_registrado | eauto].
Qed.

Lemma insert_dom_registrado (p : gmap string string) x y n :
  is_Some (p !! x) → is_Some (<[x := y]> p !! n) ↔ is_Some (p !! n).
Proof.
  intros Hx. destruct (decide (n = x)) as [-> | Hn].
  - rewrite lookup_insert_eq. split; eauto.
  - by rewrite lookup_insert_ne.
Qed.

Lemma encontrar_devuelve_raiz fuel uf x uf' r :
  encontrar fuel uf x = Ok (uf', r) → padre uf !! r = Some r.
Proof.
  revert x uf' r.
  induction fuel as [| fuel IH]; intros x uf' r H; [discriminate |].
  simpl in H. inv_bind H. apply consultar_Ok in Ha.
  destruct (decide (a ≠ x)) as [Hne | Heq].
  - inv_bind H. destruct a0 as [uf1 r1]. injection H as _ <-. eauto.
  - injection H as _ <-.
    destruct (decide (a = x)) as [-> | ?]; [done | by destruct Heq].
Qed.

Lemma unir_dom fuel uf a b uf' res :
  unir fuel uf a b = Ok (uf', res) →
  ∀ n, is_Some (padre uf' !! n) ↔ is_Some (padre uf !! n).
Proof.
  intros H n. unfold unir in H.
  inv_bind H. destruct a0 as [uf1 ra].
  inv_bind H. destruct a0 as [uf2 rb].
  rewrite <- (encontrar_dom _ _ _ _ _ Ha n), <- (encontrar_dom _ _ _ _ _ Ha0 n).
  assert (Hra : is_Some (padre uf2 !! ra)).
  { apply (encontrar_dom _ _ _ _ _ Ha0), (encontrar_dom _ _ _ _ _ Ha).
    apply encontrar_devuelve_raiz in Ha. eauto. }
  assert (Hrb : is_Some (padre uf2 !! rb)).
  { apply (encontrar_dom _ _ _ _ _ Ha0).
    apply encontrar_devuelve_raiz in Ha0. eauto. }
  destruct (decide (ra = rb)); [by injection H as <- _ |].
  inv_bind H. inv_bind H.
  destruct (a0 <? a1)%nat; [| destruct (a1 <? a0)%nat]; injection H as <- _; simpl;
    by apply insert_dom_registrado.
Qed.

Section clases.
Context (fuel : nat) (uf uf' : UnionFind) (a b : string) (res : bool).
Hypothesis Hinv : uf_inv uf.
Hypothesis Hunir : unir fuel uf a b = Ok (uf', res).

Lemma unir_no_une :
  res = false →
  misma_clase uf a b ∧ rango uf' = rango uf ∧
  (∀ n s, raiz_de (padre uf') n s ↔ raiz_de (padre uf) n s).
Proof.
  intros ->.
  destruct (unir_Ok _ _ _ _ _ _ Hinv Hunir) as (ra & rb & Hra & Hrb & _ & Hig & Hdif & _).
  destruct (decide (ra = rb)) as [-> | Hne]; [| by destruct (Hdif Hne)].
  destruct (Hig eq_refl) as (_ & Hrg & Hraices & _).
  split; [by exists rb | done].
Qed.

Lemma unir_une :
  res = true →
  ∃ ra rb x y,
    raiz_de (padre uf) a ra ∧ raiz_de (padre uf) b rb ∧ ra ≠ rb ∧
    ((x = ra ∧ y = rb) ∨ (x = rb ∧ y = ra)) ∧
    ∀ n s, raiz_de (padre uf') n s ↔
           (raiz_de (padre uf) n s ∧ s ≠ x) ∨ (raiz_de (padre uf) n x ∧ s = y).
Proof.
  intros ->.
  destruct (unir_Ok _ _ _ _ _ _ Hinv Hunir) as (ra & rb & Hra & Hrb & _ & Hig & Hdif & _).
  destruct (decide (ra = rb)) as [-> | Hne]; [by destruct (Hig eq_refl) |].
  destruct (Hdif Hne) as (_ & x & y & Hxy & Hraices).
  exists ra, rb, x, y. done.
Qed.

Lemma unir_une_clases :
  res = true →
  ¬ misma_clase uf a b ∧
  ∀ n m, misma_clase uf' n m ↔
         misma_clase uf n m ∨
         (misma_clase uf n a ∧ misma_clase uf b m) ∨
         (misma_clase uf n b ∧ misma_clase uf a m).
Proof.
  intros Hres.
  destruct (unir_une Hres) as (ra & rb & x & y & Hra & Hrb & Hne & Hxy & Hraices).
  split.
  - intros (r & H1 & H2). apply Hne.
    rewrite (raiz_de_unica _ _ _ _ Hra H1). eauto using raiz_de_unica.
  - assert (Hnueva : ∀ n s, raiz_de (padre uf) n s →
      raiz_de (padre uf') n (if decide (s = x) then y else s)).
    { intros n s Hn. apply Hraices. case_decide; [subst; by right | by left]. }
    assert (Hxr : x ≠ y) by (destruct Hxy as [[-> ->] | [-> ->]]; congruence).
    intros n m. split.
    + intros (s & Hn & Hm). apply Hraices in Hn, Hm.
      destruct Hn as [[Hn Hs] | [Hn ->]], Hm as [[Hm Hs'] | [Hm Hs']].
      * left. by exists s.
      * subst s. right.
        destruct Hxy as [[-> ->] | [-> ->]]; [right | left];
          (split; [by eexists | by eexists]).
      * right.
        destruct Hxy as [[-> ->] | [-> ->]]; [left | right];
          (split; [by eexists | by eexists]).
      * left. by exists x.
    + intros [(s & Hn & Hm) | [[(s & Hn & Ha) (t & Hb & Hm)] | [(s & Hn & Hb) (t & Ha & Hm)]]].
      * eexists. split; apply Hnueva; eauto.
      * assert (s = ra) as -> by eauto using raiz_de_unica.
        assert (t = rb) as -> by eauto using raiz_de_unica.
        exists y. apply Hnueva in Hn, Hm.
        destruct Hxy as [[-> ->] | [-> ->]]; repeat case_decide; subst; try congruence; by split.
      * assert (s = rb) as -> by eauto using raiz_de_unica.
        assert (t = ra) as -> by eauto using raiz_de_unica.
        exists y. apply Hnueva in Hn, Hm.
        destruct Hxy as [[-> ->] | [-> ->]]; repeat case_decide; subst; try congruence; by split.
Qed.

Lemma unir_no_une_raices : res = false → raices uf' = raices uf.
Proof.
  intros Hres. destruct (unir_no_une Hres) as (_ & _ & Hraices).
  apply set_eq. intros n. rewrite !elem_of_raices, <- !raiz_de_propia. apply Hraices.
Qed.

Lemma unir_une_raices :
  res = true → ∃ x, x ∈ raices uf ∧ raices uf' = raices uf ∖ {[x]}.
Proof.
  intros Hres.
  destruct (unir_une Hres) as (ra & rb & x & y & Hra & Hrb & Hne & Hxy & Hraices).
  assert (Hx : raiz_de (padre uf) x x ∧ raiz_de (padre uf) y y ∧ x ≠ y).
  { destruct Hxy as [[-> ->] | [-> ->]];
      (split; [| split]); try congruence;
      apply raiz_de_propia; eauto using raiz_de_es_raiz. }
  destruct Hx as (Hxx & Hyy & Hxy').
  exists x. split; [by apply elem_of_raices, raiz_de_propia |].
  apply set_eq. intros n.
  rewrite elem_of_difference, elem_of_singleton, !elem_of_raices, <- !raiz_de_propia.
  rewrite Hraices. split.
  - intros [[H1 H2] | [H1 ->]]; [done |].
    exfalso. apply Hxy'. eauto using raiz_de_unica.
  - intros [H1 H2]. by left.
Qed.

End clases.

Lemma misma_clase_refl uf n r : raiz_de (padre uf) n r → misma_clase uf n n.
Proof. intros H. by exists r. Qed.

Lemma misma_clase_sym uf n m : misma_clase uf n m → misma_clase uf m n.
Proof. intros (r & H1 & H2). by exists r. Qed.

Lemma misma_clase_trans uf n m k :
  misma_clase uf n m → misma_clase uf m k → misma_clase uf n k.
Proof.
  intros (r & H1 & H2) (s & H3 & H4).
  assert (r = s) as -> by eauto using raiz_de_unica. by exists s.
Qed.

Lemma misma_clase_dec uf n m :
  uf_inv uf → (∃ B, rango_acotado uf B) →
  misma_clase uf n m ∨ ¬ misma_clase uf n m.
Proof.
  intros Hinv HB.
  destruct (padre uf !! n) as [pn |] eqn:En.
  2: { right. intros (r & H1 & _). apply raiz_de_registrado in H1 as [? ?]. congruence. }
  destruct (padre uf !! m) as [pm |] eqn:Em.
  2: { right. intros (r & _ & H1). apply raiz_de_registrado in H1 as [? ?]. congruence. }
  destruct (registrado_tiene_raiz uf n Hinv HB) as [rn Hn]; [eauto |].
  destruct (registrado_tiene_raiz uf m Hinv HB) as [rm Hm]; [eauto |].
  destruct (decide (rn = rm)) as [-> | Hne]; [left; by exists rm |].
  right. intros (r & H1 & H2). apply Hne.
  rewrite (raiz_de_unica _ _ _ _ Hn H1). eauto using raiz_de_unica.
Qed.

(** ** Connectivity, forests and the exchange of edges *)

Section grafos.
Implicit Types (E T A M : list arista) (e f : arista) (a b c u v : string).

Lemma suma_pesos_app l1 l2 : suma_pesos (l1 ++ l2) = suma_pesos l1 + suma_pesos l2.
Proof. induction l1 as [| e l1 IH]; simpl; [done |]. unfold suma_pesos in *. simpl. lia. Qed.

Lemma suma_pesos_cons e l : suma_pesos (e :: l) = peso e + suma_pesos l.
Proof. done. Qed.

Lemma suma_pesos_perm l1 l2 : l1 ≡ₚ l2 → suma_pesos l1 = suma_pesos l2.
Proof.
  induction 1; rewrite ?suma_pesos_cons in *; lia.
Qed.

Lemma une_sym e a b : une e a b → une e b a.
Proof. unfold une. tauto. Qed.

Lemma une_extremos e : une e (nodo1 e) (nodo2 e).
Proof. by left. Qed.

Lemma con_arista E e a b : e ∈ E → une e a b → conectados E a b.
Proof. intros He Hab. eapply con_paso; eauto. constructor. Qed.

Lemma con_trans E a b c : conectados E a b → conectados E b c → conectados E a c.
Proof.
  induction 1 as [| a b' c' e He Hab _ IH]; [done |].
  intros Hc. eapply con_paso; eauto.
Qed.

Lemma con_sym E a b : conectados E a b → conectados E b a.
Proof.
  induction 1 as [| a b c e He Hab _ IH]; [constructor |].
  eapply con_trans; [exact IH |]. eapply con_arista; eauto using une_sym.
Qed.

(** If every edge of [E] joins two nodes that [E'] connects, then [E']
    connects whatever [E] connects. *)
Lemma con_incl E E' a b :
  (∀ e, e ∈ E → conectados E' (nodo1 e) (nodo2 e)) →
  conectados E a b → conectados E' a b.
Proof.
  intros Hsub. induction 1 as [| a b c e He Hab _ IH]; [constructor |].
  eapply con_trans; [| exact IH].
  destruct Hab as [[<- <-] | [<- <-]]; [auto | apply con_sym; auto].
Qed.

Lemma con_mono E E' a b :
  (∀ e, e ∈ E → e ∈ E') → conectados E a b → conectados E' a b.
Proof.
  intros Hsub. apply con_incl. intros e He.
  eapply con_arista; [apply Hsub, He | apply une_extremos].
Qed.

Lemma con_perm E E' a b : E ≡ₚ E' → conectados E a b ↔ conectados E' a b.
Proof.
  intros HP. split; apply con_mono; intros e He; [by rewrite <- HP | by rewrite HP].
Qed.

(** What one more edge connects. *)
Lemma con_cons E e a b :
  conectados (e :: E) a b ↔
  conectados E a b ∨
  (conectados E a (nodo1 e) ∧ conectados E (nodo2 e) b) ∨
  (conectados E a (nodo2 e) ∧ conectados E (nodo1 e) b).
Proof.
  split.
  - induction 1 as [a | a b c f Hf Hab _ IH]; [left; constructor |].
    apply elem_of_cons in Hf as [-> | Hf].
    + destruct Hab as [[<- <-] | [<- <-]].
      * destruct IH as [H | [[H1 H2] | [H1 H2]]].
        -- right; left. split; [constructor | done].
        -- left. eauto using con_trans, con_sym.
        -- by left.
      * destruct IH as [H | [[H1 H2] | [H1 H2]]].
        -- right; right. split; [constructor | done].
        -- by left.
        -- left. eauto using con_trans, con_sym.
    + assert (Hab' : conectados E a b) by (eapply con_arista; eauto).
      destruct IH as [H | [[H1 H2] | [H1 H2]]].
      * left. eauto using con_trans.
      * right; left. eauto using con_trans.
      * right; right. eauto using con_trans.
  - assert (Hm : ∀ x y, conectados E x y → conectados (e :: E) x y).
    { intros x y. apply con_mono. intros; by right. }
    assert (He : conectados (e :: E) (nodo1 e) (nodo2 e)).
    { eapply con_arista; [by left | apply une_extremos]. }
    intros [H | [[H1 H2] | [H1 H2]]]; [auto | |].
    + apply con_trans with (nodo1 e); [auto |].
      apply con_trans with (nodo2 e); auto.
    + apply con_trans with (nodo2 e); [auto |].
      apply con_trans with (nodo1 e); [by apply con_sym | auto].
Qed.

Lemma aciclico_swap e f E : aciclico (e :: f :: E) → aciclico (f :: e :: E).
Proof.
  simpl. intros (Hef & Hf & HE). split; [| split; [| done]].
  - intros Hc. apply con_cons in Hc as [H | [[H1 H2] | [H1 H2]]]; [done | |].
    + apply Hef. apply con_cons. right; left. split; by apply con_sym.
    + apply Hef. apply con_cons. right; right. by split.
  - intros Hc. apply Hef. apply con_cons. by left.
Qed.

Lemma aciclico_perm E E' : E ≡ₚ E' → aciclico E → aciclico E'.
Proof.
  induction 1 as [| e E E' HP IH | e f E | E E' E'' _ IH1 _ IH2]; [done | | | auto].
  - simpl. intros [He HE]. split; [| auto]. by rewrite <- (con_perm E E' _ _ HP).
  - apply aciclico_swap.
Qed.

Lemma aciclico_NoDup E : aciclico E → NoDup E.
Proof.
  induction E as [| e E IH]; simpl; [constructor |].
  intros [He HE]. constructor; [| auto].
  intros Hin. apply He. eapply con_arista; [exact Hin | apply une_extremos].
Qed.

Lemma aciclico_quitar e M E : E ≡ₚ e :: M → aciclico E →
  aciclico M ∧ ¬ conectados M (nodo1 e) (nodo2 e).
Proof.
  intros HP HE. apply (aciclico_perm _ _ HP) in HE. simpl in HE. tauto.
Qed.

Ltac con_auto := solve [eauto 6 using con_trans, con_sym].

(** In a forest that connects [u] on one side of a cut to [v] on the other,
    some edge crosses the cut and separates [u] from [v] when removed. *)
Lemma puente_cruce (S : string → Prop) T :
  (∀ n, S n ∨ ¬ S n) → aciclico T →
  ∀ u v, conectados T u v → S u → ¬ S v →
  ∃ f M, T ≡ₚ f :: M ∧ cruza S f ∧ ¬ conectados M u v.
Proof.
  intros HS. induction T as [| f1 T1 IH]; intros HT u v Huv Hu Hv.
  - inversion Huv as [| ? ? ? e He]; subst; [done |]. by apply elem_of_nil in He.
  - simpl in HT. destruct HT as [Hf1 HT1].
    assert (Hm : ∀ M a b, (∃ f, T1 ≡ₚ f :: M) → conectados M a b → conectados T1 a b).
    { intros M a b [f HP]. apply con_mono. intros e He. rewrite HP. by right. }
    assert (Hext : ∀ f M, T1 ≡ₚ f :: M → f1 :: T1 ≡ₚ f :: f1 :: M).
    { intros f M ->. apply Permutation_swap. }
    assert (Hlift : ∀ f M a b, T1 ≡ₚ f :: M → conectados M a b → conectados T1 a b)
      by eauto.
    apply con_cons in Huv as [H | [[H1 H2] | [H1 H2]]].
    + destruct (IH HT1 u v H Hu Hv) as (f & M & HP & Hcr & Hsep).
      exists f, (f1 :: M). split; [auto |]. split; [done |].
      intros Hc. apply con_cons in Hc as [Hc | [[Hc1 Hc2] | [Hc1 Hc2]]]; [done | |];
        apply (Hlift _ _ _ _ HP) in Hc1, Hc2; apply Hf1; con_auto.
    + destruct (HS (nodo1 f1)) as [Sa | Sa]; [destruct (HS (nodo2 f1)) as [Sb | Sb] |].
      * destruct (IH HT1 _ _ H2 Sb Hv) as (f & M & HP & Hcr & Hsep).
        exists f, (f1 :: M). split; [auto |]. split; [done |].
        intros Hc. apply con_cons in Hc as [Hc | [[Hc1 Hc2] | [Hc1 Hc2]]]; [| done |];
          [apply (Hlift _ _ _ _ HP) in Hc | apply (Hlift _ _ _ _ HP) in Hc1, Hc2];
          apply Hf1; con_auto.
      * exists f1, T1. split; [done |]. split; [by left |].
        intros Hc. apply Hf1. con_auto.
      * destruct (IH HT1 _ _ H1 Hu Sa) as (f & M & HP & Hcr & Hsep).
        exists f, (f1 :: M). split; [auto |]. split; [done |].
        intros Hc. apply con_cons in Hc as [Hc | [[Hc1 Hc2] | [Hc1 Hc2]]]; [| done |];
          [apply (Hlift _ _ _ _ HP) in Hc | apply (Hlift _ _ _ _ HP) in Hc1, Hc2];
          apply Hf1; con_auto.
    + destruct (HS (nodo2 f1)) as [Sb | Sb]; [destruct (HS (nodo1 f1)) as [Sa | Sa] |].
      * destruct (IH HT1 _ _ H2 Sa Hv) as (f & M & HP & Hcr & Hsep).
        exists f, (f1 :: M). split; [auto |]. split; [done |].
        intros Hc. apply con_cons in Hc as [Hc | [[Hc1 Hc2] | [Hc1 Hc2]]]; [| | done];
          [apply (Hlift _ _ _ _ HP) in Hc | apply (Hlift _ _ _ _ HP) in Hc1, Hc2];
          apply Hf1; con_auto.
      * exists f1, T1. split; [done |]. split; [by right |].
        intros Hc. apply Hf1. con_auto.
      * destruct (IH HT1 _ _ H1 Hu Sb) as (f & M & HP & Hcr & Hsep).
        exists f, (f1 :: M). split; [auto |]. split; [done |].
        intros Hc. apply con_cons in Hc as [Hc | [[Hc1 Hc2] | [Hc1 Hc2]]]; [| | done];
          [apply (Hlift _ _ _ _ HP) in Hc | apply (Hlift _ _ _ _ HP) in Hc1, Hc2];
          apply Hf1; con_auto.
Qed.

Lemma cruza_une (S : string → Prop) e f :
  une f (nodo1 e) (nodo2 e) → cruza S e → cruza S f.
Proof.
  unfold cruza. intros [[-> ->] | [-> ->]]; tauto.
Qed.

(** The exchange: an edge [e] that crosses a cut can replace an edge of the
    forest that crosses the same cut, and the forest connects what it did. *)
Lemma intercambio (S : string → Prop) T e :
  (∀ n, S n ∨ ¬ S n) → aciclico T →
  conectados T (nodo1 e) (nodo2 e) → cruza S e →
  ∃ f M, T ≡ₚ f :: M ∧ cruza S f ∧ aciclico (e :: M) ∧
         ∀ a b, conectados (e :: M) a b ↔ conectados T a b.
Proof.
  intros HS HT He Hcr.
  assert (∃ u v, une e u v ∧ conectados T u v ∧ S u ∧ ¬ S v)
    as (u & v & Huv & Hcon & Hu & Hv).
  { destruct Hcr as [[H1 H2] | [H1 H2]].
    - exists (nodo1 e), (nodo2 e). split; [by left | done].
    - exists (nodo2 e), (nodo1 e). split; [by right |]. split; [by apply con_sym | done]. }
  destruct (puente_cruce S T HS HT u v Hcon Hu Hv) as (f & M & HP & Hf & Hsep).
  destruct (aciclico_quitar f M T HP HT) as [HM HfM].
  assert (HeM : ¬ conectados M (nodo1 e) (nodo2 e)).
  { intros Hc. apply Hsep. destruct Huv as [[<- <-] | [<- <-]]; [done | by apply con_sym]. }
  exists f, M. split; [done |]. split; [done |]. split; [by split |].
  assert (Hcon' : conectados (f :: M) u v) by (by apply (con_perm _ _ _ _ HP)).
  assert (Hlados : (conectados M u (nodo1 f) ∧ conectados M (nodo2 f) v) ∨
                   (conectados M u (nodo2 f) ∧ conectados M (nodo1 f) v)).
  { apply con_cons in Hcon'. tauto. }
  assert (HeT : conectados (f :: M) (nodo1 e) (nodo2 e)).
  { destruct Huv as [[<- <-] | [<- <-]]; [done | by apply con_sym]. }
  assert (Hfe : conectados (e :: M) (nodo1 f) (nodo2 f)).
  { assert (Huv' : conectados (e :: M) u v).
    { eapply con_arista; [by left | done]. }
    assert (Hm : ∀ x y, conectados M x y → conectados (e :: M) x y).
    { intros x y. apply con_mono. intros; by right. }
    destruct Hlados as [[H1 H2] | [H1 H2]]; apply Hm in H1, H2; con_auto. }
  intros a b. rewrite (con_perm T (f :: M) a b HP). split.
  - apply con_incl. intros x Hx. apply elem_of_cons in Hx as [-> | Hx]; [done |].
    eapply con_arista; [by right | apply une_extremos].
  - apply con_incl. intros x Hx. apply elem_of_cons in Hx as [-> | Hx]; [done |].
    eapply con_arista; [by right | apply une_extremos].
Qed.

Lemma subgrafo_conecta T E e :
  subgrafo T E → e ∈ T → conectados E (nodo1 e) (nodo2 e).
Proof.
  intros Hsub He. destruct (Hsub e He) as (e' & He' & _ & Hu).
  eapply con_arista; eauto.
Qed.

(** The cut property: a lightest edge across a cut that the accepted edges
    do not cross can be accepted. *)
Lemma arista_segura (S : string → Prop) E A e :
  (∀ n, S n ∨ ¬ S n) → prometedor E A →
  (∀ x, x ∈ A → ¬ cruza S x) → cruza S e →
  subgrafo [e] E →
  (∀ e', e' ∈ E → cruza S e' → peso e <= peso e') →
  prometedor E (A ++ [e]).
Proof.
  intros HS Hprom HA Hcr HeE Hmin T0 HT0.
  destruct (Hprom T0 HT0) as (T & (Hsub & Hac & Hab) & HAT & Hw).
  destruct (decide (e ∈ T)) as [HeT | HeT].
  - exists T. split; [done |]. split; [| done].
    intros x Hx. apply elem_of_app in Hx as [Hx | Hx]; [auto |].
    apply list_elem_of_singleton in Hx. by subst.
  - assert (Hcon : conectados T (nodo1 e) (nodo2 e)).
    { apply Hab. eapply (subgrafo_conecta [e]); [done | by left]. }
    destruct (intercambio S T e HS Hac Hcon Hcr) as (f & M & HP & Hf & HacM & Heq).
    assert (HfT : f ∈ T) by (rewrite HP; by left).
    exists (e :: M). split; [split; [| split] |]; [| done | | split].
    + intros x Hx. apply elem_of_cons in Hx as [-> | Hx].
      * apply HeE. by left.
      * apply Hsub. rewrite HP. by right.
    + intros a b Hc. apply Heq. auto.
    + intros x Hx. apply elem_of_app in Hx as [Hx | Hx].
      * assert (Hx' : x ∈ f :: M) by (rewrite <- HP; auto).
        apply elem_of_cons in Hx' as [-> | Hx']; [| by right].
        by apply HA in Hx.
      * apply list_elem_of_singleton in Hx. subst. by left.
    + destruct (Hsub f HfT) as (f' & Hf'E & Hpf & Huf).
      assert (peso e <= peso f').
      { apply Hmin; [done |]. eapply cruza_une; eauto. }
      rewrite (suma_pesos_perm T (f :: M) HP) in Hw.
      rewrite suma_pesos_cons in *. lia.
Qed.

Lemma prometedor_nil E : prometedor E [].
Proof.
  intros T0 HT0. exists T0. split; [done |]. split; [| lia].
  intros x Hx. by apply elem_of_nil in Hx.
Qed.

(** Once the accepted edges connect all that the graph connects, they are
    a spanning tree of least weight. *)
Lemma prometedor_final E A :
  prometedor E A → subgrafo A E → aciclico A → abarca A E → arbol_minimo A E.
Proof.
  intros Hprom Hsub Hac Hab. split; [done |].
  intros T0 HT0. destruct (Hprom T0 HT0) as (T & (HsubT & HacT & HabT) & HAT & Hw).
  assert (HTA : ∀ f, f ∈ T → f ∈ A).
  { intros f Hf. destruct (decide (f ∈ A)) as [| HfA]; [done |]. exfalso.
    apply elem_of_Permutation in Hf as [M HP].
    destruct (aciclico_quitar f M T HP HacT) as [_ HfM]. apply HfM.
    assert (HcA : conectados A (nodo1 f) (nodo2 f)).
    { apply Hab. eapply subgrafo_conecta; [exact HsubT |]. rewrite HP. by left. }
    revert HcA. apply con_mono. intros x Hx.
    assert (Hx' : x ∈ f :: M) by (rewrite <- HP; auto).
    apply elem_of_cons in Hx' as [-> | Hx']; done. }
  assert (HP : A ≡ₚ T).
  { apply NoDup_Permutation; [by apply aciclico_NoDup.. |].
    intros x. split; auto. }
  rewrite (suma_pesos_perm A T HP). done.
Qed.

End grafos.

(** ** Kruskal: the sort and the shape of the result *)

Lemma insertar_por_peso_perm e l : insertar_por_peso e l ≡ₚ e :: l.
Proof.
  induction l as [| x l IH]; simpl; [done |].
  destruct (peso e <=? peso x); [done |].
  rewrite IH. apply Permutation_swap.
Qed.

Lemma sorted_por_peso_perm l : sorted_por_peso l ≡ₚ l.
Proof.
  induction l as [| e l IH]; simpl; [done |].
  rewrite insertar_por_peso_perm. by rewrite IH.
Qed.

Lemma insertar_por_peso_ordenada e l :
  StronglySorted por_peso l → StronglySorted por_peso (insertar_por_peso e l).
Proof.
  induction 1 as [| x l Hl IH Hx]; simpl.
  - repeat constructor.
  - destruct (peso e <=? peso x) eqn:E.
    + apply Z.leb_le in E. constructor; [by constructor |].
      constructor; [done |].
      eapply Forall_impl; [exact Hx |]. unfold por_peso. intros; lia.
    + apply Z.leb_gt in E. constructor; [done |].
      rewrite insertar_por_peso_perm. constructor; [| done].
      unfold por_peso. lia.
Qed.

Lemma sorted_por_peso_ordenada l : StronglySorted por_peso (sorted_por_peso l).
Proof.
  induction l as [| e l IH]; simpl; [constructor |].
  by apply insertar_por_peso_ordenada.
Qed.

(** Stability: the edges of one weight keep the order of the input. *)
Lemma insertar_por_peso_estable e l p :
  filter (λ x, peso x = p) (insertar_por_peso e l) = filter (λ x, peso x = p) (e :: l).
Proof.
  induction l as [| x l IH]; simpl; [done |].
  destruct (peso e <=? peso x) eqn:E; [done |].
  apply Z.leb_gt in E.
  rewrite (filter_cons _ x), IH, !filter_cons.
  repeat case_decide; try done; lia.
Qed.

Lemma sorted_por_peso_estable l p :
  filter (λ x, peso x = p) (sorted_por_peso l) = filter (λ x, peso x = p) l.
Proof.
  induction l as [| e l IH]; simpl; [done |].
  rewrite insertar_por_peso_estable, !filter_cons. by rewrite IH.
Qed.

(** A list in ascending order of weight is determined by its edges of each
    weight, taken in order: the stable sort of a list is unique. *)
Lemma ordenacion_estable_unica l1 l2 :
  StronglySorted por_peso l1 → StronglySorted por_peso l2 →
  (∀ p, filter (λ x, peso x = p) l1 = filter (λ x, peso x = p) l2) → l1 = l2.
Proof.
  intros H1. revert l2.
  induction H1 as [| x l1 Hl1 IH Hx]; intros l2 H2 Hf.
  - destruct l2 as [| y l2]; [done |].
    specialize (Hf (peso y)). rewrite filter_cons in Hf. by case_decide.
  - destruct H2 as [| y l2 Hl2 Hy].
    { specialize (Hf (peso x)). rewrite filter_cons in Hf. by case_decide. }
    assert (Hxy : peso x = peso y).
    { assert (Ha : x ∈ y :: l2).
      { apply (list_elem_of_filter (λ e, peso e = peso x)). rewrite <- Hf.
        rewrite filter_cons. case_decide; [by left | done]. }
      assert (Hb : y ∈ x :: l1).
      { apply (list_elem_of_filter (λ e, peso e = peso y)). rewrite Hf.
        rewrite filter_cons. case_decide; [by left | done]. }
      rewrite Forall_forall in Hx, Hy. unfold por_peso in *.
      apply elem_of_cons in Ha as [-> | Ha]; [done |].
      apply elem_of_cons in Hb as [-> | Hb]; [done |].
      specialize (Hx _ Hb). specialize (Hy _ Ha). lia. }
    assert (x = y) as <-.
    { specialize (Hf (peso x)). rewrite !filter_cons in Hf.
      repeat case_decide; try done. by injection Hf. }
    f_equal. apply IH; [done |]. intros p. specialize (Hf p).
    rewrite !filter_cons in Hf. case_decide; [by injection Hf | done].
Qed.

(** The loop appends to the accepted edges a subsequence of the edges it is
    given, and adds their weights to the total. *)
Lemma kruskal_bucle_forma fuel V l uf mst w mst' w' :
  kruskal_bucle fuel V l uf mst w = Ok (mst', w') →
  ∃ acc, mst' = mst ++ acc ∧ sublist acc l ∧ w' = w + suma_pesos acc.
Proof.
  revert uf mst w.
  induction l as [| [[n1 n2] p] l IH]; intros uf mst w H; simpl in H.
  - injection H as <- <-. exists []. rewrite app_nil_r.
    split; [done |]. split; [constructor | unfold suma_pesos; simpl; lia].
  - inv_bind H. destruct a as [uf1 [|]].
    + case_decide.
      * injection H as <- <-. exists [(n1, n2, p)].
        split; [done |]. split.
        -- apply sublist_skip, sublist_nil_l.
        -- unfold suma_pesos, peso. simpl. lia.
      * apply IH in H as (acc & -> & Hsub & ->).
        exists ((n1, n2, p) :: acc).
        split; [by rewrite <- app_assoc |]. split; [by apply sublist_skip |].
        rewrite suma_pesos_cons. change (peso (n1, n2, p)) with p. lia.
    + apply IH in H as (acc & -> & Hsub & ->).
      exists acc. split; [done |]. split; [by apply sublist_cons | done].
Qed.

(** ** Kruskal: the loop invariant *)

Lemma elem_of_nodos_de E n :
  n ∈ nodos_de E ↔ ∃ e, e ∈ E ∧ (nodo1 e = n ∨ nodo2 e = n).
Proof.
  unfold nodos_de.
  assert (H : ∀ acc : gset string,
    n ∈ foldl (λ nodos e, nodos ∪ {[nodo1 e]} ∪ {[nodo2 e]}) acc E ↔
    n ∈ acc ∨ ∃ e, e ∈ E ∧ (nodo1 e = n ∨ nodo2 e = n)).
  { induction E as [| x E IH]; intros acc; simpl.
    - split; [auto |]. intros [? | (e & He & _)]; [done | by apply elem_of_nil in He].
    - rewrite IH. rewrite !elem_of_union, !elem_of_singleton. split.
      + intros [[[?|?]|?] | (e & He & Hn)]; eauto.
        * right. exists x. split; [by left | auto].
        * right. exists x. split; [by left | auto].
        * right. exists e. split; [by right | auto].
      + intros [? | (e & He & Hn)]; [auto |].
        apply elem_of_cons in He as [-> | He]; [| eauto].
        left. destruct Hn as [<- | <-]; auto. }
  rewrite H. split; [| auto]. intros [Hc | ?]; [| done]. by apply elem_of_empty in Hc.
Qed.

Lemma nodos_de_extremos E e : e ∈ E → nodo1 e ∈ nodos_de E ∧ nodo2 e ∈ nodos_de E.
Proof. intros He. split; apply elem_of_nodos_de; eauto. Qed.

Lemma conectados_nil a b : conectados [] a b ↔ a = b.
Proof.
  split; [| intros ->; constructor].
  inversion 1 as [| ? ? ? e He]; [done | by apply elem_of_nil in He].
Qed.

Lemma kruskal_inv_inicial E :
  kruskal_inv E [] (uf_init (elements (nodos_de E))) [].
Proof.
  assert (Hp : ∀ n, padre (uf_init (elements (nodos_de E))) !! n
                    = if decide (n ∈ nodos_de E) then Some n else None).
  { intros n. rewrite uf_init_padre.
    destruct (decide (n ∈ elements (nodos_de E))) as [Hin | Hin];
      rewrite elem_of_elements in Hin; [by rewrite decide_True | by rewrite decide_False]. }
  constructor.
  - apply uf_init_inv.
  - apply uf_init_acotado.
  - intros n. rewrite Hp. case_decide; split; intros H'; eauto; try done;
      by destruct H' as [? ?].
  - intros a b Ha Hb. rewrite conectados_nil. split.
    + intros (r & H1 & H2).
      apply raiz_de_raiz in H1; [| by rewrite Hp, decide_True].
      apply raiz_de_raiz in H2; [| by rewrite Hp, decide_True]. congruence.
    + intros ->. exists b. split; constructor; by rewrite Hp, decide_True.
  - done.
  - done.
  - done.
  - apply prometedor_nil.
  - simpl. rewrite Nat.add_0_r. f_equal. apply set_eq. intros n.
    rewrite elem_of_raices, Hp. case_decide; split; done.
Qed.

Lemma con_snoc E e a b : conectados (E ++ [e]) a b ↔ conectados (e :: E) a b.
Proof. apply con_perm. by rewrite Permutation_app_comm. Qed.

(** One turn of the loop keeps the invariant. *)
Lemma kruskal_paso E hecho l uf mst fuel e uf' unido :
  kruskal_inv E hecho uf mst →
  (∀ x, x ∈ hecho ++ e :: l ↔ x ∈ E) →
  StronglySorted por_peso (e :: l) →
  unir fuel uf (nodo1 e) (nodo2 e) = Ok (uf', unido) →
  kruskal_inv E (hecho ++ [e]) uf' (if unido then mst ++ [e] else mst).
Proof.
  intros HK HE Hord Hunir.
  destruct HK as [Hinv Hcota Hreg Hcl Hhecho Hac Hsub Hprom Hcuenta].
  assert (HeE : e ∈ E) by (apply HE, elem_of_app; right; by left).
  destruct (nodos_de_extremos E e HeE) as [Hn1 Hn2].
  destruct (unir_Ok _ _ _ _ _ _ Hinv Hunir) as (ra & rb & Hra & Hrb & Hinv' & _ & _ & Hcota').
  assert (HhechoE : ∀ x, x ∈ hecho → x ∈ E).
  { intros x Hx. apply HE, elem_of_app. by left. }
  assert (Hreg' : ∀ n, is_Some (padre uf' !! n) ↔ n ∈ nodos_de E).
  { intros n. by rewrite (unir_dom _ _ _ _ _ _ Hunir n). }
  assert (Hlen : length (hecho ++ [e]) = S (length hecho)).
  { rewrite length_app. simpl. lia. }
  destruct unido.
  - destruct (unir_une_clases fuel uf uf' _ _ true Hinv Hunir eq_refl) as [Hno Hcl'].
    destruct (unir_une_raices fuel uf uf' _ _ true Hinv Hunir eq_refl) as (x & Hx & Hraices).
    assert (Hno' : ¬ conectados mst (nodo1 e) (nodo2 e)) by (by rewrite <- Hcl).
    constructor; try done.
    + rewrite Hlen. auto.
    + intros a b Ha Hb. rewrite Hcl', con_snoc, con_cons.
      rewrite !Hcl by done. done.
    + intros a b. rewrite !con_snoc, !con_cons, !Hhecho. done.
    + apply (aciclico_perm (e :: mst)); [by rewrite Permutation_app_comm | done].
    + intros y Hy. apply elem_of_app in Hy as [Hy | Hy]; apply elem_of_app; auto.
    + apply (arista_segura (λ n, misma_clase uf n (nodo1 e))); try done.
      * intros n. apply misma_clase_dec; eauto.
      * intros y Hy [[H1 H2] | [H1 H2]].
        -- apply H2. apply misma_clase_trans with (nodo1 y); [| done].
           apply misma_clase_sym.
           destruct (nodos_de_extremos E y) as [? ?]; [auto |].
           apply Hcl; [done.. |]. eapply con_arista; [exact Hy | apply une_extremos].
        -- apply H1. apply misma_clase_trans with (nodo2 y); [| done].
           destruct (nodos_de_extremos E y) as [? ?]; [auto |].
           apply Hcl; [done.. |]. eapply con_arista; [exact Hy | apply une_extremos].
      * left. split; [by eapply misma_clase_refl |].
        intros Hc. by apply Hno, misma_clase_sym.
      * intros y Hy. apply list_elem_of_singleton in Hy as ->.
        exists e. split; [done |]. split; [done | apply une_extremos].
      * intros e' He' Hcr.
        apply HE, elem_of_app in He' as [He' | He'].
        -- exfalso.
           destruct (nodos_de_extremos E e') as [? ?]; [auto |].
           assert (Hm : misma_clase uf (nodo1 e') (nodo2 e')).
           { apply Hcl; [done.. |]. apply Hhecho.
             eapply con_arista; [exact He' | apply une_extremos]. }
           destruct Hcr as [[H1 H2] | [H1 H2]].
           ++ apply H2. eauto using misma_clase_trans, misma_clase_sym.
           ++ apply H1. eauto using misma_clase_trans, misma_clase_sym.
        -- apply elem_of_cons in He' as [-> | He']; [lia |].
           apply StronglySorted_inv in Hord as [_ Hall].
           rewrite Forall_forall in Hall. by apply Hall.
    + rewrite Hraices, length_app. simpl.
      assert (size (raices uf ∖ {[x]}) = size (raices uf) - 1)%nat.
      { rewrite size_difference by (by apply singleton_subseteq_l). by rewrite size_singleton. }
      assert (size (raices uf) ≠ 0)%nat.
      { intros H0. apply size_empty_inv in H0.
        apply (not_elem_of_empty (C:=gset string) x). by rewrite <- H0. }
      lia.
  - destruct (unir_no_une fuel uf uf' _ _ false Hinv Hunir eq_refl) as (Hm & Hrg & Hraices).
    assert (Hcl' : ∀ a b, misma_clase uf' a b ↔ misma_clase uf a b).
    { intros a b. unfold misma_clase. by setoid_rewrite Hraices. }
    constructor; try done.
    + rewrite Hlen. auto.
    + intros a b Ha Hb. rewrite Hcl'. auto.
    + intros a b. split.
      * apply con_incl. intros y Hy. apply elem_of_app in Hy as [Hy | Hy].
        -- apply Hhecho. eapply con_arista; [exact Hy | apply une_extremos].
        -- apply list_elem_of_singleton in Hy as ->. by apply Hcl.
      * intros Hc. apply Hhecho in Hc. revert Hc. apply con_mono.
        intros y Hy. apply elem_of_app. by left.
    + intros y Hy. apply elem_of_app. auto.
    + by rewrite (unir_no_une_raices fuel uf uf' _ _ false Hinv Hunir eq_refl).
Qed.

Lemma kruskal_una_raiz E hecho uf mst :
  kruskal_inv E hecho uf mst → size (raices uf) = 1%nat → abarca mst E.
Proof.
  intros HK H1 a b. apply con_incl. intros x Hx.
  destruct (nodos_de_extremos E x Hx) as [Hn1 Hn2].
  destruct HK as [Hinv Hcota Hreg Hcl Hhecho Hac Hsub Hprom Hcuenta].
  destruct (registrado_tiene_raiz uf (nodo1 x)) as [r1 Hr1];
    [done | by eexists | by apply Hreg |].
  destruct (registrado_tiene_raiz uf (nodo2 x)) as [r2 Hr2];
    [done | by eexists | by apply Hreg |].
  apply Hcl; [done.. |].
  assert (r1 = r2) as ->.
  { apply (size_singleton_inv (raices uf)); [done | |];
      apply elem_of_raices; eauto using raiz_de_es_raiz. }
  by exists r2.
Qed.

Lemma kruskal_bucle_correcto E fuel l :
  ∀ hecho uf mst w,
  (∀ x, x ∈ hecho ++ l ↔ x ∈ E) → StronglySorted por_peso l →
  (length hecho + length l < fuel)%nat →
  kruskal_inv E hecho uf mst →
  ∃ mst' w' hecho' uf',
    kruskal_bucle fuel (size (nodos_de E)) l uf mst w = Ok (mst', w') ∧
    kruskal_inv E hecho' uf' mst' ∧ (∀ x, x ∈ hecho' → x ∈ E) ∧ abarca mst' E.
Proof.
  induction l as [| e l IH]; intros hecho uf mst w HE Hord Hfuel HK.
  - exists mst, w, hecho, uf. split; [done |]. split; [done |].
    rewrite app_nil_r in HE. split; [intros x; apply HE |].
    intros a b Hc. apply (ki_hecho _ _ _ _ HK). revert Hc.
    apply con_mono. intros x. apply HE.
  - assert (HeE : e ∈ E) by (apply HE, elem_of_app; right; by left).
    destruct (nodos_de_extremos E e HeE) as [Hn1 Hn2].
    destruct (unir_termina fuel uf (nodo1 e) (nodo2 e) (length hecho))
      as (uf1 & unido & Hunir);
      [apply (ki_inv _ _ _ _ HK) | apply (ki_cota _ _ _ _ HK)
      | by apply (ki_reg _ _ _ _ HK) | by apply (ki_reg _ _ _ _ HK)
      | simpl in Hfuel; lia |].
    pose proof (kruskal_paso E hecho l uf mst fuel e uf1 unido HK HE Hord Hunir) as HK1.
    assert (HE1 : ∀ x, x ∈ (hecho ++ [e]) ++ l ↔ x ∈ E).
    { intros x. rewrite <- app_assoc. apply HE. }
    assert (Hfuel1 : (length (hecho ++ [e]) + length l < fuel)%nat).
    { rewrite length_app. simpl in *. lia. }
    assert (Hord1 : StronglySorted por_peso l) by (by apply StronglySorted_inv in Hord as [? ?]).
    destruct e as [[n1 n2] p]. simpl. unfold nodo1, nodo2 in Hunir. simpl in Hunir.
    rewrite Hunir. simpl. destruct unido.
    + case_decide as Hcorte.
      * exists (mst ++ [(n1, n2, p)]), (w + p), (hecho ++ [(n1, n2, p)]), uf1.
        split; [done |]. split; [done |]. split.
        -- intros x Hx. apply HE. apply elem_of_app in Hx as [Hx | Hx]; apply elem_of_app;
             [by left | right]. apply list_elem_of_singleton in Hx as ->. by left.
        -- apply (kruskal_una_raiz _ _ _ _ HK1).
           pose proof (ki_cuenta _ _ _ _ HK1) as Hc. cbv iota in Hc.
           rewrite length_app in Hcorte, Hc. simpl in Hcorte, Hc. lia.
      * apply (IH _ _ _ _ HE1 Hord1 Hfuel1 HK1).
    + apply (IH _ _ _ _ HE1 Hord1 Hfuel1 HK1).
Qed.

Lemma arbol_minimo_vacio : arbol_minimo [] [].
Proof.
  split; [split; [| split] |].
  - intros e He. by apply elem_of_nil in He.
  - done.
  - by intros a b.
  - intros T0 (Hsub & _ & _). destruct T0 as [| e T0]; [done |].
    destruct (Hsub e) as (e' & He' & _); [by left |]. by apply elem_of_nil in He'.
Qed.

(** The state in which Kruskal's loop ends. *)
Lemma kruskal_estado_final aristas :
  aristas ≠ [] →
  ∃ mst w hecho uf,
    kruskal aristas = Ok (mst, w) ∧
    kruskal_inv aristas hecho uf mst ∧ (∀ x, x ∈ hecho → x ∈ aristas) ∧
    abarca mst aristas.
Proof.
  intros Hne.
  destruct (kruskal_bucle_correcto aristas (S (length aristas)) (sorted_por_peso aristas)
              [] (uf_init (elements (nodos_de aristas))) [] 0)
    as (mst & w & hecho & uf & Hrun & HK & Hsub & Hab).
  - intros x. simpl. by rewrite sorted_por_peso_perm.
  - apply sorted_por_peso_ordenada.
  - simpl. rewrite (Permutation_length (sorted_por_peso_perm aristas)). lia.
  - apply kruskal_inv_inicial.
  - exists mst, w, hecho, uf. split; [| done].
    unfold kruskal, kruskal_con. destruct aristas; [done | exact Hrun].
Qed.

(** Kruskal returns, and what it returns is a spanning tree of least weight
    together with its weight. *)
Lemma kruskal_total aristas :
  ∃ mst w, kruskal aristas = Ok (mst, w) ∧
           arbol_minimo mst aristas ∧ w = suma_pesos mst.
Proof.
  destruct aristas as [| e0 aristas0] eqn:Ear.
  { exists [], 0. split; [done |]. split; [apply arbol_minimo_vacio | done]. }
  rewrite <- Ear.
  destruct (kruskal_estado_final aristas) as (mst & w & hecho & uf & Hrun & HK & Hsub & Hab);
    [by rewrite Ear |].
  exists mst, w. split; [done |]. split.
  - apply prometedor_final;
      [apply (ki_prom _ _ _ _ HK) | | apply (ki_aciclico _ _ _ _ HK) | done].
    intros x Hx. exists x. split; [apply Hsub, (ki_sub _ _ _ _ HK), Hx |].
    split; [done | apply une_extremos].
  - unfold kruskal, kruskal_con in Hrun. rewrite Ear in Hrun. rewrite <- Ear in Hrun.
    apply kruskal_bucle_forma in Hrun as (acc & -> & _ & ->). simpl. lia.
Qed.

(** The number of accepted edges against the number of nodes. *)
Lemma kruskal_cuenta aristas :
  aristas ≠ [] →
  ∃ mst w, kruskal aristas = Ok (mst, w) ∧
    (conexo aristas → (length mst + 1 = size (nodos_de aristas))%nat) ∧
    (¬ conexo aristas → (length mst + 1 < size (nodos_de aristas))%nat).
Proof.
  intros Hne.
  destruct (kruskal_estado_final aristas Hne) as (mst & w & hecho & uf & Hrun & HK & Hsub & Hab).
  exists mst, w. split; [done |].
  destruct HK as [Hinv Hcota Hreg Hcl Hhecho Hac Hsubm Hprom Hcuenta].
  assert (Hraiz : ∀ n, n ∈ nodos_de aristas → ∃ r, raiz_de (padre uf) n r).
  { intros n Hn. apply registrado_tiene_raiz; [done | by eexists | by apply Hreg]. }
  assert (Hpos : size (raices uf) ≠ 0%nat).
  { destruct aristas as [| e0 rest]; [done |].
    destruct (nodos_de_extremos (e0 :: rest) e0) as [Hn _]; [by left |].
    destruct (Hraiz _ Hn) as [r Hr]. intros H0. apply size_empty_inv in H0.
    apply (not_elem_of_empty (C:=gset string) r). rewrite <- H0.
    apply elem_of_raices. eauto using raiz_de_es_raiz. }
  split.
  - intros Hcon.
    assert (size (raices uf) ≤ 1)%nat; [| lia].
    destruct (decide (size (raices uf) ≤ 1)%nat) as [| H2]; [done | exfalso].
    apply Nat.nle_gt in H2.
    apply size_non_empty_iff in Hpos. apply set_choose in Hpos as [r Hr].
    assert (Hotro : ∃ s, s ∈ raices uf ∧ s ≠ r).
    { destruct (set_choose (raices uf ∖ {[r]})) as [s Hs].
      - apply size_non_empty_iff.
        rewrite size_difference by (by apply singleton_subseteq_l).
        rewrite size_singleton. lia.
      - apply elem_of_difference in Hs as [Hs1 Hs2].
        rewrite elem_of_singleton in Hs2. eauto. }
    destruct Hotro as (s & Hs & Hsr).
    apply elem_of_raices in Hr, Hs.
    assert (Hrn : r ∈ nodos_de aristas) by (apply Hreg; eauto).
    assert (Hsn : s ∈ nodos_de aristas) by (apply Hreg; eauto).
    assert (Hm : misma_clase uf s r) by (apply Hcl; [done.. |]; apply Hab; auto).
    destruct Hm as (t & Ht1 & Ht2).
    apply raiz_de_raiz in Ht1, Ht2; [| done..]. congruence.
  - intros Hncon.
    destruct (decide (size (raices uf) = 1%nat)) as [H1 | H1]; [| lia].
    exfalso. apply Hncon. intros a b Ha Hb.
    destruct (Hraiz a Ha) as [ra Hra]. destruct (Hraiz b Hb) as [rb Hrb].
    assert (ra = rb) as ->.
    { apply (size_singleton_inv (raices uf)); [done | |];
        apply elem_of_raices; eauto using raiz_de_es_raiz. }
    assert (Hc : conectados mst a b) by (apply Hcl; [done.. |]; by exists rb).
    revert Hc. apply con_mono. auto.
Qed.

(** *** C7 *)

(** The pass decides every edge in one way only. *)
Lemma seleccion_voraz_unica visto l s1 s2 :
  seleccion_voraz visto l s1 → seleccion_voraz visto l s2 → s1 = s2.
Proof.
  intros H1. revert s2.
  induction H1 as [visto | visto e l s Hno _ IH | visto e l s Hsi _ IH];
    intros s2 H2; inversion H2; subst; try done.
  - f_equal. auto.
  - auto.
Qed.

(** Once the edges examined connect the endpoints of all the edges left,
    none of those is accepted. *)
Lemma seleccion_voraz_ninguna visto l :
  (∀ x, x ∈ l → conectados visto (nodo1 x) (nodo2 x)) → seleccion_voraz visto l [].
Proof.
  revert visto. induction l as [| e l IH]; intros visto H; [constructor |].
  apply sv_rechaza; [apply H; by left |]. apply IH. intros x Hx.
  eapply con_mono; [| apply H; by right]. intros y Hy. apply elem_of_app. by left.
Qed.

(** The loop accepts an edge exactly when the edges before it in the list
    it iterates over do not connect its endpoints; leaving the loop at V-1
    accepted edges drops only edges that would be rejected. *)
Lemma kruskal_bucle_voraz E fuel l :
  ∀ hecho uf mst w mst' w',
  (∀ x, x ∈ hecho ++ l ↔ x ∈ E) → StronglySorted por_peso l →
  kruskal_inv E hecho uf mst →
  kruskal_bucle fuel (size (nodos_de E)) l uf mst w = Ok (mst', w') →
  ∃ s, mst' = mst ++ s ∧ seleccion_voraz hecho l s.
Proof.
  induction l as [| e l IH]; intros hecho uf mst w mst' w' HE Hord HK Hrun.
  { simpl in Hrun. injection Hrun as <- <-. exists []. rewrite app_nil_r.
    split; [done | constructor]. }
  assert (HeE : e ∈ E) by (apply HE, elem_of_app; right; by left).
  destruct (nodos_de_extremos E e HeE) as [Hn1 Hn2].
  assert (HE1 : ∀ x, x ∈ (hecho ++ [e]) ++ l ↔ x ∈ E).
  { intros x. rewrite <- app_assoc. apply HE. }
  assert (Hord1 : StronglySorted por_peso l) by (by apply StronglySorted_inv in Hord as [? ?]).
  assert (Hcon : conectados hecho (nodo1 e) (nodo2 e) ↔ misma_clase uf (nodo1 e) (nodo2 e)).
  { rewrite (ki_hecho _ _ _ _ HK). symmetry. by apply (ki_clases _ _ _ _ HK). }
  pose proof (ki_inv _ _ _ _ HK) as Hinv.
  destruct (unir fuel uf (nodo1 e) (nodo2 e)) as [[uf1 unido] | | | |] eqn:Hunir;
    destruct e as [[n1 n2] p]; unfold nodo1, nodo2 in Hunir; simpl in Hunir, Hrun;
    rewrite Hunir in Hrun; simpl in Hrun; try done.
  pose proof (kruskal_paso E hecho l uf mst fuel (n1, n2, p) uf1 unido HK HE Hord Hunir)
    as HK1.
  destruct unido.
  - destruct (unir_une_clases fuel uf uf1 _ _ true Hinv Hunir eq_refl) as [Hno _].
    assert (Hno' : ¬ conectados hecho (nodo1 (n1, n2, p)) (nodo2 (n1, n2, p))).
    { by rewrite Hcon. }
    case_decide as Hcorte.
    + injection Hrun as <- <-. exists [(n1, n2, p)]. split; [done |].
      apply sv_acepta; [done |]. apply seleccion_voraz_ninguna. intros x Hx.
      apply (ki_hecho _ _ _ _ HK1).
      apply (kruskal_una_raiz _ _ _ _ HK1).
      * pose proof (ki_cuenta _ _ _ _ HK1) as Hc. cbv iota in Hc.
        rewrite length_app in Hcorte, Hc. simpl in Hcorte, Hc. lia.
      * eapply con_arista; [| apply une_extremos].
        apply HE1, elem_of_app. by right.
    + destruct (IH _ _ _ _ _ _ HE1 Hord1 HK1 Hrun) as (s & -> & Hs).
      exists ((n1, n2, p) :: s). split; [by rewrite <- app_assoc |].
      by apply sv_acepta.
  - destruct (unir_no_une fuel uf uf1 _ _ false Hinv Hunir eq_refl) as (Hm & _ & _).
    destruct (IH _ _ _ _ _ _ HE1 Hord1 HK1 Hrun) as (s & -> & Hs).
    exists s. split; [done |]. apply sv_rechaza; [| done]. by apply Hcon.
Qed.

(** C7: Kruskal returns for every edge list. The list it iterates over,
    [sorted_por_peso aristas], holds the input edges in ascending order of
    weight, the edges of one weight in their input order, and it is the only
    list that does. The loop goes through that list from its first edge to
    its last: the result holds exactly the edges whose endpoints the edges
    before them in that list do not connect, in the order of that list, and
    no other list of edges is such a selection; so the result is a function
    of the input edge list. The weight returned is the sum of the weights
    of the accepted edges. *)
Theorem kruskal_orden_estable (aristas : list arista) :
  ∃ mst w,
    kruskal aristas = Ok (mst, w) ∧
    sorted_por_peso aristas ≡ₚ aristas ∧
    StronglySorted por_peso (sorted_por_peso aristas) ∧
    (∀ p, filter (λ x, peso x = p) (sorted_por_peso aristas)
          = filter (λ x, peso x = p) aristas) ∧
    (∀ l, StronglySorted por_peso l →
          (∀ p, filter (λ x, peso x = p) l = filter (λ x, peso x = p) aristas) →
          l = sorted_por_peso aristas) ∧
    seleccion_voraz [] (sorted_por_peso aristas) mst ∧
    (∀ s, seleccion_voraz [] (sorted_por_peso aristas) s → s = mst) ∧
    sublist mst (sorted_por_peso aristas) ∧
    w = suma_pesos mst.
Proof.
  destruct (kruskal_total aristas) as (mst & w & Hrun & _ & Hw).
  exists mst, w. split; [done |].
  split; [apply sorted_por_peso_perm |].
  split; [apply sorted_por_peso_ordenada |].
  split; [intros p; apply sorted_por_peso_estable |].
  split.
  { intros l Hl Hf. apply ordenacion_estable_unica; [done | |].
    - apply sorted_por_peso_ordenada.
    - intros p. by rewrite Hf, sorted_por_peso_estable. }
  assert (Hsel : seleccion_voraz [] (sorted_por_peso aristas) mst).
  { unfold kruskal, kruskal_con in Hrun. destruct aristas as [| e0 rest] eqn:Ear.
    - injection Hrun as <- _. constructor.
    - rewrite <- Ear in *.
      destruct (kruskal_bucle_voraz aristas (S (length aristas)) (sorted_por_peso aristas)
                  [] (uf_init (elements (nodos_de aristas))) [] 0 mst w) as (s & -> & Hs);
        [| apply sorted_por_peso_ordenada | apply kruskal_inv_inicial | exact Hrun | done].
      intros x. simpl. by rewrite sorted_por_peso_perm. }
  split; [done |].
  split; [intros s Hs; by apply (seleccion_voraz_unica _ _ _ _ Hs) |].
  split; [| done].
  unfold kruskal, kruskal_con in Hrun. destruct aristas as [| e0 rest].
  - injection Hrun as <- _. constructor.
  - apply kruskal_bucle_forma in Hrun as (acc & -> & Hsub & _). done.
Qed.

(** ** The adjacency dictionary *)

Section grafo.
Implicit Types (g : grafo_t) (n m v : string) (x : string * Z) (E : list arista).

Lemma grafo_buscar_app g1 g2 n :
  grafo_buscar (g1 ++ g2) n =
  match grafo_buscar g1 n with Some a => Some a | None => grafo_buscar g2 n end.
Proof.
  induction g1 as [| [k a] g1 IH]; simpl; [done |]. by destruct (decide (k = n)).
Qed.

Lemma grafo_buscar_registrar g n m :
  grafo_buscar (grafo_registrar g n) m =
  match grafo_buscar g m with
  | Some a => Some a
  | None => if decide (n = m) then Some [] else None
  end.
Proof.
  unfold grafo_registrar. destruct (grafo_buscar g n) as [a |] eqn:En.
  - destruct (grafo_buscar g m) eqn:Em; [done |].
    case_decide; [congruence | done].
  - rewrite grafo_buscar_app. simpl. destruct (grafo_buscar g m); [done |].
    by destruct (decide (n = m)).
Qed.

Lemma grafo_buscar_anexar g n x m :
  grafo_buscar (grafo_anexar g n x) m =
  if decide (n = m) then (λ a, a ++ [x]) <$> grafo_buscar g m else grafo_buscar g m.
Proof.
  induction g as [| [k a] g IH]; simpl; [by case_decide |].
  destruct (decide (k = n)) as [-> | Hkn]; simpl.
  - destruct (decide (n = m)); [done | done].
  - destruct (decide (k = m)) as [-> | Hkm].
    + by rewrite decide_False by congruence.
    + done.
Qed.

Lemma construir_grafo_snoc E e :
  construir_grafo (E ++ [e]) = grafo_paso (construir_grafo E) e.
Proof. unfold construir_grafo. by rewrite foldl_app. Qed.

Lemma grafo_paso_claves g e m :
  is_Some (grafo_buscar (grafo_paso g e) m) ↔
  is_Some (grafo_buscar g m) ∨ nodo1 e = m ∨ nodo2 e = m.
Proof.
  unfold grafo_paso. rewrite !grafo_buscar_anexar, !grafo_buscar_registrar.
  destruct (grafo_buscar g m) as [a |]; repeat case_decide; simpl;
    rewrite ?is_Some_alt; naive_solver.
Qed.

Lemma grafo_paso_ady g e m x :
  x ∈ ady_de (grafo_paso g e) m ↔
  x ∈ ady_de g m ∨ (nodo1 e = m ∧ x = (nodo2 e, peso e))
  ∨ (nodo2 e = m ∧ x = (nodo1 e, peso e)).
Proof.
  unfold ady_de, grafo_paso. rewrite !grafo_buscar_anexar, !grafo_buscar_registrar.
  destruct (grafo_buscar g m) as [a |]; repeat case_decide; simpl;
    rewrite ?elem_of_app, ?elem_of_cons, ?elem_of_nil; naive_solver.
Qed.

Lemma construir_grafo_claves E n :
  is_Some (grafo_buscar (construir_grafo E) n) ↔ n ∈ nodos_de E.
Proof.
  induction E as [| e E IH] using rev_ind.
  - simpl. split; [by intros [? ?] |]. intros H. by apply elem_of_empty in H.
  - rewrite construir_grafo_snoc, grafo_paso_claves, IH, !elem_of_nodos_de.
    split.
    + intros [(e' & He' & Hn) | Hn].
      * exists e'. split; [apply elem_of_app; by left | done].
      * exists e. split; [apply elem_of_app; right; by left | done].
    + intros (e' & He' & Hn). apply elem_of_app in He' as [He' | He']; [eauto |].
      apply list_elem_of_singleton in He' as ->. by right.
Qed.

Lemma construir_grafo_ady E n v p :
  (v, p) ∈ ady_de (construir_grafo E) n ↔ ∃ e, e ∈ E ∧ peso e = p ∧ une e n v.
Proof.
  induction E as [| e E IH] using rev_ind.
  - simpl. split; [intros H; by apply elem_of_nil in H |].
    intros (e & He & _). by apply elem_of_nil in He.
  - rewrite construir_grafo_snoc, grafo_paso_ady, IH. split.
    + intros [(e' & He' & Hp) | [[Hn Hx] | [Hn Hx]]].
      * exists e'. split; [apply elem_of_app; by left | done].
      * injection Hx as -> ->. subst n.
        exists e. split; [apply elem_of_app; right; by left |]. split; [done | by left].
      * injection Hx as -> ->. subst n.
        exists e. split; [apply elem_of_app; right; by left |]. split; [done | by right].
    + intros (e' & He' & <- & Hu). apply elem_of_app in He' as [He' | He']; [eauto |].
      apply list_elem_of_singleton in He' as ->. right.
      destruct Hu as [[<- <-] | [<- <-]]; auto.
Qed.

Lemma grafo_buscar_None g n : grafo_buscar g n = None ↔ n ∉ g.*1.
Proof.
  induction g as [| [k a] g IH]; simpl.
  - split; [intros _; apply not_elem_of_nil | done].
  - rewrite not_elem_of_cons. destruct (decide (k = n)) as [-> | Hne].
    + split; [done | intros [? _]; done].
    + rewrite IH. split; [intros; split; [congruence | done] | tauto].
Qed.

Lemma grafo_registrar_claves g n :
  (grafo_registrar g n).*1 = if decide (n ∈ g.*1) then g.*1 else g.*1 ++ [n].
Proof.
  unfold grafo_registrar. destruct (grafo_buscar g n) eqn:En.
  - rewrite decide_True; [done |].
    destruct (decide (n ∈ g.*1)) as [| Hn]; [done |].
    apply grafo_buscar_None in Hn. congruence.
  - apply grafo_buscar_None in En. rewrite decide_False by done.
    by rewrite fmap_app.
Qed.

Lemma grafo_anexar_claves g n x : (grafo_anexar g n x).*1 = g.*1.
Proof.
  induction g as [| [k a] g IH]; simpl; [done |].
  destruct (decide (k = n)); simpl; [done | f_equal; exact IH].
Qed.

Lemma grafo_registrar_NoDup g n : NoDup g.*1 → NoDup (grafo_registrar g n).*1.
Proof.
  intros Hg. rewrite grafo_registrar_claves. case_decide; [done |].
  apply NoDup_app. split; [done |]. split; [| apply NoDup_singleton].
  intros y Hy Hy'. apply list_elem_of_singleton in Hy'. by subst.
Qed.

Lemma construir_grafo_NoDup E : NoDup (construir_grafo E).*1.
Proof.
  induction E as [| e E IH] using rev_ind; [constructor |].
  rewrite construir_grafo_snoc. unfold grafo_paso.
  rewrite !grafo_anexar_claves. by do 2 apply grafo_registrar_NoDup.
Qed.

Lemma elem_of_claves g n : n ∈ g.*1 ↔ is_Some (grafo_buscar g n).
Proof.
  destruct (grafo_buscar g n) eqn:En.
  - split; [eauto |]. intros _.
    destruct (decide (n ∈ g.*1)) as [| Hn]; [done |].
    apply grafo_buscar_None in Hn. congruence.
  - apply grafo_buscar_None in En. split; [done | by intros [? ?]].
Qed.

Lemma construir_grafo_length E :
  length (construir_grafo E) = size (nodos_de E).
Proof.
  rewrite <- (length_fmap fst).
  rewrite <- (size_list_to_set (C:=gset string)) by apply construir_grafo_NoDup.
  f_equal. apply set_eq. intros n.
  by rewrite elem_of_list_to_set, elem_of_claves, construir_grafo_claves.
Qed.
Lemma sum_list_app' (l1 l2 : list nat) :
  sum_list (l1 ++ l2) = (sum_list l1 + sum_list l2)%nat.
Proof. induction l1 as [| a l1 IH]; simpl; [done | lia]. Qed.


Lemma grado_total_app g1 g2 : grado_total (g1 ++ g2) = (grado_total g1 + grado_total g2)%nat.
Proof. unfold grado_total. by rewrite fmap_app, sum_list_app'. Qed.

Lemma grado_total_registrar g n : grado_total (grafo_registrar g n) = grado_total g.
Proof.
  unfold grafo_registrar. destruct (grafo_buscar g n); [done |].
  rewrite grado_total_app. unfold grado_total at 2. simpl. lia.
Qed.

Lemma grado_total_cons k (a : list (string * Z)) g :
  grado_total ((k, a) :: g) = (length a + grado_total g)%nat.
Proof. done. Qed.

Lemma grado_total_anexar g n x :
  is_Some (grafo_buscar g n) → grado_total (grafo_anexar g n x) = S (grado_total g).
Proof.
  induction g as [| [k a] g IH]; simpl; [by intros [? ?] |].
  destruct (decide (k = n)) as [-> | Hne]; rewrite !grado_total_cons.
  - intros _. rewrite length_app. simpl. lia.
  - intros Hn. rewrite IH by done. lia.
Qed.

Lemma grafo_registrar_esta g n : is_Some (grafo_buscar (grafo_registrar g n) n).
Proof.
  rewrite grafo_buscar_registrar. destruct (grafo_buscar g n); [eauto |].
  rewrite decide_True by done. eauto.
Qed.

Lemma grafo_registrar_sigue g n m :
  is_Some (grafo_buscar g m) → is_Some (grafo_buscar (grafo_registrar g n) m).
Proof. rewrite grafo_buscar_registrar. by intros [a ->]. Qed.

Lemma grafo_anexar_sigue g n x m :
  is_Some (grafo_buscar g m) → is_Some (grafo_buscar (grafo_anexar g n x) m).
Proof. rewrite grafo_buscar_anexar. intros [a ->]. case_decide; simpl; eauto. Qed.

Lemma construir_grafo_grado E : grado_total (construir_grafo E) = (2 * length E)%nat.
Proof.
  induction E as [| e E IH] using rev_ind; [done |].
  rewrite construir_grafo_snoc, length_app. simpl. unfold grafo_paso.
  rewrite grado_total_anexar.
  - rewrite grado_total_anexar.
    + rewrite !grado_total_registrar. lia.
    + apply grafo_registrar_sigue, grafo_registrar_esta.
  - apply grafo_anexar_sigue, grafo_registrar_esta.
Qed.

Lemma grado_pendiente_cons k (a : list (string * Z)) g (V : gset string) :
  grado_pendiente ((k, a) :: g) V
  = ((if decide (k ∈ V) then 0 else length a) + grado_pendiente g V)%nat.
Proof. done. Qed.

Lemma grado_pendiente_total g (V : gset string) : (grado_pendiente g V ≤ grado_total g)%nat.
Proof.
  induction g as [| [k a] g IH]; [done |].
  rewrite grado_pendiente_cons, grado_total_cons. case_decide; lia.
Qed.

Lemma grado_pendiente_mono g (V V' : gset string) :
  V ⊆ V' → (grado_pendiente g V' ≤ grado_pendiente g V)%nat.
Proof.
  intros HV. induction g as [| [k a] g IH]; [done |].
  rewrite !grado_pendiente_cons.
  destruct (decide (k ∈ V)) as [Hk | Hk].
  - rewrite decide_True by (by apply HV). lia.
  - case_decide; lia.
Qed.

(** Visiting a node takes its adjacency entries out of the pending ones. *)
Lemma grado_pendiente_visitar g (V : gset string) n a :
  grafo_buscar g n = Some a → n ∉ V →
  (grado_pendiente g (V ∪ {[n]}) + length a ≤ grado_pendiente g V)%nat.
Proof.
  intros Hn HnV.
  induction g as [| [k b] g IH]; simpl in Hn; [done |].
  rewrite !grado_pendiente_cons.
  destruct (decide (k = n)) as [-> | Hkn].
  - injection Hn as ->.
    rewrite decide_True by (apply elem_of_union; right; by apply elem_of_singleton).
    rewrite decide_False by done.
    pose proof (grado_pendiente_mono g V (V ∪ {[n]})) as Hm.
    assert (V ⊆ V ∪ {[n]}) by apply union_subseteq_l. specialize (Hm ltac:(done)). lia.
  - specialize (IH Hn).
    destruct (decide (k ∈ V)) as [HkV | HkV].
    + rewrite decide_True by (apply elem_of_union; by left). lia.
    + rewrite decide_False; [lia |].
      intros Hc. apply elem_of_union in Hc as [Hc | Hc]; [done |].
      apply elem_of_singleton in Hc. done.
Qed.

End grafo.

(** ** Priority queues of tuples *)

Section heap.
Context {A : Type} (ltb : A → A → bool) (clave : A → Z).
Hypothesis ltb_true : ∀ x y, ltb x y = true → clave x <= clave y.
Hypothesis ltb_false : ∀ x y, ltb x y = false → clave y <= clave x.

Lemma heappush_perm (heap : list A) x : heappush ltb heap x ≡ₚ x :: heap.
Proof.
  induction heap as [| y heap IH]; simpl; [done |].
  destruct (ltb y x); [| done]. rewrite IH. apply Permutation_swap.
Qed.

Lemma elem_of_heappush (heap : list A) x t :
  t ∈ heappush ltb heap x ↔ t = x ∨ t ∈ heap.
Proof. by rewrite heappush_perm, elem_of_cons. Qed.

Lemma length_heappush (heap : list A) x : length (heappush ltb heap x) = S (length heap).
Proof. by rewrite heappush_perm. Qed.

Lemma heappush_ordenado (heap : list A) x :
  StronglySorted (por_clave clave) heap → StronglySorted (por_clave clave) (heappush ltb heap x).
Proof.
  induction 1 as [| y heap Hh IH Hy]; simpl; [repeat constructor |].
  destruct (ltb y x) eqn:E.
  - constructor; [done |]. rewrite heappush_perm. constructor; [| done].
    by apply ltb_true.
  - apply ltb_false in E. constructor; [by constructor |].
    constructor; [done |]. eapply Forall_impl; [exact Hy |].
    unfold por_clave. intros; lia.
Qed.

(** The head of the queue is a least element. *)
Lemma heappop_minimo (heap resto : list A) x t :
  StronglySorted (por_clave clave) heap → heappop heap = Some (x, resto) →
  t ∈ heap → clave x <= clave t.
Proof.
  intros Hs Hpop Ht. destruct heap as [| y heap]; [done |].
  injection Hpop as -> ->. apply StronglySorted_inv in Hs as [_ Hall].
  apply elem_of_cons in Ht as [-> | Ht]; [lia |].
  rewrite Forall_forall in Hall. by apply Hall.
Qed.

End heap.

Lemma tupla3_ltb_true x y : tupla3_ltb x y = true → peso3 x <= peso3 y.
Proof.
  destruct x as [[p1 a1] b1], y as [[p2 a2] b2]. unfold peso3. simpl.
  intros H. apply orb_true_iff in H as [H | H]; [lia |].
  apply andb_true_iff in H as [H _]. lia.
Qed.

Lemma tupla3_ltb_false x y : tupla3_ltb x y = false → peso3 y <= peso3 x.
Proof.
  destruct x as [[p1 a1] b1], y as [[p2 a2] b2]. unfold peso3. simpl.
  intros H. apply orb_false_iff in H as [H _]. lia.
Qed.

Lemma tupla2_ltb_true x y : tupla2_ltb x y = true → peso2 x <= peso2 y.
Proof.
  destruct x as [p1 a1], y as [p2 a2]. unfold peso2. simpl.
  intros H. apply orb_true_iff in H as [H | H]; [lia |].
  apply andb_true_iff in H as [H _]. lia.
Qed.

Lemma tupla2_ltb_false x y : tupla2_ltb x y = false → peso2 y <= peso2 x.
Proof.
  destruct x as [p1 a1], y as [p2 a2]. unfold peso2. simpl.
  intros H. apply orb_false_iff in H as [H _]. lia.
Qed.

(** ** Prim *)

Section prim.
Implicit Types (V : gset string) (heap : list (Z * string * string)).

Lemma prim_empujar_elem V n heap ady t :
  t ∈ prim_empujar V n heap ady ↔
  t ∈ heap ∨ ∃ v p, (v, p) ∈ ady ∧ v ∉ V ∧ t = (p, n, v).
Proof.
  unfold prim_empujar. revert heap.
  induction ady as [| [v p] ady IH]; intros heap; simpl.
  - split; [auto |]. intros [? | (v & p & H & _)]; [done | by apply elem_of_nil in H].
  - rewrite IH. destruct (decide (v ∈ V)) as [Hv | Hv].
    + split.
      * intros [? | (v' & p' & H & Hrest)]; [auto |].
        right. exists v', p'. split; [by right | done].
      * intros [? | (v' & p' & H & Hv' & ->)]; [auto |].
        apply elem_of_cons in H as [[= -> ->] | H]; [done |]. right. eauto.
    + rewrite elem_of_heappush. split.
      * intros [[-> | ?] | (v' & p' & H & Hrest)]; [| auto |].
        -- right. exists v, p. split; [by left | done].
        -- right. exists v', p'. split; [by right | done].
      * intros [? | (v' & p' & H & Hv' & ->)]; [auto |].
        apply elem_of_cons in H as [[= -> ->] | H]; [auto |]. right. eauto.
Qed.

Lemma prim_empujar_length V n heap ady :
  (length (prim_empujar V n heap ady) ≤ length heap + length ady)%nat.
Proof.
  unfold prim_empujar. revert heap.
  induction ady as [| [v p] ady IH]; intros heap; simpl; [lia |].
  etrans; [apply IH |]. case_decide; [lia |]. rewrite length_heappush. lia.
Qed.

Lemma prim_empujar_ordenado V n heap ady :
  StronglySorted (por_clave peso3) heap →
  StronglySorted (por_clave peso3) (prim_empujar V n heap ady).
Proof.
  unfold prim_empujar. revert heap.
  induction ady as [| [v p] ady IH]; intros heap Hs; simpl; [done |].
  apply IH. case_decide; [done |].
  apply heappush_ordenado; auto using tupla3_ltb_true, tupla3_ltb_false.
Qed.

Lemma heap_inicial_spec inicial ady :
  heap_inicial inicial ady = prim_empujar ∅ inicial [] ady.
Proof.
  unfold heap_inicial, prim_empujar. generalize (@nil (Z * string * string)).
  induction ady as [| [v p] ady IH]; intros h; simpl; [done |].
  rewrite decide_False by apply not_elem_of_empty. apply IH.
Qed.

Lemma conectados_dentro V (mst : list arista) a b :
  (∀ x, x ∈ mst → nodo1 x ∈ V ∧ nodo2 x ∈ V) →
  conectados mst a b → a ∈ V → b ∈ V.
Proof.
  intros Hd. induction 1 as [| a b c e He Hab _ IH]; [done |].
  intros Ha. apply IH. destruct (Hd e He) as [H1 H2].
  destruct Hab as [[<- <-] | [<- <-]]; done.
Qed.

Lemma une_nodos E e a b : e ∈ E → une e a b → a ∈ nodos_de E ∧ b ∈ nodos_de E.
Proof.
  intros He Hab. destruct (nodos_de_extremos E e He) as [H1 H2].
  destruct Hab as [[<- <-] | [<- <-]]; done.
Qed.

Lemma prim_inv_inicial E ini :
  ini ∈ nodos_de E →
  prim_inv E ini {[ini]} [] (heap_inicial ini (ady_de (construir_grafo E) ini)).
Proof.
  intros Hini. rewrite heap_inicial_spec. constructor.
  - by apply elem_of_singleton.
  - intros n Hn. apply elem_of_singleton in Hn. by subst.
  - intros n Hn. apply elem_of_singleton in Hn. subst. constructor.
  - intros x Hx. by apply elem_of_nil in Hx.
  - intros x Hx. by apply elem_of_nil in Hx.
  - done.
  - intros e a b He Hab Ha Hb. apply elem_of_singleton in Ha. subst a.
    apply prim_empujar_elem. right. exists b, (peso e).
    split; [apply construir_grafo_ady; eauto |]. split; [apply not_elem_of_empty | done].
  - intros p a b Ht. apply prim_empujar_elem in Ht as [Ht | (v & q & Hady & _ & [= -> -> ->])].
    { by apply elem_of_nil in Ht. }
    split; [by apply elem_of_singleton |]. by apply construir_grafo_ady.
  - apply prim_empujar_ordenado. constructor.
  - apply prometedor_nil.
  - by rewrite size_singleton.
Qed.

(** A popped edge whose far end is already in the tree is dropped. *)
Lemma prim_paso_descarta E ini V mst heap p n1 n2 :
  prim_inv E ini V mst ((p, n1, n2) :: heap) → n2 ∈ V →
  prim_inv E ini V mst heap.
Proof.
  intros [Hini Hnod Hcon Hden Hsub Hac Hcom Hheap Hord Hprom Hcta] Hn2.
  constructor; try done.
  - intros e a b He Hab Ha Hb.
    pose proof (Hcom e a b He Hab Ha Hb) as Hin.
    apply elem_of_cons in Hin as [Heq | Hin]; [| done].
    injection Heq as _ _ ->. done.
  - intros q a b Ht. apply Hheap. by right.
  - by apply StronglySorted_inv in Hord as [? _].
Qed.

(** A popped edge whose far end is new is accepted. *)
Lemma prim_paso_acepta E ini V mst heap p n1 n2 :
  prim_inv E ini V mst ((p, n1, n2) :: heap) → n2 ∉ V →
  prim_inv E ini (V ∪ {[n2]}) (mst ++ [(n1, n2, p)])
    (prim_empujar (V ∪ {[n2]}) n2 heap (ady_de (construir_grafo E) n2)).
Proof.
  intros [Hini Hnod Hcon Hden Hsub Hac Hcom Hheap Hord Hprom Hcta] Hn2.
  destruct (Hheap p n1 n2) as (Hn1 & e0 & He0 & Hp0 & Hu0); [by left |].
  assert (Hno : ¬ conectados mst n1 n2).
  { intros Hc. apply Hn2. eapply conectados_dentro; eauto. }
  constructor.
  - apply elem_of_union. by left.
  - intros n Hn. apply elem_of_union in Hn as [Hn | Hn]; [auto |].
    apply elem_of_singleton in Hn as ->. by destruct (une_nodos E e0 n1 n2).
  - intros n Hn. apply con_snoc. apply elem_of_union in Hn as [Hn | Hn].
    + apply con_cons. left. auto.
    + apply elem_of_singleton in Hn as ->. apply con_cons. right; left.
      split; [auto | constructor].
  - intros x Hx. rewrite !elem_of_union, !elem_of_singleton.
    apply elem_of_app in Hx as [Hx | Hx].
    + destruct (Hden x Hx). auto.
    + apply list_elem_of_singleton in Hx as ->. auto.
  - intros x Hx. apply elem_of_app in Hx as [Hx | Hx]; [auto |].
    apply list_elem_of_singleton in Hx as ->. exists e0. done.
  - apply (aciclico_perm ((n1, n2, p) :: mst)); [by rewrite Permutation_app_comm | done].
  - intros e a b He Hab Ha Hb. apply prim_empujar_elem.
    apply elem_of_union in Ha as [Ha | Ha].
    + left. assert (Hb' : b ∉ V) by (intros ?; apply Hb, elem_of_union; by left).
      pose proof (Hcom e a b He Hab Ha Hb') as Hin.
      apply elem_of_cons in Hin as [Heq | Hin]; [| done].
      injection Heq as _ _ ->. exfalso. apply Hb, elem_of_union. right.
      by apply elem_of_singleton.
    + apply elem_of_singleton in Ha as ->. right. exists b, (peso e).
      split; [apply construir_grafo_ady; eauto | done].
  - intros q a b Ht. apply prim_empujar_elem in Ht as [Ht | (v & r & Hady & _ & [= -> -> ->])].
    + destruct (Hheap q a b) as [Ha Hex]; [by right |].
      split; [apply elem_of_union; by left | done].
    + split; [apply elem_of_union; right; by apply elem_of_singleton |].
      by apply construir_grafo_ady.
  - apply prim_empujar_ordenado. by apply StronglySorted_inv in Hord as [? _].
  - apply (arista_segura (λ n, n ∈ V)); try done.
    + intros n. destruct (decide (n ∈ V)); auto.
    + intros x Hx Hcr. destruct (Hden x Hx) as [H1 H2].
      destruct Hcr as [[_ Hc] | [Hc _]]; done.
    + by left.
    + intros x Hx. apply list_elem_of_singleton in Hx as ->. exists e0. done.
    + intros e He Hcr.
      assert (Hen : ∃ a b, une e a b ∧ a ∈ V ∧ b ∉ V).
      { destruct Hcr as [[H1 H2] | [H1 H2]].
        - exists (nodo1 e), (nodo2 e). split; [by left | done].
        - exists (nodo2 e), (nodo1 e). split; [by right | done]. }
      destruct Hen as (a & b & Hab & Ha & Hb).
      pose proof (Hcom e a b He Hab Ha Hb) as Hin.
      change (peso (n1, n2, p)) with (peso3 (p, n1, n2)).
      change (peso e) with (peso3 (peso e, a, b)).
      eapply (heappop_minimo peso3); [exact Hord | done | exact Hin].
  - rewrite size_union.
    + rewrite size_singleton, length_app. simpl. lia.
    + apply disjoint_singleton_r. done.
Qed.

Lemma prim_bucle_correcto E ini fuel :
  ∀ V mst w heap,
  prim_inv E ini V mst heap → w = suma_pesos mst →
  (length heap + grado_pendiente (construir_grafo E) V < fuel)%nat →
  ∃ mst' w' V' heap',
    prim_bucle fuel (construir_grafo E) V mst w heap = Ok (mst', w') ∧
    prim_inv E ini V' mst' heap' ∧ w' = suma_pesos mst' ∧
    (heap' = [] ∨ ¬ (size V' < length (construir_grafo E))%nat).
Proof.
  induction fuel as [| fuel IH]; intros V mst w heap HP Hw Hfuel; [lia |].
  simpl. destruct heap as [| [[p n1] n2] heap].
  { rewrite bool_decide_eq_false_2 by (intros H; by apply H). simpl.
    exists mst, w, V, []. auto. }
  rewrite bool_decide_eq_true_2 by done. simpl.
  destruct (decide (size V < length (construir_grafo E))%nat) as [Hsz | Hsz].
  2: { rewrite bool_decide_eq_false_2 by done.
       exists mst, w, V, ((p, n1, n2) :: heap). auto. }
  rewrite bool_decide_eq_true_2 by done.
  destruct (decide (n2 ∈ V)) as [Hn2 | Hn2].
  - apply IH; [by eapply prim_paso_descarta | done | simpl in Hfuel; lia].
  - destruct (pi_heap _ _ _ _ _ HP p n1 n2) as (Hn1 & e0 & He0 & Hp0 & Hu0); [by left |].
    assert (is_Some (grafo_buscar (construir_grafo E) n2)) as [ady Hady].
    { apply construir_grafo_claves. by destruct (une_nodos E e0 n1 n2). }
    unfold grafo_consultar. rewrite Hady. simpl.
    pose proof (prim_paso_acepta E ini V mst heap p n1 n2 HP Hn2) as HP'.
    unfold ady_de in HP'. rewrite Hady in HP'. simpl in HP'.
    apply IH; [done | |].
    + rewrite Hw, suma_pesos_app, suma_pesos_cons. unfold suma_pesos at 3. simpl.
      change (peso (n1, n2, p)) with p. lia.
    + pose proof (prim_empujar_length (V ∪ {[n2]}) n2 heap ady).
      pose proof (grado_pendiente_visitar (construir_grafo E) V n2 ady Hady Hn2).
      simpl in Hfuel. lia.
Qed.

Lemma con_nodos E a b : conectados E a b → a ∈ nodos_de E → b ∈ nodos_de E.
Proof.
  induction 1 as [| a b c e He Hab _ IH]; [done |].
  intros _. apply IH. by destruct (une_nodos E e a b).
Qed.

Lemma con_cerrado E V a b :
  (∀ e x y, e ∈ E → une e x y → x ∈ V → y ∈ V) →
  conectados E a b → a ∈ V → b ∈ V.
Proof.
  intros Hc. induction 1 as [| a b c e He Hab _ IH]; [done |].
  intros Ha. apply IH. eauto.
Qed.

(** When the loop ends, the visited nodes are those connected to the start. *)
Lemma prim_alcanzados E ini V mst heap n :
  prim_inv E ini V mst heap →
  (heap = [] ∨ ¬ (size V < length (construir_grafo E))%nat) →
  conectados E ini n → n ∈ V.
Proof.
  intros HP Hfin Hc.
  destruct Hfin as [-> | Hsz].
  - apply (con_cerrado E V ini n); [| done | apply (pi_ini _ _ _ _ _ HP)].
    intros e x y He Hxy Hx. destruct (decide (y ∈ V)) as [| Hy]; [done |].
    pose proof (pi_completo _ _ _ _ _ HP e x y He Hxy Hx Hy) as Hin.
    by apply elem_of_nil in Hin.
  - rewrite construir_grafo_length in Hsz.
    assert (HV : V = nodos_de E).
    { apply set_subseteq_size_eq; [| lia].
      intros x. apply (pi_nodos _ _ _ _ _ HP). }
    rewrite HV. eapply con_nodos; [exact Hc |].
    rewrite <- HV. apply (pi_ini _ _ _ _ _ HP).
Qed.

Lemma grafo_registrar_cabeza k (a : list (string * Z)) (g : grafo_t) n :
  ∃ g', grafo_registrar ((k, a) :: g) n = (k, a) :: g'.
Proof. unfold grafo_registrar. destruct (grafo_buscar _ n); simpl; eauto. Qed.

Lemma grafo_anexar_cabeza k (a : list (string * Z)) (g : grafo_t) n x :
  ∃ a' g', grafo_anexar ((k, a) :: g) n x = (k, a') :: g'.
Proof. simpl. destruct (decide (k = n)); eauto. Qed.

Lemma grafo_paso_cabeza k (a : list (string * Z)) (g : grafo_t) e :
  ∃ a' g', grafo_paso ((k, a) :: g) e = (k, a') :: g'.
Proof.
  unfold grafo_paso.
  destruct (grafo_registrar_cabeza k a g (nodo1 e)) as [g1 ->].
  destruct (grafo_registrar_cabeza k a g1 (nodo2 e)) as [g2 ->].
  destruct (grafo_anexar_cabeza k a g2 (nodo1 e) (nodo2 e, peso e)) as (a3 & g3 & ->).
  destruct (grafo_anexar_cabeza k a3 g3 (nodo2 e) (nodo1 e, peso e)) as (a4 & g4 & ->).
  eauto.
Qed.

Lemma construir_grafo_primera_clave e0 E :
  ∃ a g, construir_grafo (e0 :: E) = (nodo1 e0, a) :: g.
Proof.
  induction E as [| e E IH] using rev_ind.
  - change (construir_grafo [e0]) with (grafo_paso [] e0). unfold grafo_paso.
    change (grafo_registrar [] (nodo1 e0)) with [(nodo1 e0, @nil (string * Z))].
    destruct (grafo_registrar_cabeza (nodo1 e0) [] [] (nodo2 e0)) as [g2 ->].
    destruct (grafo_anexar_cabeza (nodo1 e0) [] g2 (nodo1 e0) (nodo2 e0, peso e0))
      as (a3 & g3 & ->).
    destruct (grafo_anexar_cabeza (nodo1 e0) a3 g3 (nodo2 e0) (nodo1 e0, peso e0))
      as (a4 & g4 & ->).
    eauto.
  - destruct IH as (a & g & IH).
    change (e0 :: E ++ [e]) with ((e0 :: E) ++ [e]).
    rewrite construir_grafo_snoc, IH. apply grafo_paso_cabeza.
Qed.

(** What Prim returns when it starts from a node of the graph. *)
Lemma prim_correcto E inicio ini :
  nodo_inicial_de E inicio = Some ini → ini ∈ nodos_de E →
  ∃ mst w,
    prim E inicio = Ok (mst, w) ∧ w = suma_pesos mst ∧
    subgrafo mst E ∧ aciclico mst ∧
    (∀ n, conectados mst ini n ↔ conectados E ini n) ∧
    (conexo E → arbol_minimo mst E ∧ (length mst + 1 = size (nodos_de E))%nat) ∧
    (¬ conexo E → (length mst + 1 < size (nodos_de E))%nat).
Proof.
  intros Hini Hnodo.
  assert (is_Some (grafo_buscar (construir_grafo E) ini)) as [ady Hady]
    by (by apply construir_grafo_claves).
  pose proof (prim_inv_inicial E ini Hnodo) as HP0.
  unfold ady_de in HP0. rewrite Hady in HP0. simpl in HP0.
  destruct (prim_bucle_correcto E ini (S (2 * length E)) {[ini]} [] 0 _ HP0 eq_refl)
    as (mst & w & V & heap & Hrun & HP & Hw & Hfin).
  { rewrite heap_inicial_spec.
    pose proof (prim_empujar_length ∅ ini [] ady).
    pose proof (grado_pendiente_visitar (construir_grafo E) ∅ ini ady Hady) as Hv.
    rewrite (left_id_L ∅ (∪)) in Hv. specialize (Hv ltac:(apply not_elem_of_empty)).
    pose proof (grado_pendiente_total (construir_grafo E) ∅).
    rewrite construir_grafo_grado in *. simpl in *. lia. }
  exists mst, w.
  assert (Hprim : prim E inicio = Ok (mst, w)).
  { unfold prim, prim_con. destruct E as [| e0 E'].
    { by apply elem_of_empty in Hnodo. }
    assert (Hin : (match inicio with
                   | Some n => Ok n
                   | None => match construir_grafo (e0 :: E') with
                             | (k, _) :: _ => Ok k
                             | [] => IndexError
                             end
                   end) = Ok ini).
    { destruct inicio as [s |]; simpl in Hini; [by injection Hini as -> |].
      destruct (construir_grafo_primera_clave e0 E') as (a & g & ->). congruence. }
    rewrite Hin. simpl. unfold grafo_consultar. rewrite Hady. simpl. exact Hrun. }
  split; [done |]. split; [done |].
  destruct HP as [Hi Hnod Hcon Hden Hsub Hac Hcom Hheap Hord Hprom Hcta].
  assert (HP : prim_inv E ini V mst heap) by (by constructor).
  split; [done |]. split; [done |].
  assert (Hcomp : ∀ n, conectados mst ini n ↔ conectados E ini n).
  { intros n. split.
    - apply con_incl. intros x Hx. eapply subgrafo_conecta; eauto.
    - intros Hc. apply Hcon. eapply prim_alcanzados; eauto. }
  split; [done |]. split.
  - intros Hconexo.
    assert (HV : ∀ n, n ∈ nodos_de E → n ∈ V).
    { intros n Hn. eapply prim_alcanzados; eauto. }
    assert (Hab : abarca mst E).
    { intros a b. apply con_incl. intros x Hx.
      destruct (nodos_de_extremos E x Hx) as [H1 H2].
      apply con_trans with ini; [apply con_sym |]; apply Hcon; auto. }
    split; [by apply prometedor_final |].
    assert (V = nodos_de E) as <-; [| lia].
    apply set_eq. intros n. split; auto.
  - intros Hncon.
    destruct (decide (size V < size (nodos_de E))%nat) as [| Hge]; [lia |].
    exfalso. apply Hncon.
    assert (HV : V = nodos_de E).
    { apply set_subseteq_size_eq; [| lia]. intros x. apply Hnod. }
    intros a b Ha Hb. rewrite <- HV in Ha, Hb.
    apply con_trans with ini; [apply con_sym |]; apply Hcomp; apply Hcon; auto.
Qed.

End prim.

(** ** The claims about the two spanning-tree engines *)

Lemma nodo_inicial_de_valido aristas inicio :
  aristas ≠ [] → inicio_valido aristas inicio →
  ∃ ini, nodo_inicial_de aristas inicio = Some ini ∧ ini ∈ nodos_de aristas.
Proof.
  intros Hne Hval. destruct inicio as [s |]; simpl in *; [eauto |].
  destruct aristas as [| e0 rest]; [done |]. simpl. exists (nodo1 e0).
  split; [done |]. apply elem_of_nodos_de. exists e0. split; [by left | by left].
Qed.

(** A graph in which every endpoint is connected to one node is connected. *)
Lemma conexo_por_centro (E : list arista) (c : string) :
  Forall (λ e, conectados E c (nodo1 e) ∧ conectados E c (nodo2 e)) E → conexo E.
Proof.
  rewrite Forall_forall. intros Hc a b Ha Hb.
  assert (Hx : ∀ n, n ∈ nodos_de E → conectados E c n).
  { intros n Hn. apply elem_of_nodos_de in Hn as (e & He & [<- | <-]);
      by destruct (Hc e He). }
  apply con_trans with c; [apply con_sym |]; auto.
Qed.

Lemma triangulo_conexo : conexo triangulo.
Proof.
  apply (conexo_por_centro triangulo "A").
  assert (HA : conectados triangulo "A" "A") by constructor.
  assert (HB : conectados triangulo "A" "B").
  { apply con_arista with ("A", "B", 1); [by left | by left]. }
  assert (HC : conectados triangulo "A" "C").
  { apply con_arista with ("A", "C", 4); [right; right; by left | by left]. }
  repeat constructor; done.
Qed.

Lemma dos_islas_no_conexo : ¬ conexo dos_islas.
Proof.
  intros Hc.
  assert (HA : "A" ∈ nodos_de dos_islas).
  { apply elem_of_nodos_de. exists ("A", "B", 1). split; [by left | by left]. }
  assert (HCn : "C" ∈ nodos_de dos_islas).
  { apply elem_of_nodos_de. exists ("C", "D", 2). split; [right; by left | by left]. }
  specialize (Hc "A" "C" HA HCn).
  assert (Hcl : "C" ∈ ({[ "A"; "B" ]} : gset string)).
  { apply (con_cerrado dos_islas _ "A" "C"); [| done | set_solver].
    intros e x y He Hxy Hx.
    apply elem_of_cons in He as [-> | He].
    - destruct Hxy as [[<- <-] | [<- <-]]; set_solver.
    - apply list_elem_of_singleton in He as ->.
      destruct Hxy as [[<- <-] | [<- <-]]; simpl in *; set_solver. }
  set_solver.
Qed.

(** C1: on a connected graph given as a non-empty edge list, Prim (from its
    default start node or from any node of the graph) and Kruskal both
    return, each a spanning tree of least total weight together with that
    weight, and the two weights are equal. The edges may differ. No
    assumption on the sign of the weights is needed. *)
Theorem prim_kruskal_mismo_peso (aristas : list arista) (inicio : option string) :
  aristas ≠ [] → conexo aristas → inicio_valido aristas inicio →
  ∃ mst_prim mst_kruskal w,
    prim aristas inicio = Ok (mst_prim, w) ∧
    kruskal aristas = Ok (mst_kruskal, w) ∧
    arbol_minimo mst_prim aristas ∧ arbol_minimo mst_kruskal aristas ∧
    w = suma_pesos mst_prim ∧ w = suma_pesos mst_kruskal.
Proof.
  intros Hne Hcon Hval.
  destruct (nodo_inicial_de_valido aristas inicio Hne Hval) as (ini & Hini & Hnodo).
  destruct (prim_correcto aristas inicio ini Hini Hnodo)
    as (mp & wp & Hprim & Hwp & _ & _ & _ & Hsi & _).
  destruct (Hsi Hcon) as [Hminp _].
  destruct (kruskal_total aristas) as (mk & wk & Hkr & Hmink & Hwk).
  assert (wp = wk) as <-.
  { destruct Hminp as [Hp1 Hp2], Hmink as [Hk1 Hk2].
    specialize (Hp2 mk Hk1). specialize (Hk2 mp Hp1). lia. }
  exists mp, mk, wp. done.
Qed.

Lemma prim_kruskal_mismo_peso_witness :
  ∃ mst_prim mst_kruskal w,
    prim triangulo None = Ok (mst_prim, w) ∧
    kruskal triangulo = Ok (mst_kruskal, w) ∧
    arbol_minimo mst_prim triangulo ∧ arbol_minimo mst_kruskal triangulo ∧
    w = suma_pesos mst_prim ∧ w = suma_pesos mst_kruskal.
Proof.
  apply (prim_kruskal_mismo_peso triangulo None).
  - discriminate.
  - apply triangulo_conexo.
  - exact I.
Defined.

(** C2: for every edge list and a start node that is absent or in the
    graph, Prim and Kruskal return acyclic sets of edges of the graph (Prim
    possibly with the endpoints swapped); Prim's edges connect to the start
    node exactly the nodes of its component. If the graph is connected with
    V nodes, each result connects every two nodes and, the edge list not
    being empty, has V-1 edges; if it is not connected, each has fewer than
    V-1 edges. On the empty edge list, which has no nodes, both results are
    empty. *)
Theorem mst_numero_de_aristas (aristas : list arista) (inicio : option string) :
  inicio_valido aristas inicio →
  ∃ mst_prim w_prim mst_kruskal w_kruskal,
    prim aristas inicio = Ok (mst_prim, w_prim) ∧
    kruskal aristas = Ok (mst_kruskal, w_kruskal) ∧
    subgrafo mst_prim aristas ∧ subgrafo mst_kruskal aristas ∧
    aciclico mst_prim ∧ aciclico mst_kruskal ∧
    (∀ ini n, nodo_inicial_de aristas inicio = Some ini →
              conectados mst_prim ini n ↔ conectados aristas ini n) ∧
    (aristas = [] → mst_prim = [] ∧ mst_kruskal = []) ∧
    (conexo aristas →
       (aristas ≠ [] →
          (length mst_prim + 1 = size (nodos_de aristas))%nat ∧
          (length mst_kruskal + 1 = size (nodos_de aristas))%nat) ∧
       ∀ a b, a ∈ nodos_de aristas → b ∈ nodos_de aristas →
              conectados mst_prim a b ∧ conectados mst_kruskal a b) ∧
    (¬ conexo aristas →
       (length mst_prim + 1 < size (nodos_de aristas))%nat ∧
       (length mst_kruskal + 1 < size (nodos_de aristas))%nat).
Proof.
  intros Hval.
  destruct (decide (aristas = [])) as [-> | Hne].
  { exists [], 0, [], 0. split; [done |]. split; [done |].
    assert (Hsub : subgrafo [] []) by (intros e He; by apply elem_of_nil in He).
    assert (Hcon : conexo []).
    { intros a b Ha. by apply not_elem_of_empty in Ha. }
    repeat (split; [done |]). all: exfalso; auto. }
  destruct (nodo_inicial_de_valido aristas inicio Hne Hval) as (ini & Hini & Hnodo).
  destruct (prim_correcto aristas inicio ini Hini Hnodo)
    as (mp & wp & Hprim & Hwp & Hsubp & Hacp & Hcomp & Hsi & Hno).
  destruct (kruskal_total aristas) as (mk & wk & Hkr & [(Hsubk & Hack & Habk) _] & Hwk).
  destruct (kruskal_cuenta aristas Hne) as (mk' & wk' & Hkr' & Hsik & Hnok).
  rewrite Hkr in Hkr'. injection Hkr' as <- <-.
  exists mp, wp, mk, wk. repeat (split; [done |]). split.
  { intros ini' n Hini'. rewrite Hini in Hini'. injection Hini' as <-. apply Hcomp. }
  split; [done |]. split.
  - intros Hcon. destruct (Hsi Hcon) as [[(_ & _ & Habp) _] Hlen].
    split; [auto |]. intros a b Ha Hb. split; [apply Habp | apply Habk]; auto.
  - intros Hncon. split; auto.
Qed.

Lemma mst_numero_de_aristas_witness :
  ∃ mst_prim w_prim mst_kruskal w_kruskal,
    prim dos_islas None = Ok (mst_prim, w_prim) ∧
    kruskal dos_islas = Ok (mst_kruskal, w_kruskal) ∧
    subgrafo mst_prim dos_islas ∧ subgrafo mst_kruskal dos_islas ∧
    aciclico mst_prim ∧ aciclico mst_kruskal ∧
    (∀ ini n, nodo_inicial_de dos_islas None = Some ini →
              conectados mst_prim ini n ↔ conectados dos_islas ini n) ∧
    (dos_islas = [] → mst_prim = [] ∧ mst_kruskal = []) ∧
    (conexo dos_islas →
       (dos_islas ≠ [] →
          (length mst_prim + 1 = size (nodos_de dos_islas))%nat ∧
          (length mst_kruskal + 1 = size (nodos_de dos_islas))%nat) ∧
       ∀ a b, a ∈ nodos_de dos_islas → b ∈ nodos_de dos_islas →
              conectados mst_prim a b ∧ conectados mst_kruskal a b) ∧
    (¬ conexo dos_islas →
       (length mst_prim + 1 < size (nodos_de dos_islas))%nat ∧
       (length mst_kruskal + 1 < size (nodos_de dos_islas))%nat).
Proof.
  apply (mst_numero_de_aristas dos_islas None).
  exact I.
Defined.

Example prim_dos_islas : prim dos_islas None = Ok ([("A", "B", 1)], 1).
Proof. vm_compute. reflexivity. Qed.

Example kruskal_dos_islas : kruskal dos_islas = Ok ([("A", "B", 1); ("C", "D", 2)], 3).
Proof. vm_compute. reflexivity. Qed.

(** *** C10 *)

(** With a start node that is supplied and is not a key of the adjacency
    dictionary, [grafo[nodo_inicial]] raises KeyError. *)
Lemma prim_nodo_ausente (aristas : list arista) (s : string) :
  aristas ≠ [] → s ∉ nodos_de aristas → prim aristas (Some s) = KeyError.
Proof.
  intros Hne Hs. unfold prim, prim_con. destruct aristas as [| e0 rest]; [done |].
  simpl. unfold grafo_consultar.
  destruct (grafo_buscar (construir_grafo (e0 :: rest)) s) eqn:E; [| done].
  exfalso. apply Hs. apply construir_grafo_claves. eauto.
Qed.

(** C10 fails on the code: for the edge list [("A","B",1)] and the start
    node "Z", Prim does not return a result; the lookup of the start node in
    the adjacency dictionary raises KeyError. Dijkstra, on the same graph
    and node, checks for the node and returns the empty result. *)
Theorem prim_inicio_ausente_KeyError :
  prim [("A", "B", 1)] (Some "Z") = KeyError ∧
  dijkstra [("A", "B", 1)] "Z" = Ok (∅, ∅).
Proof. split; vm_compute; reflexivity. Qed.

(** ** Dijkstra *)

Section dijkstra.
Context (E : list arista) (origen : string).
Implicit Types (r : gmap string nat) (V : gset string) (st : estado_dijkstra).

(** Relaxing one neighbour keeps the invariant. *)
Lemma dijkstra_relajar_paso r V st d u v e :
  dijkstra_inv E origen r V st → u ∈ V → v ∉ V →
  distancias st !! u = Some (Finita d) →
  e ∈ E → une e u v →
  (∀ d', distancias st !! v = Some (Finita d') → d + peso e < d') →
  dijkstra_inv E origen r V
    {| distancias := <[v := Finita (d + peso e)]> (distancias st);
       predecesores := <[v := u]> (predecesores st);
       heap_d := heappush tupla2_ltb (heap_d st) (d + peso e, v) |}.
Proof.
  intros [HD HP HV Hcl Hhn Hmin Hord Hpred Hpend HrV HrP] Hu Hv HDu He Hue Hmenor.
  assert (Hor : origen ∈ V).
  { destruct HV as [| (-> & _)]; [done | by apply elem_of_empty in Hu]. }
  assert (Hvo : v ≠ origen) by (intros ->; done).
  assert (Hvu : v ≠ u) by (intros ->; done).
  constructor; simpl.
  - by rewrite lookup_insert_ne.
  - by rewrite lookup_insert_ne.
  - by left.
  - intros n Hn. destruct (decide (v = n)) as [-> | Hne].
    + rewrite lookup_insert_eq. eauto.
    + rewrite lookup_insert_ne by done. auto.
  - intros x n Hx. apply elem_of_heappush in Hx as [[= -> ->] | Hx]; [| eauto].
    by destruct (une_nodos E e u v).
  - intros x n Hx Hn. destruct (decide (v = n)) as [<- | Hne].
    + rewrite lookup_insert_eq. exists (d + peso e).
      split; [done |]. split; [| apply elem_of_heappush; by left].
      apply elem_of_heappush in Hx as [[= -> ] | Hx]; [lia |].
      destruct (Hmin x v Hx Hn) as (d' & Hd' & Hle & _).
      specialize (Hmenor d' Hd'). lia.
    + rewrite lookup_insert_ne by done.
      apply elem_of_heappush in Hx as [[= -> ->] | Hx]; [done |].
      destruct (Hmin x n Hx Hn) as (d' & Hd' & Hle & Hin).
      exists d'. split; [done |]. split; [done |]. apply elem_of_heappush. by right.
  - apply heappush_ordenado; auto using tupla2_ltb_true, tupla2_ltb_false.
  - intros v0 u0 Hv0. destruct (decide (v = v0)) as [<- | Hne].
    + rewrite lookup_insert_eq in Hv0. injection Hv0 as <-.
      split; [done |]. exists d, e.
      rewrite lookup_insert_ne by done. rewrite lookup_insert_eq. done.
    + rewrite lookup_insert_ne in Hv0 by done.
      destruct (Hpred v0 u0 Hv0) as (Hu0 & du & e0 & H1 & H2 & H3 & H4).
      split; [done |]. exists du, e0.
      rewrite !lookup_insert_ne; [done | done |]. intros ->. done.
  - intros v0 u0 Hv0. destruct (decide (v = v0)) as [<- | Hne].
    + right. exists (d + peso e). apply elem_of_heappush. by left.
    + rewrite lookup_insert_ne in Hv0 by done.
      destruct (Hpend v0 u0 Hv0) as [? | [x Hx]]; [by left |].
      right. exists x. apply elem_of_heappush. by right.
  - done.
  - intros v0 u0 kv ku Hv0 Hv0V. destruct (decide (v = v0)) as [<- | Hne]; [done |].
    rewrite lookup_insert_ne in Hv0 by done. eauto.
Qed.

(** The loop over the neighbours of the node just finalised. *)
Lemma dijkstra_relajar_inv r V d u ady :
  ∀ st,
  dijkstra_inv E origen r V st → u ∈ V →
  distancias st !! u = Some (Finita d) →
  (∀ v w, (v, w) ∈ ady → ∃ e, e ∈ E ∧ peso e = w ∧ une e u v) →
  ∃ st', dijkstra_relajar V d u ady st = Ok st' ∧
         dijkstra_inv E origen r V st' ∧
         (length (heap_d st') ≤ length (heap_d st) + length ady)%nat.
Proof.
  induction ady as [| [v w] ady IH]; intros st Hinv Hu HDu Hady; simpl.
  { exists st. split; [done |]. split; [done | lia]. }
  assert (Hady' : ∀ v w, (v, w) ∈ ady → ∃ e, e ∈ E ∧ peso e = w ∧ une e u v).
  { intros v' w' H'. apply Hady. by right. }
  destruct (decide (v ∈ V)) as [Hv | Hv].
  { destruct (IH st Hinv Hu HDu Hady') as (st' & Hrun & Hinv' & Hlen).
    exists st'. split; [done |]. split; [done | lia]. }
  destruct (Hady v w) as (e & He & Hw & Hue); [by left |].
  destruct (di_claves _ _ _ _ _ Hinv v) as [dv Hdv]; [by destruct (une_nodos E e u v) |].
  unfold consultar. rewrite Hdv. simpl.
  destruct (menor_que (d + w) dv) eqn:Emenor.
  - subst w.
    pose proof (dijkstra_relajar_paso r V st d u v e Hinv Hu Hv HDu He Hue) as Hpaso.
    destruct (IH _ (Hpaso ltac:(intros d' Hd'; rewrite Hdv in Hd';
                                 injection Hd' as ->; simpl in Emenor; lia)))
      as (st' & Hrun & Hinv' & Hlen); [done | | done |].
    { simpl. rewrite lookup_insert_ne; [done |]. intros ->. done. }
    exists st'. split; [done |]. split; [done |].
    simpl in Hlen. rewrite length_heappush in Hlen. lia.
  - destruct (IH st Hinv Hu HDu Hady') as (st' & Hrun & Hinv' & Hlen).
    exists st'. split; [done |]. split; [done | lia].
Qed.

(** A popped pair whose node is already finalised is dropped. *)
Lemma dijkstra_paso_descarta r V st d u heap :
  dijkstra_inv E origen r V st → heap_d st = (d, u) :: heap → u ∈ V →
  dijkstra_inv E origen r V (con_heap st heap).
Proof.
  intros [HD HP HV Hcl Hhn Hmin Hord Hpred Hpend HrV HrP] Hheap Hu.
  rewrite Hheap in *.
  constructor; simpl; try done.
  - destruct HV as [| (-> & _)]; [by left | by apply elem_of_empty in Hu].
  - intros x n Hx. apply (Hhn x n). by right.
  - intros x n Hx Hn. destruct (Hmin x n) as (d' & Hd' & Hle & Hin); [by right | done |].
    exists d'. split; [done |]. split; [done |].
    apply elem_of_cons in Hin as [[= -> ->] | Hin]; done.
  - by apply StronglySorted_inv in Hord as [? _].
  - intros v u0 Hv. destruct (Hpend v u0 Hv) as [? | [x Hx]]; [by left |].
    apply elem_of_cons in Hx as [[= -> ->] | Hx]; [by left | eauto].
Qed.

(** A popped pair whose node is new finalises it, at its recorded distance. *)
Lemma dijkstra_paso_visita r V st d u heap :
  dijkstra_inv E origen r V st → heap_d st = (d, u) :: heap → u ∉ V →
  dijkstra_inv E origen (<[u := size V]> r) (V ∪ {[u]}) (con_heap st heap) ∧
  distancias st !! u = Some (Finita d).
Proof.
  intros [HD HP HV Hcl Hhn Hmin Hord Hpred Hpend HrV HrP] Hheap Hu.
  rewrite Hheap in *.
  assert (Hsz : size (V ∪ {[u]}) = S (size V)).
  { rewrite size_union by (by apply disjoint_singleton_r).
    rewrite size_singleton. lia. }
  assert (HDu : distancias st !! u = Some (Finita d)).
  { destruct (Hmin d u) as (d' & Hd' & Hle & Hin); [by left | done |].
    assert (d <= d'); [| by replace d with d' by lia].
    change d with (peso2 (d, u)). change d' with (peso2 (d', u)).
    by eapply (heappop_minimo peso2). }
  split; [| done].
  constructor; simpl; try done.
  - left. destruct HV as [? | (_ & _ & [= _ ->])]; apply elem_of_union;
      [by left | right; by apply elem_of_singleton].
  - intros x n Hx. apply (Hhn x n). by right.
  - intros x n Hx Hn.
    assert (Hn' : n ∉ V) by (intros ?; apply Hn, elem_of_union; by left).
    assert (Hnu : n ≠ u).
    { intros ->. apply Hn, elem_of_union. right. by apply elem_of_singleton. }
    destruct (Hmin x n) as (d' & Hd' & Hle & Hin); [by right | done |].
    exists d'. split; [done |]. split; [done |].
    apply elem_of_cons in Hin as [[= -> ->] | Hin]; done.
  - by apply StronglySorted_inv in Hord as [? _].
  - intros v u0 Hv. destruct (Hpred v u0 Hv) as [Hu0 Hrest].
    split; [apply elem_of_union; by left | done].
  - intros v u0 Hv. destruct (Hpend v u0 Hv) as [? | [x Hx]].
    + left. apply elem_of_union. by left.
    + apply elem_of_cons in Hx as [[= -> ->] | Hx]; [| eauto].
      left. apply elem_of_union. right. by apply elem_of_singleton.
  - intros n Hn. rewrite Hsz. destruct (decide (u = n)) as [<- | Hne].
    + rewrite lookup_insert_eq. exists (size V). split; [done | lia].
    + rewrite lookup_insert_ne by done.
      apply elem_of_union in Hn as [Hn | Hn].
      * destruct (HrV n Hn) as (k & Hk & Hlt). exists k. split; [done | lia].
      * apply elem_of_singleton in Hn. congruence.
  - intros v u0 kv ku Hv HvV Hkv Hku.
    destruct (Hpred v u0 Hv) as [Hu0 _].
    assert (u ≠ u0) by (intros ->; done).
    rewrite lookup_insert_ne in Hku by done.
    destruct (decide (u = v)) as [<- | Hne].
    + rewrite lookup_insert_eq in Hkv. injection Hkv as <-.
      destruct (HrV u0 Hu0) as (k & Hk & Hlt). congruence.
    + rewrite lookup_insert_ne in Hkv by done.
      apply elem_of_union in HvV as [HvV | HvV]; [eauto |].
      apply elem_of_singleton in HvV. congruence.
Qed.

(** The main loop returns, in a state that satisfies the invariant with an
    empty queue. *)
Lemma dijkstra_bucle_correcto fuel :
  ∀ r V st,
  dijkstra_inv E origen r V st →
  (length (heap_d st) + grado_pendiente (construir_grafo E) V < fuel)%nat →
  ∃ D P r' V',
    dijkstra_bucle fuel (construir_grafo E) V st = Ok (D, P) ∧
    dijkstra_inv E origen r' V' {| distancias := D; predecesores := P; heap_d := [] |}.
Proof.
  induction fuel as [| fuel IH]; intros r V st Hinv Hfuel; [lia |].
  simpl. destruct (heap_d st) as [| [d u] heap] eqn:Eheap.
  { simpl. exists (distancias st), (predecesores st), r, V. split; [done |].
    destruct st as [D P h]. simpl in *. by subst h. }
  simpl. destruct (decide (u ∈ V)) as [Hu | Hu].
  - apply (IH r); [by eapply dijkstra_paso_descarta |]. simpl in *. lia.
  - destruct (dijkstra_paso_visita r V st d u heap Hinv Eheap Hu) as [Hinv1 HDu].
    assert (is_Some (grafo_buscar (construir_grafo E) u)) as [ady Hady].
    { apply construir_grafo_claves. eapply di_heap_nodos; [exact Hinv |].
      rewrite Eheap. by left. }
    unfold grafo_consultar. rewrite Hady. simpl.
    destruct (dijkstra_relajar_inv _ _ d u ady _ Hinv1) as (st2 & Hrun & Hinv2 & Hlen).
    + apply elem_of_union. right. by apply elem_of_singleton.
    + done.
    + intros v w Hvw. apply construir_grafo_ady. unfold ady_de. by rewrite Hady.
    + fold (con_heap st heap). rewrite Hrun. simpl.
      apply (IH _ _ _ Hinv2).
      pose proof (grado_pendiente_visitar (construir_grafo E) V u ady Hady Hu).
      simpl in *. lia.
Qed.

Lemma distancias_iniciales_claves (g : grafo_t) n :
  is_Some ((list_to_map ((λ kv, (kv.1, Infinita)) <$> g) : gmap string distancia) !! n)
  ↔ n ∈ g.*1.
Proof.
  induction g as [| [k a] g IH]; simpl.
  - rewrite lookup_empty. split; [by intros [? ?] | intros H; by apply elem_of_nil in H].
  - rewrite elem_of_cons. destruct (decide (k = n)) as [-> | Hne].
    + rewrite lookup_insert_eq. split; eauto.
    + rewrite lookup_insert_ne by done. rewrite IH. split; [auto | intros [? | ?]; [congruence | done]].
Qed.

(** Dijkstra returns when the source is a node of the graph, in a state that
    satisfies the invariant with an empty queue. *)
Lemma dijkstra_estado_final :
  origen ∈ nodos_de E →
  ∃ D P r V,
    dijkstra E origen = Ok (D, P) ∧
    dijkstra_inv E origen r V {| distancias := D; predecesores := P; heap_d := [] |}.
Proof.
  intros Hor. unfold dijkstra, dijkstra_con.
  assert (is_Some (grafo_buscar (construir_grafo E) origen)) as [ady Hady]
    by (by apply construir_grafo_claves).
  rewrite Hady.
  apply (dijkstra_bucle_correcto _ ∅ ∅).
  - constructor; simpl.
    + by rewrite lookup_insert_eq.
    + apply lookup_empty.
    + by right.
    + intros n Hn. destruct (decide (origen = n)) as [<- | Hne].
      * rewrite lookup_insert_eq. eauto.
      * rewrite lookup_insert_ne by done. apply distancias_iniciales_claves.
        by apply elem_of_claves, construir_grafo_claves.
    + intros d n Hd. apply list_elem_of_singleton in Hd. by injection Hd as -> ->.
    + intros d n Hd _. apply list_elem_of_singleton in Hd. injection Hd as -> ->.
      exists 0. rewrite lookup_insert_eq. split; [done |]. split; [lia | by left].
    + repeat constructor.
    + intros v u Hv. by rewrite lookup_empty in Hv.
    + intros v u Hv. by rewrite lookup_empty in Hv.
    + intros n Hn. by apply elem_of_empty in Hn.
    + intros v u kv ku Hv. by rewrite lookup_empty in Hv.
  - simpl. pose proof (grado_pendiente_total (construir_grafo E) ∅).
    rewrite construir_grafo_grado in *. lia.
Qed.

(** *** Path reconstruction *)

Lemma ruta_bucle_Ok fuel (P : gmap string string) actual ruta res :
  ruta_bucle fuel P origen actual ruta = Ok res →
  res = [] ∨ ∃ l, cadena P origen actual l ∧ res = reverse (ruta ++ l).
Proof.
  revert actual ruta.
  induction fuel as [| fuel IH]; intros actual ruta H; [discriminate |].
  simpl in H. destruct (decide (actual ≠ origen)) as [Hne | Heq].
  - destruct (P !! actual) as [p |] eqn:Ep; [| injection H as <-; by left].
    apply IH in H as [-> | (l & Hl & ->)]; [by left |].
    right. exists (actual :: l). split; [by econstructor |].
    by rewrite <- app_assoc.
  - injection H as <-. right. exists [origen].
    assert (actual = origen) as -> by (destruct (decide (actual = origen)); [done | by destruct Heq]).
    split; [constructor | done].
Qed.

Lemma reconstruir_ruta_Ok fuel (P : gmap string string) destino ruta :
  reconstruir_ruta fuel P origen destino = Ok ruta → ruta ≠ [] →
  ∃ l, cadena P origen destino l ∧ ruta = reverse l.
Proof.
  unfold reconstruir_ruta. intros H Hne.
  destruct (bool_decide (P !! destino = None) && bool_decide (destino ≠ origen)).
  - injection H as <-. done.
  - apply ruta_bucle_Ok in H as [-> | (l & Hl & ->)]; [done | eauto].
Qed.

Lemma ruta_bucle_mas_fuel fuel fuel' (P : gmap string string) actual ruta res :
  ruta_bucle fuel P origen actual ruta = Ok res → (fuel ≤ fuel')%nat →
  ruta_bucle fuel' P origen actual ruta = Ok res.
Proof.
  revert fuel' actual ruta.
  induction fuel as [| fuel IH]; intros fuel' actual ruta H Hle; [discriminate |].
  destruct fuel' as [| fuel']; [lia |]. simpl in *.
  destruct (decide (actual ≠ origen)); [| done].
  destruct (P !! actual); [| done]. apply IH; [done | lia].
Qed.

Lemma cadena_cabeza (P : gmap string string) v l :
  cadena P origen v l → head l = Some v ∧ last l = Some origen.
Proof.
  induction 1 as [| v u l Hv Hvu Hl [IH1 IH2]]; [done |].
  split; [done |]. destruct l; [done |]. done.
Qed.

Section resultado.
Context (D : gmap string distancia) (P : gmap string string)
        (r : gmap string nat) (V : gset string).
Hypothesis Hfin : dijkstra_inv E origen r V {| distancias := D; predecesores := P; heap_d := [] |}.

(** On the result of Dijkstra the reconstruction loop returns. *)
Lemma ruta_bucle_termina fuel :
  ∀ actual ruta k,
  actual = origen ∨ (actual ∈ V ∧ r !! actual = Some k) → (k < fuel)%nat →
  ∃ res, ruta_bucle fuel P origen actual ruta = Ok res.
Proof.
  induction fuel as [| fuel IH]; intros actual ruta k Hact Hk; [lia |].
  simpl. destruct (decide (actual ≠ origen)) as [Hne | Heq]; [| eauto].
  destruct Hact as [-> | [HaV Hka]]; [done |].
  destruct (P !! actual) as [p |] eqn:Ep; [| eauto].
  destruct (di_pred _ _ _ _ _ Hfin actual p Ep) as [HpV _].
  destruct (di_rango_V _ _ _ _ _ Hfin p HpV) as (kp & Hkp & _).
  pose proof (di_rango_P _ _ _ _ _ Hfin actual p k kp Ep HaV Hka Hkp).
  apply (IH p _ kp); [auto | lia].
Qed.

Lemma reconstruir_ruta_termina destino :
  ∃ fuel0 ruta, ∀ fuel, (fuel0 ≤ fuel)%nat →
    reconstruir_ruta fuel P origen destino = Ok ruta.
Proof.
  unfold reconstruir_ruta.
  destruct (bool_decide (P !! destino = None) && bool_decide (destino ≠ origen)) eqn:Eb.
  { exists 0%nat, []. done. }
  assert (Hact : ∃ k, destino = origen ∨ (destino ∈ V ∧ r !! destino = Some k)).
  { destruct (decide (destino = origen)) as [| Hne]; [exists 0%nat; by left |].
    destruct (P !! destino) as [p |] eqn:Ep.
    - destruct (di_pend _ _ _ _ _ Hfin destino p Ep) as [HV | [d Hd]].
      + destruct (di_rango_V _ _ _ _ _ Hfin destino HV) as (k & Hk & _). eauto.
      + simpl in Hd. by apply elem_of_nil in Hd.
    - rewrite bool_decide_eq_true_2 in Eb by done.
      rewrite bool_decide_eq_true_2 in Eb by done. done. }
  destruct Hact as [k Hact].
  destruct (ruta_bucle_termina (S k) destino [] k Hact) as [res Hres]; [lia |].
  exists (S k), res. intros fuel Hle. eapply ruta_bucle_mas_fuel; eauto.
Qed.

Hypothesis Hpesos : ∀ e, e ∈ E → 0 <= peso e.

(** Along the chain of predecessors the recorded distances decrease towards
    the source, each step by the weight of an edge of the graph. *)
Lemma cadena_distancias v l :
  cadena P origen v l →
  ∃ ds es,
    Forall2 (distancia_es D) l ds ∧
    StronglySorted (λ x y, y <= x) ds ∧
    camino_por E l es ∧
    head ds = Some (suma_pesos es) ∧
    Forall (λ d, 0 <= d) ds.
Proof.
  induction 1 as [| v u l Hv Hvu Hl (ds & es & HF & Hs & Hc & Hh & Hpos)].
  - exists [0], []. split; [| split; [| split; [| split]]].
    + repeat constructor. apply (di_D_origen _ _ _ _ _ Hfin).
    + repeat constructor.
    + done.
    + done.
    + repeat constructor. lia.
  - destruct (di_pred _ _ _ _ _ Hfin v u Hvu) as (_ & du & e & HDu & HDv & He & Hue).
    simpl in HDu, HDv.
    destruct (cadena_cabeza P u l Hl) as [Hhead _].
    destruct l as [| u' l']; [done |]. injection Hhead as ->.
    destruct ds as [| du' ds']; [by apply Forall2_length in HF |].
    apply Forall2_cons in HF as [HDu' HF']. unfold distancia_es in HDu'.
    simpl in HDu'. rewrite HDu in HDu'. injection HDu' as <-.
    simpl in Hh. injection Hh as Hh.
    pose proof (Hpesos e He) as Hpe.
    exists ((du + peso e) :: du :: ds'), (e :: es).
    split; [| split; [| split; [| split]]].
    + constructor; [done |]. by constructor.
    + constructor; [done |]. constructor; [lia |].
      apply StronglySorted_inv in Hs as [_ Hall].
      eapply Forall_impl; [exact Hall |]. simpl. intros; lia.
    + simpl. split; [done |]. split; [by apply une_sym | done].
    + rewrite suma_pesos_cons, <- Hh. simpl. f_equal. lia.
    + constructor; [| done]. apply Forall_cons in Hpos as [? _]. lia.
Qed.

End resultado.

End dijkstra.

Lemma StronglySorted_reverse_le (ds : list Z) :
  StronglySorted (λ x y, y <= x) ds → StronglySorted Z.le (reverse ds).
Proof.
  induction 1 as [| x l Hl IH Hx]; [constructor |].
  rewrite reverse_cons. apply StronglySorted_app_2.
  - intros x1 x2 H1 H2. apply list_elem_of_singleton in H2 as ->.
    rewrite elem_of_reverse in H1. rewrite Forall_forall in Hx. by apply Hx.
  - exact IH.
  - repeat constructor.
Qed.

Lemma camino_por_snoc E l es a b e :
  camino_por E l es → last l = Some b → e ∈ E → une e b a →
  camino_por E (l ++ [a]) (es ++ [e]).
Proof.
  revert es. induction l as [| x l IH]; intros es Hc Hlast He Hu; [done |].
  destruct l as [| y l].
  - destruct es; [| done]. injection Hlast as ->. simpl. done.
  - destruct es as [| e' es]; [done |]. destruct Hc as (He' & Hu' & Hc).
    simpl. split; [done |]. split; [done |]. apply (IH es); done.
Qed.

Lemma camino_por_reverse E l es :
  camino_por E l es → camino_por E (reverse l) (reverse es).
Proof.
  revert es. induction l as [| x l IH]; intros es Hc; [done |].
  destruct l as [| y l].
  - destruct es; [done | done].
  - destruct es as [| e es]; [done |]. destruct Hc as (He & Hu & Hc).
    rewrite (reverse_cons (y :: l)), (reverse_cons es).
    apply camino_por_snoc with y; [by apply IH | | done | by apply une_sym].
    by rewrite last_reverse.
Qed.

(** *** C5 *)

(** C5: when the source is not an endpoint of any edge, Dijkstra returns the
    pair of empty maps; it does so before the first turn of its main loop,
    that is, with every budget of iterations, the empty one included. *)
Theorem dijkstra_origen_ausente (aristas : list arista) (nodo_origen : string) :
  nodo_origen ∉ nodos_de aristas →
  dijkstra aristas nodo_origen = Ok (∅, ∅) ∧
  ∀ fuel, dijkstra_con fuel aristas nodo_origen = Ok (∅, ∅).
Proof.
  intros Hno.
  assert (H : ∀ fuel, dijkstra_con fuel aristas nodo_origen = Ok (∅, ∅)).
  { intros fuel. unfold dijkstra_con.
    destruct (grafo_buscar (construir_grafo aristas) nodo_origen) eqn:Eg; [| done].
    exfalso. apply Hno. apply construir_grafo_claves. eauto. }
  split; [apply H | exact H].
Qed.

Lemma dijkstra_origen_ausente_witness :
  dijkstra [("A", "B", 1)] "Z" = Ok (∅, ∅) ∧
  ∀ fuel, dijkstra_con fuel [("A", "B", 1)] "Z" = Ok (∅, ∅).
Proof.
  apply (dijkstra_origen_ausente [("A", "B", 1)] "Z").
  intros H. apply elem_of_nodos_de in H as (e & He & Hn).
  apply list_elem_of_singleton in He. subst e.
  destruct Hn as [Hn | Hn]; discriminate Hn.
Defined.

(** *** C6 *)

(** C6: with non-negative weights and a source that is a node of the graph,
    Dijkstra returns; on its predecessor map the reconstruction of a path
    returns for every target; and whenever the reconstructed path is not
    empty, it leads from the source to the target, the recorded distances of
    its nodes are integers that never decrease along it, every two
    consecutive nodes are joined by an edge of the graph, and the weights of
    these edges add up to the recorded distance of the target. *)
Theorem dijkstra_ruta_creciente (aristas : list arista) (nodo_origen : string) :
  (∀ e, e ∈ aristas → 0 <= peso e) → nodo_origen ∈ nodos_de aristas →
  ∃ D P,
    dijkstra aristas nodo_origen = Ok (D, P) ∧
    ∀ nodo_destino,
      (∃ fuel0 ruta, ∀ fuel, (fuel0 ≤ fuel)%nat →
         reconstruir_ruta fuel P nodo_origen nodo_destino = Ok ruta) ∧
      ∀ fuel ruta,
        reconstruir_ruta fuel P nodo_origen nodo_destino = Ok ruta → ruta ≠ [] →
        ∃ ds es,
          Forall2 (distancia_es D) ruta ds ∧ StronglySorted Z.le ds ∧
          head ruta = Some nodo_origen ∧ last ruta = Some nodo_destino ∧
          camino_por aristas ruta es ∧
          distancia_es D nodo_destino (suma_pesos es).
Proof.
  intros Hpesos Hor.
  destruct (dijkstra_estado_final aristas nodo_origen Hor) as (D & P & r & V & Hrun & Hfin).
  exists D, P. split; [done |]. intros destino. split.
  - eapply reconstruir_ruta_termina; eauto.
  - intros fuel ruta Hruta Hne.
    destruct (reconstruir_ruta_Ok nodo_origen fuel P destino ruta Hruta Hne) as (l & Hl & ->).
    destruct (cadena_distancias aristas nodo_origen D P r V Hfin Hpesos destino l Hl)
      as (ds & es & HF & Hs & Hc & Hh & _).
    destruct (cadena_cabeza nodo_origen P destino l Hl) as [Hhead Hlast].
    exists (reverse ds), (reverse es).
    split; [by apply Forall2_reverse |].
    split; [by apply StronglySorted_reverse_le |].
    split; [by rewrite head_reverse |].
    split; [by rewrite last_reverse |].
    split; [by apply camino_por_reverse |].
    rewrite (suma_pesos_perm (reverse es) es) by apply reverse_Permutation.
    destruct l as [| v l]; [done |]. injection Hhead as ->.
    destruct ds as [| d ds]; [done |]. injection Hh as ->.
    by apply Forall2_cons in HF as [? _].
Qed.

Lemma dijkstra_ruta_creciente_witness :
  ∃ D P,
    dijkstra triangulo "A" = Ok (D, P) ∧
    ∀ nodo_destino,
      (∃ fuel0 ruta, ∀ fuel, (fuel0 ≤ fuel)%nat →
         reconstruir_ruta fuel P "A" nodo_destino = Ok ruta) ∧
      ∀ fuel ruta,
        reconstruir_ruta fuel P "A" nodo_destino = Ok ruta → ruta ≠ [] →
        ∃ ds es,
          Forall2 (distancia_es D) ruta ds ∧ StronglySorted Z.le ds ∧
          head ruta = Some "A" ∧ last ruta = Some nodo_destino ∧
          camino_por triangulo ruta es ∧
          distancia_es D nodo_destino (suma_pesos es).
Proof.
  apply (dijkstra_ruta_creciente triangulo "A").
  - intros e He. unfold triangulo in He.
    repeat (apply elem_of_cons in He as [-> | He]; [unfold peso; simpl; lia |]).
    by apply elem_of_nil in He.
  - apply elem_of_nodos_de. exists ("A", "B", 1). split; [by left | by left].
Defined.

Example dijkstra_ruta_ejemplo :
  ∃ D P, dijkstra triangulo "A" = Ok (D, P) ∧
         reconstruir_ruta 3 P "A" "C" = Ok ["A"; "B"; "C"] ∧
         D !! "C" = Some (Finita 3).
Proof. eexists _, _. split; [vm_compute; reflexivity |]. split; vm_compute; reflexivity. Qed.

(** ** Huffman *)

(** Induction over a tree and its optional children. *)
Lemma NodoHuffman_ind (Q : NodoHuffman → Prop) :
  (∀ c f, Q (Nodo c f None None)) →
  (∀ c f i, Q i → Q (Nodo c f (Some i) None)) →
  (∀ c f d, Q d → Q (Nodo c f None (Some d))) →
  (∀ c f i d, Q i → Q d → Q (Nodo c f (Some i) (Some d))) →
  ∀ t, Q t.
Proof.
  intros H0 H1 H2 H3.
  fix IH 1. intros [c f [i |] [d |]].
  - apply H3; apply IH.
  - apply H1; apply IH.
  - apply H2; apply IH.
  - apply H0.
Qed.

(** *** Strings of bits *)

Lemma append_cons a (s1 s2 : string) : String a s1 +:+ s2 = String a (s1 +:+ s2).
Proof. reflexivity. Qed.

Lemma append_nil_l (s : string) : "" +:+ s = s.
Proof. reflexivity. Qed.

Lemma append_nil_r (s : string) : s +:+ "" = s.
Proof. induction s as [| a s IH]; [done |]. by rewrite append_cons, IH. Qed.

Lemma append_assoc (s1 s2 s3 : string) : (s1 +:+ s2) +:+ s3 = s1 +:+ (s2 +:+ s3).
Proof. induction s1 as [| a s1 IH]; [done |]. by rewrite !append_cons, IH. Qed.

Lemma append_eq_nil (s1 s2 : string) : s1 +:+ s2 = "" → s1 = "" ∧ s2 = "".
Proof. destruct s1; [done |]. rewrite append_cons. discriminate. Qed.

Lemma length_append (s1 s2 : string) :
  String.length (s1 +:+ s2) = (String.length s1 + String.length s2)%nat.
Proof.
  induction s1 as [| a s1 IH]; [done |]. rewrite append_cons. simpl. by rewrite IH.
Qed.

Lemma es_prefijo_cons a s1 b s2 :
  es_prefijo (String a s1) (String b s2) ↔ a = b ∧ es_prefijo s1 s2.
Proof.
  unfold es_prefijo. split.
  - intros [s Hs]. rewrite append_cons in Hs. injection Hs as -> ->. eauto.
  - intros [-> [s ->]]. by exists s.
Qed.

Lemma es_prefijo_refl s : es_prefijo s s.
Proof. exists "". by rewrite append_nil_r. Qed.

(** *** The queue kept as a sorted list meets the contract *)

Lemma insertar_nodo_perm heap x : insertar_nodo heap x ≡ₚ x :: heap.
Proof.
  induction heap as [| y heap IH]; simpl; [done |].
  destruct (nodo_lt x y); [done |]. rewrite IH. apply Permutation_swap.
Qed.

Lemma insertar_nodo_ordenado heap x :
  ordenado_por_frecuencia heap → ordenado_por_frecuencia (insertar_nodo heap x).
Proof.
  unfold ordenado_por_frecuencia.
  induction 1 as [| y heap Hh IH Hy]; simpl; [repeat constructor |].
  unfold nodo_lt. destruct (frecuencia x <? frecuencia y) eqn:Elt.
  - apply Z.ltb_lt in Elt. constructor; [by constructor |].
    constructor; [lia |]. eapply Forall_impl; [exact Hy |]. simpl. intros; lia.
  - apply Z.ltb_ge in Elt. constructor; [done |].
    rewrite insertar_nodo_perm. by constructor.
Qed.

Lemma ordenar_nodos_spec l :
  ordenado_por_frecuencia (ordenar_nodos l) ∧ ordenar_nodos l ≡ₚ l.
Proof.
  unfold ordenar_nodos.
  assert (H : ∀ acc, ordenado_por_frecuencia acc →
    ordenado_por_frecuencia (foldl insertar_nodo acc l) ∧
    foldl insertar_nodo acc l ≡ₚ acc ++ l).
  { induction l as [| x l IH]; intros acc Hacc; simpl.
    - by rewrite app_nil_r.
    - destruct (IH (insertar_nodo acc x)) as [H1 H2]; [by apply insertar_nodo_ordenado |].
      split; [done |]. rewrite H2, insertar_nodo_perm. simpl. apply Permutation_middle. }
  destruct (H []) as [H1 H2]; [constructor | done].
Qed.

Lemma heappop_lista_some (h : list NodoHuffman) :
  ordenado_por_frecuencia h → h ≠ [] → is_Some (heappop h).
Proof. destruct h as [| x h]; [done | eauto]. Qed.

Lemma heappop_lista_spec (h : list NodoHuffman) x h' :
  ordenado_por_frecuencia h → heappop h = Some (x, h') →
  ordenado_por_frecuencia h' ∧ h ≡ₚ x :: h' ∧ Forall (λ y, nodo_lt y x = false) h'.
Proof.
  destruct h as [| y h]; intros Hs Hpop; [done |]. injection Hpop as -> ->.
  apply StronglySorted_inv in Hs as [Hs Hall].
  split; [done |]. split; [done |].
  eapply Forall_impl; [exact Hall |]. simpl. unfold nodo_lt. intros z Hz.
  apply Z.ltb_ge. lia.
Qed.

Lemma insertar_nodo_spec (h : list NodoHuffman) x :
  ordenado_por_frecuencia h →
  ordenado_por_frecuencia (insertar_nodo h x) ∧ insertar_nodo h x ≡ₚ x :: h.
Proof.
  intros Hs. split; [by apply insertar_nodo_ordenado | apply insertar_nodo_perm].
Qed.

(** The queue kept as a sorted list meets the contract. *)
Lemma monticulo_lista_correcto : monticulo_correcto monticulo_lista.
Proof.
  split.
  - apply ordenar_nodos_spec.
  - apply heappop_lista_some.
  - apply heappop_lista_spec.
  - apply insertar_nodo_spec.
Qed.

(** *** Leaves, paths and the generated codes *)

Lemma ruta_a_hojas t c : c ∈ hojas t ↔ ∃ bits, ruta_a t bits c.
Proof.
  induction t as [c0 f | c0 f i IHi | c0 f d IHd | c0 f i d IHi IHd] using NodoHuffman_ind;
    simpl.
  - rewrite list_elem_of_singleton. split.
    + intros ->. exists "". constructor.
    + intros [bits Hb]. by inversion Hb.
  - rewrite app_nil_r, IHi. split.
    + intros [bits Hb]. eexists. by apply ruta_izq.
    + intros [bits Hb]. inversion Hb; subst. eauto.
  - rewrite IHd. split.
    + intros [bits Hb]. eexists. by apply ruta_der.
    + intros [bits Hb]. inversion Hb; subst. eauto.
  - rewrite elem_of_app, IHi, IHd. split.
    + intros [[bits Hb] | [bits Hb]]; eexists; [by apply ruta_izq | by apply ruta_der].
    + intros [bits Hb]. inversion Hb; subst; eauto.
Qed.

(** The path of a leaf is not an initial segment of the path of another. *)
Lemma ruta_a_libre t b1 c1 b2 c2 :
  ruta_a t b1 c1 → ruta_a t b2 c2 → es_prefijo b1 b2 → b1 = b2 ∧ c1 = c2.
Proof.
  intros H1. revert b2 c2.
  induction H1 as [c f | c f i der bits s Hi IH | c f izq d bits s Hd IH];
    intros b2 c2 H2 Hpre.
  - by inversion H2.
  - inversion H2 as [| ? ? ? ? bits' ? Hi' | ? ? ? ? bits' ? Hd']; subst.
    + apply es_prefijo_cons in Hpre as [_ Hpre].
      destruct (IH _ _ Hi' Hpre) as [-> ->]. done.
    + apply es_prefijo_cons in Hpre as [Hc _]. discriminate.
  - inversion H2 as [| ? ? ? ? bits' ? Hi' | ? ? ? ? bits' ? Hd']; subst.
    + apply es_prefijo_cons in Hpre as [Hc _]. discriminate.
    + apply es_prefijo_cons in Hpre as [_ Hpre].
      destruct (IH _ _ Hd' Hpre) as [-> ->]. done.
Qed.

Lemma codigo_final_no_vacio codigo bits :
  bits ≠ "" → codigo_final (codigo +:+ bits) = codigo +:+ bits.
Proof.
  intros Hb. unfold codigo_final. case_decide as Hc; [| done].
  apply append_eq_nil in Hc as [_ ?]. done.
Qed.

(** What the traversal writes in the dictionary: for every leaf, the code
    received so far followed by the path to the leaf. *)
Lemma generar_codigos_desde_spec t :
  ∀ codigo codigos, NoDup (hojas t) →
  (∀ bits c, ruta_a t bits c →
     generar_codigos_desde t codigo codigos !! c = Some (codigo_final (codigo +:+ bits))) ∧
  (∀ k, k ∉ hojas t → generar_codigos_desde t codigo codigos !! k = codigos !! k).
Proof.
  induction t as [c0 f | c0 f i IHi | c0 f d IHd | c0 f i d IHi IHd] using NodoHuffman_ind;
    intros codigo codigos Hnd; simpl in *.
  - split.
    + intros bits c Hb. inversion Hb; subst.
      rewrite append_nil_r, lookup_insert_eq. done.
    + intros k Hk. rewrite list_elem_of_singleton in Hk.
      by rewrite lookup_insert_ne by congruence.
  - rewrite app_nil_r in Hnd. destruct (IHi (codigo +:+ "0") codigos Hnd) as [H1 H2].
    split.
    + intros bits c Hb. inversion Hb; subst.
      rewrite (H1 _ _ ltac:(eassumption)).
      by rewrite append_assoc, !codigo_final_no_vacio.
    + intros k Hk. rewrite app_nil_r in Hk. auto.
  - destruct (IHd (codigo +:+ "1") codigos Hnd) as [H1 H2].
    split.
    + intros bits c Hb. inversion Hb; subst.
      rewrite (H1 _ _ ltac:(eassumption)).
      by rewrite append_assoc, !codigo_final_no_vacio.
    + auto.
  - apply NoDup_app in Hnd as (Hndi & Hdis & Hndd).
    destruct (IHi (codigo +:+ "0") codigos Hndi) as [Hi1 Hi2].
    destruct (IHd (codigo +:+ "1")
                (generar_codigos_desde i (codigo +:+ "0") codigos) Hndd) as [Hd1 Hd2].
    split.
    + intros bits c Hb. inversion Hb as [| ? ? ? ? bits' ? Hi' | ? ? ? ? bits' ? Hd']; subst.
      * rewrite Hd2.
        -- rewrite (Hi1 _ _ Hi'). by rewrite append_assoc, !codigo_final_no_vacio.
        -- apply Hdis. apply ruta_a_hojas. eauto.
      * rewrite (Hd1 _ _ Hd'). by rewrite append_assoc, !codigo_final_no_vacio.
    + intros k Hk. rewrite elem_of_app in Hk.
      rewrite Hd2 by tauto. apply Hi2. tauto.
Qed.

(** The code table of a tree with distinct symbols. *)
Lemma generar_codigos_spec raiz :
  NoDup (hojas raiz) →
  (∀ bits c, ruta_a raiz bits c →
     generar_codigos (Some raiz) !! c = Some (codigo_final bits)) ∧
  (∀ k, k ∉ hojas raiz → generar_codigos (Some raiz) !! k = None).
Proof.
  intros Hnd. destruct (generar_codigos_desde_spec raiz "" ∅ Hnd) as [H1 H2].
  split.
  - intros bits c Hb. simpl. by rewrite (H1 _ _ Hb), append_nil_l.
  - intros k Hk. simpl. rewrite H2 by done. apply lookup_empty.
Qed.

Lemma generar_codigos_libre raiz :
  NoDup (hojas raiz) → libre_de_prefijos (generar_codigos (Some raiz)).
Proof.
  intros Hnd c1 c2 k1 k2 Hk1 Hk2 Hpre.
  destruct (generar_codigos_spec raiz Hnd) as [H1 H2].
  assert (Hex : ∀ c k, generar_codigos (Some raiz) !! c = Some k →
                       ∃ bits, ruta_a raiz bits c ∧ k = codigo_final bits).
  { intros c k Hk. destruct (decide (c ∈ hojas raiz)) as [Hc | Hc].
    - apply ruta_a_hojas in Hc as [bits Hb]. exists bits. split; [done |].
      rewrite (H1 _ _ Hb) in Hk. congruence.
    - rewrite (H2 _ Hc) in Hk. discriminate. }
  destruct (Hex _ _ Hk1) as (b1 & Hb1 & ->). destruct (Hex _ _ Hk2) as (b2 & Hb2 & ->).
  unfold codigo_final in Hpre.
  destruct (decide (b1 = "")) as [-> | Hne1].
  - destruct (ruta_a_libre raiz "" c1 b2 c2 Hb1 Hb2) as [_ ?]; [by exists b2 | done].
  - destruct (decide (b2 = "")) as [-> | Hne2].
    + destruct (ruta_a_libre raiz "" c2 b1 c1 Hb2 Hb1) as [_ ?]; [by exists b1 | done].
    + by destruct (ruta_a_libre raiz b1 c1 b2 c2 Hb1 Hb2 Hpre).
Qed.

Lemma generar_codigos_no_vacios raiz c k :
  NoDup (hojas raiz) → generar_codigos (Some raiz) !! c = Some k → k ≠ "".
Proof.
  intros Hnd Hk. destruct (generar_codigos_spec raiz Hnd) as [H1 H2].
  destruct (decide (c ∈ hojas raiz)) as [Hc | Hc].
  - apply ruta_a_hojas in Hc as [bits Hb]. rewrite (H1 _ _ Hb) in Hk.
    injection Hk as <-. unfold codigo_final. by case_decide.
  - rewrite (H2 _ Hc) in Hk. discriminate.
Qed.

(** *** The merging loop *)

Section construir.
Context `{M : Monticulo} (HM : monticulo_correcto M).

Lemma hojas_de_cola_perm heap heap' :
  heap ≡ₚ heap' → hojas_de_cola heap ≡ₚ hojas_de_cola heap'.
Proof. intros HP. unfold hojas_de_cola. by rewrite HP. Qed.

Lemma hojas_de_cola_cons x heap :
  hojas_de_cola (x :: heap) = hojas x ++ hojas_de_cola heap.
Proof. done. Qed.

Lemma hojas_de_cola_hojas frecuencias :
  hojas_de_cola (hoja_de <$> frecuencias) = Some <$> frecuencias.*1.
Proof.
  induction frecuencias as [| [c f] l IH]; [done |].
  rewrite !fmap_cons, hojas_de_cola_cons, IH. done.
Qed.

Lemma extraer_Ok heap :
  es_monticulo heap → heap ≠ [] →
  ∃ x heap', extraer heap = Ok (x, heap') ∧ es_monticulo heap' ∧ heap ≡ₚ x :: heap'.
Proof.
  intros Hm Hne. destruct (heappop_h_some M HM heap Hm Hne) as [[x heap'] Hpop].
  destruct (heappop_h_spec M HM heap x heap' Hm Hpop) as (Hm' & HP & _).
  exists x, heap'. unfold extraer. rewrite Hpop. done.
Qed.

(** The loop returns a queue of one tree that holds all the leaves. *)
Lemma huffman_bucle_correcto fuel :
  ∀ heap, es_monticulo heap → heap ≠ [] → (length heap ≤ fuel)%nat →
  ∃ raiz, huffman_bucle fuel heap = Ok [raiz] ∧ hojas raiz ≡ₚ hojas_de_cola heap.
Proof.
  induction fuel as [| fuel IH]; intros heap Hm Hne Hlen.
  { destruct heap; [done | simpl in Hlen; lia]. }
  simpl. destruct (decide (1 < length heap)%nat) as [Hgt | Hle].
  - destruct (extraer_Ok heap Hm Hne) as (izq & heap1 & -> & Hm1 & HP1). simpl.
    assert (Hl1 : length heap = S (length heap1)) by (by rewrite HP1).
    assert (Hne1 : heap1 ≠ []) by (intros ->; simpl in Hl1; lia).
    destruct (extraer_Ok heap1 Hm1 Hne1) as (der & heap2 & -> & Hm2 & HP2). simpl.
    assert (Hl2 : length heap1 = S (length heap2)) by (by rewrite HP2).
    destruct (heappush_h_spec M HM heap2
                (Nodo None (frecuencia izq + frecuencia der) (Some izq) (Some der)) Hm2)
      as [Hm3 HP3].
    destruct (IH _ Hm3) as (raiz & Hrun & Hh).
    + intros Heq. rewrite Heq in HP3. by apply Permutation_nil_cons in HP3.
    + rewrite HP3. simpl. lia.
    + exists raiz. split; [done |]. rewrite Hh.
      rewrite (hojas_de_cola_perm _ _ HP3), (hojas_de_cola_perm _ _ HP1).
      rewrite !hojas_de_cola_cons, (hojas_de_cola_perm _ _ HP2), hojas_de_cola_cons.
      simpl. by rewrite <- app_assoc.
  - destruct heap as [| x [| y heap]]; [done | | simpl in Hle; lia].
    exists x. split; [done |]. rewrite hojas_de_cola_cons. simpl. by rewrite app_nil_r.
Qed.

(** [construir_arbol_huffman] returns a tree whose leaves hold the symbols
    of the table. *)
Lemma construir_arbol_huffman_correcto frecuencias :
  frecuencias ≠ [] →
  ∃ raiz, construir_arbol_huffman frecuencias = Ok (Some raiz) ∧
          hojas raiz ≡ₚ Some <$> frecuencias.*1.
Proof.
  intros Hne. unfold construir_arbol_huffman.
  destruct frecuencias as [| kv0 rest] eqn:Efr; [done |]. rewrite <- Efr.
  set (l := (λ '(char, freq), Nodo (Some char) freq None None) <$> frecuencias).
  destruct (heapify_h_spec M HM l) as [Hm HP].
  destruct (huffman_bucle_correcto (length frecuencias) (heapify_h l) Hm)
    as (raiz & Hrun & Hh).
  - intros Heq. rewrite Heq in HP. apply Permutation_nil in HP.
    subst l. rewrite Efr in HP. discriminate.
  - rewrite HP. subst l. by rewrite length_fmap.
  - exists raiz. rewrite Hrun. simpl. split; [done |].
    rewrite Hh, (hojas_de_cola_perm _ _ HP). subst l.
    apply (reflexive_eq (R:=Permutation)). apply hojas_de_cola_hojas.
Qed.

End construir.

(** *** Decoding with a prefix-free table *)

Section decodificar.
Context (codigos : gmap (option string) string).
Hypothesis Hlibre : libre_de_prefijos codigos.
Hypothesis Hno_vacio : ∀ c k, codigos !! c = Some k → k ≠ "".

Lemma elem_of_tabla_de c k :
  (c, k) ∈ tabla_de codigos ↔ codigos !! Some c = Some k.
Proof.
  unfold tabla_de. rewrite list_elem_of_omap. split.
  - intros ([[c' |] k'] & Hin & Heq); simpl in Heq; [| done].
    injection Heq as -> ->. by apply elem_of_map_to_list in Hin.
  - intros Hk. exists (Some c, k). split; [by apply elem_of_map_to_list | done].
Qed.

Lemma simbolo_de_codigo c k :
  codigos !! Some c = Some k → simbolo_de (tabla_de codigos) k = Some c.
Proof.
  intros Hk. unfold simbolo_de.
  destruct (List.find _ _) as [[c' k'] |] eqn:Ef; simpl.
  - apply List.find_some in Ef as [Hin Heq]. simpl in Heq.
    apply String.eqb_eq in Heq as ->.
    apply list_elem_of_In, elem_of_tabla_de in Hin.
    assert (Some c' = Some c) as [= ->]; [| done].
    eapply Hlibre; [exact Hin | exact Hk | apply es_prefijo_refl].
  - assert (Hin : In (c, k) (tabla_de codigos))
      by (by apply list_elem_of_In, elem_of_tabla_de).
    pose proof (List.find_none _ _ Ef (c, k) Hin) as Hf. simpl in Hf.
    rewrite String.eqb_refl in Hf. discriminate.
Qed.

Lemma simbolo_de_ninguno bits :
  (∀ c, codigos !! Some c ≠ Some bits) → simbolo_de (tabla_de codigos) bits = None.
Proof.
  intros Hno. unfold simbolo_de.
  destruct (List.find _ _) as [[c' k'] |] eqn:Ef; simpl; [| done].
  apply List.find_some in Ef as [Hin Heq]. simpl in Heq.
  apply String.eqb_eq in Heq as ->.
  apply list_elem_of_In, elem_of_tabla_de in Hin. by destruct (Hno c').
Qed.

(** Reading the code of a symbol emits that symbol and nothing before. *)
Lemma decodificar_un_codigo c k resto_k :
  codigos !! Some c = Some k →
  ∀ pendiente resto, k = pendiente +:+ resto_k → resto_k ≠ "" →
  decodificar_desde (tabla_de codigos) pendiente (resto_k +:+ resto)
  = cons c <$> decodificar_desde (tabla_de codigos) "" resto.
Proof.
  intros Hk. induction resto_k as [| b r IH]; intros pendiente resto Heq Hne; [done |].
  rewrite append_cons. simpl.
  destruct (decide (r = "")) as [-> | Hr].
  - rewrite <- Heq, (simbolo_de_codigo c k Hk). by rewrite append_nil_l.
  - rewrite simbolo_de_ninguno.
    + apply IH; [| done]. by rewrite append_assoc.
    + intros c' Hc'.
      assert (Some c' = Some c) as [= ->].
      { eapply Hlibre; [exact Hc' | exact Hk |].
        exists r. by rewrite append_assoc. }
      rewrite Hk in Hc'. injection Hc' as Hc'.
      apply (f_equal String.length) in Hc'.
      rewrite Heq, !length_append in Hc'. simpl in Hc'.
      destruct r; [done |]. simpl in Hc'. lia.
Qed.

(** Decoding the concatenation of the codes of a text returns the text. *)
Lemma decodificar_codificar texto :
  (∀ c, c ∈ texto → is_Some (codigos !! Some c)) →
  ∃ bits, codificar codigos texto = Some bits ∧
          decodificar (tabla_de codigos) bits = Some texto.
Proof.
  unfold decodificar.
  induction texto as [| c texto IH]; intros Hcub.
  - exists "". done.
  - destruct (Hcub c) as [k Hk]; [by left |].
    destruct IH as (bits & Hcod & Hdec); [intros; apply Hcub; by right |].
    exists (k +:+ bits). simpl. rewrite Hk. simpl. rewrite Hcod. simpl.
    split; [done |].
    rewrite (decodificar_un_codigo c k k Hk "" bits); [| done | by eapply Hno_vacio].
    by rewrite Hdec.
Qed.

End decodificar.

(** *** C8 *)

Lemma construir_un_simbolo `{M : Monticulo} c f :
  monticulo_correcto M →
  construir_arbol_huffman [(c, f)] = Ok (Some (Nodo (Some c) f None None)).
Proof.
  intros HM. unfold construir_arbol_huffman.
  destruct (heapify_h_spec M HM [Nodo (Some c) f None None]) as [_ HP].
  apply Permutation_singleton_r in HP. simpl in *. rewrite HP. simpl. done.
Qed.

(** C8: for a non-empty frequency table with distinct symbols, and over any
    priority queue that meets the contract of heapq (whatever it does with
    nodes of equal frequency), the tree is
    built, the code table has a code for the symbols of the table and for
    nothing else, no code is an initial segment of the code of another
    symbol, decoding the concatenated codes of a sequence of symbols of the
    table gives the sequence back, and the code of a table with one symbol
    is "0". *)
Theorem huffman_libre_de_prefijos `{M : Monticulo} (frecuencias : list (string * Z)) :
  monticulo_correcto M → frecuencias ≠ [] → NoDup frecuencias.*1 →
  ∃ raiz,
    construir_arbol_huffman frecuencias = Ok (Some raiz) ∧
    (∀ c, is_Some (generar_codigos (Some raiz) !! Some c) ↔ c ∈ frecuencias.*1) ∧
    libre_de_prefijos (generar_codigos (Some raiz)) ∧
    (∀ texto, (∀ c, c ∈ texto → c ∈ frecuencias.*1) →
       ∃ bits, codificar (generar_codigos (Some raiz)) texto = Some bits ∧
               decodificar (tabla_de (generar_codigos (Some raiz))) bits = Some texto) ∧
    (∀ c f, frecuencias = [(c, f)] → generar_codigos (Some raiz) !! Some c = Some "0").
Proof.
  intros HM Hne Hnd.
  destruct (construir_arbol_huffman_correcto HM frecuencias Hne) as (raiz & Hrun & Hh).
  assert (Hndh : NoDup (hojas raiz)).
  { rewrite Hh. apply (NoDup_fmap_2 _). done. }
  destruct (generar_codigos_spec raiz Hndh) as [H1 H2].
  assert (Hcub : ∀ c, is_Some (generar_codigos (Some raiz) !! Some c) ↔ c ∈ frecuencias.*1).
  { intros c. split.
    - intros [k Hk]. destruct (decide (Some c ∈ hojas raiz)) as [Hc | Hc].
      + rewrite Hh in Hc. apply list_elem_of_fmap in Hc as (c' & [= ->] & Hc'). done.
      + rewrite (H2 _ Hc) in Hk. discriminate.
    - intros Hc. assert (Hc' : Some c ∈ hojas raiz).
      { rewrite Hh. by apply list_elem_of_fmap_2. }
      apply ruta_a_hojas in Hc' as [bits Hb]. rewrite (H1 _ _ Hb). eauto. }
  exists raiz. split; [done |]. split; [done |].
  split; [by apply generar_codigos_libre |]. split.
  - intros texto Htexto. apply decodificar_codificar.
    + by apply generar_codigos_libre.
    + intros c k. by apply generar_codigos_no_vacios.
    + intros c Hc. apply Hcub. auto.
  - intros c f ->. rewrite (construir_un_simbolo c f HM) in Hrun. injection Hrun as <-.
    simpl. by rewrite lookup_insert_eq.
Qed.

Lemma huffman_libre_de_prefijos_witness :
  ∃ raiz,
    construir_arbol_huffman frecuencias_ejemplo = Ok (Some raiz) ∧
    (∀ c, is_Some (generar_codigos (Some raiz) !! Some c) ↔ c ∈ frecuencias_ejemplo.*1) ∧
    libre_de_prefijos (generar_codigos (Some raiz)) ∧
    (∀ texto, (∀ c, c ∈ texto → c ∈ frecuencias_ejemplo.*1) →
       ∃ bits, codificar (generar_codigos (Some raiz)) texto = Some bits ∧
               decodificar (tabla_de (generar_codigos (Some raiz))) bits = Some texto) ∧
    (∀ c f, frecuencias_ejemplo = [(c, f)] →
       generar_codigos (Some raiz) !! Some c = Some "0").
Proof.
  apply (huffman_libre_de_prefijos (M := monticulo_lista) frecuencias_ejemplo).
  - apply monticulo_lista_correcto.
  - discriminate.
  - apply (bool_decide_unpack _). vm_compute. exact I.
Defined.

Example huffman_codigos_ejemplo :
  generar_codigos <$> construir_arbol_huffman frecuencias_ejemplo
  = Ok {[ Some "A" := "0"; Some "B" := "11"; Some "C" := "100"; Some "D" := "101" ]}.
Proof. vm_compute. reflexivity. Qed.

Example huffman_un_simbolo_ejemplo :
  generar_codigos <$> construir_arbol_huffman [("A", 5)] = Ok {[ Some "A" := "0" ]}.
Proof. vm_compute. reflexivity. Qed.

(** *** C9 *)

Lemma suma_frecuencias_contar tabla c :
  suma_frecuencias (contar tabla c) = suma_frecuencias tabla + 1.
Proof.
  induction tabla as [| [k f] tabla IH]; simpl; [done |].
  destruct (decide (k = c)); simpl; [lia |]. unfold suma_frecuencias in *. simpl. lia.
Qed.

(** The frequencies of a text add up to its length. *)
Lemma calcular_frecuencias_suma texto :
  suma_frecuencias (calcular_frecuencias texto) = Z.of_nat (length texto).
Proof.
  unfold calcular_frecuencias.
  assert (H : ∀ tabla, suma_frecuencias (foldl contar tabla texto)
                       = suma_frecuencias tabla + Z.of_nat (length texto)).
  { induction texto as [| c texto IH]; intros tabla; simpl; [lia |].
    rewrite IH, suma_frecuencias_contar. lia. }
  rewrite H. done.
Qed.

(** With two symbols the tree is a root over the two leaves, in one order
    or the other. *)
Lemma construir_dos_simbolos `{M : Monticulo} a fa b fb :
  monticulo_correcto M →
  ∃ izq der,
    construir_arbol_huffman [(a, fa); (b, fb)]
    = Ok (Some (Nodo None (frecuencia izq + frecuencia der) (Some izq) (Some der))) ∧
    ((izq = Nodo (Some a) fa None None ∧ der = Nodo (Some b) fb None None) ∨
     (izq = Nodo (Some b) fb None None ∧ der = Nodo (Some a) fa None None)).
Proof.
  intros HM. unfold construir_arbol_huffman. simpl.
  set (A := Nodo (Some a) fa None None). set (B := Nodo (Some b) fb None None).
  destruct (heapify_h_spec M HM [A; B]) as [Hm HP].
  assert (Hlen : length (heapify_h [A; B]) = 2%nat) by (by rewrite HP).
  rewrite decide_True by lia.
  destruct (extraer_Ok HM (heapify_h [A; B]) Hm) as (izq & h1 & -> & Hm1 & HP1).
  { intros Heq. rewrite Heq in Hlen. done. }
  simpl.
  assert (Hlen1 : length h1 = 1%nat).
  { apply Permutation_length in HP1. simpl in HP1. lia. }
  destruct (extraer_Ok HM h1 Hm1) as (der & h2 & -> & Hm2 & HP2).
  { intros Heq. rewrite Heq in Hlen1. done. }
  simpl.
  assert (h2 = []) as ->.
  { apply Permutation_length in HP2. simpl in HP2. destruct h2; [done | simpl in *; lia]. }
  destruct (heappush_h_spec M HM []
              (Nodo None (frecuencia izq + frecuencia der) (Some izq) (Some der)) Hm2)
    as [_ HP3].
  apply Permutation_singleton_r in HP3. rewrite HP3. simpl.
  exists izq, der. split; [done |].
  assert (HP4 : [A; B] ≡ₚ [izq; der]).
  { rewrite <- HP, HP1. by rewrite HP2. }
  apply Permutation_length_2_inv in HP4 as [[= <- <-] | [= <- <-]]; auto.
Qed.

(** C9, amended: when the frequency table of a text has exactly two symbols,
    of equal frequency, then over any priority queue that meets the contract
    of heapq the statistic is defined and the compression ratio is 87.5
    percent: each symbol has a code of one bit against the eight bits of the
    baseline. *)
Theorem tasa_dos_simbolos `{M : Monticulo} (texto : list string) (a b : string) (f : Z) :
  monticulo_correcto M →
  calcular_frecuencias texto = [(a, f); (b, f)] →
  ∃ q, tasa_compresion texto = Ok q ∧ (q == 87.5)%Q.
Proof.
  intros HM Hfr.
  pose proof (calcular_frecuencias_suma texto) as Hsum.
  rewrite Hfr in Hsum. unfold suma_frecuencias in Hsum. simpl in Hsum.
  assert (Hf : 0 < f).
  { destruct texto as [| c texto]; [discriminate |]. simpl in Hsum. lia. }
  destruct (construir_dos_simbolos a f b f HM) as (izq & der & Hrun & Hcasos).
  unfold tasa_compresion. rewrite Hfr, Hrun. simpl.
  assert (Hcomp : bits_comprimido
            (generar_codigos (Some (Nodo None (frecuencia izq + frecuencia der)
                                         (Some izq) (Some der))))
            [(a, f); (b, f)] = Ok (2 * f)).
  { destruct Hcasos as [[-> ->] | [-> ->]]; simpl;
      destruct (decide (a = b)) as [-> | Hab];
      rewrite ?lookup_insert_eq; simpl;
      rewrite ?(lookup_insert_ne _ (Some b) (Some a)) by congruence;
      rewrite ?(lookup_insert_ne _ (Some a) (Some b)) by congruence;
      rewrite ?lookup_insert_eq; simpl; f_equal; lia. }
  simpl in Hcomp. rewrite Hcomp. simpl.
  unfold bits_original. rewrite <- Hsum.
  rewrite decide_False by lia.
  eexists. split; [done |].
  destruct f as [| p | p]; try lia.
  unfold Qeq, Qmult, Qminus, Qplus, Qopp, Qdiv, Qinv, inject_Z. simpl. lia.
Qed.

Lemma tasa_dos_simbolos_witness :
  ∃ q, tasa_compresion ["A"; "B"] = Ok q ∧ (q == 87.5)%Q.
Proof.
  apply (tasa_dos_simbolos (M := monticulo_lista) ["A"; "B"] "A" "B" 1).
  - apply monticulo_lista_correcto.
  - reflexivity.
Defined.

(** C9, as the specification states it, fails: the text "AB" has the
    frequency table {A: 1, B: 1}, two symbols of equal frequency, and its
    compression ratio is not zero. *)
Lemma tasa_dos_simbolos_no_es_cero :
  calcular_frecuencias ["A"; "B"] = [("A", 1); ("B", 1)] ∧
  ∃ q, tasa_compresion ["A"; "B"] = Ok q ∧ ¬ (q == 0)%Q.
Proof.
  split; [reflexivity |].
  eexists. split; [vm_compute; reflexivity |].
  intros Hq. unfold Qeq in Hq. simpl in Hq. discriminate.
Qed.

(** * Further properties of the code *)

(** ** Union-Find: ranks, errors, repeated searches *)

(** What a successful [unir] does to the ranks: the root of smaller rank is
    hung under the other one, and the rank of the new root grows by one
    exactly when the two ranks were equal. *)
Lemma unir_rangos fuel uf a b uf' :
  uf_inv uf → unir fuel uf a b = Ok (uf', true) →
  ∃ x y kx ky,
    padre uf !! x = Some x ∧ padre uf !! y = Some y ∧ x ≠ y ∧
    rango uf !! x = Some kx ∧ rango uf !! y = Some ky ∧
    (∀ n s, raiz_de (padre uf') n s ↔
            (raiz_de (padre uf) n s ∧ s ≠ x) ∨ (raiz_de (padre uf) n x ∧ s = y)) ∧
    (((kx < ky)%nat ∧ rango uf' = rango uf) ∨
     (kx = ky ∧ rango uf' = <[y := S ky]> (rango uf))).
Proof.
  intros Hinv H. unfold unir in H.
  inv_bind H. destruct a0 as [uf1 ra].
  inv_bind H. destruct a0 as [uf2 rb].
  destruct (encontrar_Ok _ _ _ _ _ Hinv Ha) as (Hra & Hrg1 & Hinv1 & Hraices1 & _ & _).
  destruct (encontrar_Ok _ _ _ _ _ Hinv1 Ha0) as (Hrb & Hrg2 & Hinv2 & Hraices2 & _ & _).
  assert (Hraices : ∀ n s, raiz_de (padre uf) n s ↔ raiz_de (padre uf2) n s).
  { intros n s. by rewrite Hraices1, Hraices2. }
  apply Hraices1 in Hrb.
  assert (HA : padre uf !! ra = Some ra) by eauto using raiz_de_es_raiz.
  assert (HB : padre uf !! rb = Some rb) by eauto using raiz_de_es_raiz.
  assert (HA2 : padre uf2 !! ra = Some ra).
  { by apply raiz_de_propia, Hraices, raiz_de_propia. }
  assert (HB2 : padre uf2 !! rb = Some rb).
  { by apply raiz_de_propia, Hraices, raiz_de_propia. }
  destruct (decide (ra = rb)) as [Heq | Hne]; [discriminate |].
  inv_bind H. rename a0 into k1. inv_bind H. rename a0 into k2.
  apply consultar_Ok in Ha1, Ha2. rewrite Hrg2, Hrg1 in Ha1, Ha2.
  assert (Hlink : ∀ x y, ((x = ra ∧ y = rb) ∨ (x = rb ∧ y = ra)) →
    ∀ n s, raiz_de (<[x := y]> (padre uf2)) n s ↔
           (raiz_de (padre uf) n s ∧ s ≠ x) ∨ (raiz_de (padre uf) n x ∧ s = y)).
  { intros x y Hxy n s. rewrite !Hraices.
    apply enlazar_raices; destruct Hxy as [[-> ->] | [-> ->]]; done. }
  destruct (k1 <? k2)%nat eqn:E12; [| destruct (k2 <? k1)%nat eqn:E21].
  - injection H as <-. apply Nat.ltb_lt in E12.
    exists ra, rb, k1, k2. repeat (split; [done |]). split.
    + apply (Hlink ra rb). by left.
    + left. split; [done |]. simpl. congruence.
  - injection H as <-. apply Nat.ltb_lt in E21.
    exists rb, ra, k2, k1. repeat (split; [done |]). split.
    + apply (Hlink rb ra). by right.
    + left. split; [done |]. simpl. congruence.
  - injection H as <-. apply Nat.ltb_ge in E12, E21.
    exists rb, ra, k2, k1. repeat (split; [done |]). split.
    + apply (Hlink rb ra). by right.
    + right. split; [lia |]. simpl. congruence.
Qed.

Lemma alcanzable_logaritmico uf : alcanzable uf → rango_logaritmico uf.
Proof.
  induction 1 as [nodos | uf fuel x uf' r Halc IH H | uf fuel x y uf' b Halc IH H].
  - intros r k Hr Hk. rewrite uf_init_padre in Hr. rewrite uf_init_rango in Hk.
    destruct (decide (r ∈ nodos)) as [Hin |]; [| done]. injection Hk as <-.
    exists {[r]}. rewrite size_singleton. split; [done |].
    intros n Hn. apply elem_of_singleton in Hn as ->.
    apply raiz_aqui. rewrite uf_init_padre. by rewrite decide_True.
  - destruct (alcanzable_inv uf Halc) as [Hinv _].
    destruct (encontrar_Ok _ _ _ _ _ Hinv H) as (_ & Hrg & _ & Hraices & _ & _).
    intros s k Hs Hk. rewrite Hrg in Hk.
    apply raiz_de_propia, Hraices, raiz_de_propia in Hs.
    destruct (IH s k Hs Hk) as (S & HS & HSr). exists S. split; [done |].
    intros n Hn. apply Hraices. auto.
  - destruct (alcanzable_inv uf Halc) as [Hinv _].
    destruct b.
    + destruct (unir_rangos _ _ _ _ _ Hinv H)
        as (rx & ry & kx & ky & Hrx & Hry & Hne & Hkx & Hky & Hraices & Hrangos).
      intros s k Hs Hk.
      assert (Hs0 : padre uf !! s = Some s ∧ s ≠ rx).
      { apply raiz_de_propia, Hraices in Hs as [[Hs Hsx] | [Hs ->]].
        - split; [by apply raiz_de_propia | done].
        - apply (raiz_de_raiz _ _ _ Hry) in Hs. congruence. }
      destruct Hs0 as [Hs0 Hsx].
      assert (Hsube : ∀ S : gset string,
        (∀ n, n ∈ S → raiz_de (padre uf) n s) → ∀ n, n ∈ S → raiz_de (padre uf') n s).
      { intros S HS n Hn. apply Hraices. left. auto. }
      destruct Hrangos as [[Hlt Hrg] | [-> Hrg]].
      * rewrite Hrg in Hk. destruct (IH s k Hs0 Hk) as (S & HS & HSr).
        exists S. split; [done | by apply Hsube].
      * rewrite Hrg in Hk. destruct (decide (s = ry)) as [-> | Hsy].
        -- rewrite lookup_insert_eq in Hk. injection Hk as <-.
           destruct (IH rx ky Hrx Hkx) as (Sx & HSx & HSxr).
           destruct (IH ry ky Hry Hky) as (Sy & HSy & HSyr).
           exists (Sx ∪ Sy). split.
           ++ rewrite size_union.
              ** simpl. lia.
              ** intros n Hnx Hny. apply Hne.
                 eapply raiz_de_unica; [apply HSxr | apply HSyr]; done.
           ++ intros n Hn. apply Hraices. apply elem_of_union in Hn as [Hn | Hn].
              ** right. auto.
              ** left. auto.
        -- rewrite lookup_insert_ne in Hk by done.
           destruct (IH s k Hs0 Hk) as (S & HS & HSr).
           exists S. split; [done | by apply Hsube].
    + destruct (unir_Ok _ _ _ _ _ _ Hinv H) as (ra & rb & Hra & Hrb & _ & Hsi & Hno & _).
      destruct (decide (ra = rb)) as [Heq | Hne]; [| by destruct (Hno Hne)].
      destruct (Hsi Heq) as (_ & Hrg & Hraices & _).
      intros s k Hs Hk. rewrite Hrg in Hk.
      apply raiz_de_propia, Hraices, raiz_de_propia in Hs.
      destruct (IH s k Hs Hk) as (S & HS & HSr). exists S. split; [done |].
      intros n Hn. apply Hraices. auto.
Qed.

(** The rank of every node is at most the logarithm of the number of
    registered nodes. *)
Lemma rango_acotado_log uf :
  alcanzable uf → rango_acotado uf (Nat.log2 (size (dom (padre uf)))).
Proof.
  intros Halc x k Hk.
  destruct (alcanzable_inv uf Halc) as [Hinv HB].
  assert (Hx : is_Some (padre uf !! x)) by (apply (inv_dom uf Hinv); eauto).
  destruct (registrado_tiene_raiz uf x Hinv HB Hx) as [r Hr].
  assert (Hrr : padre uf !! r = Some r) by eauto using raiz_de_es_raiz.
  assert (is_Some (rango uf !! r)) as [kr Hkr] by (apply (inv_dom uf Hinv); eauto).
  assert (Hle : (k ≤ kr)%nat).
  { destruct (decide (x = r)) as [-> | Hxr]; [simplify_eq; lia |].
    pose proof (rango_crece uf x r k kr Hinv Hr Hxr Hk Hkr). lia. }
  destruct (alcanzable_logaritmico uf Halc r kr Hrr Hkr) as (S & HS & HSr).
  assert (Hsub : S ⊆ dom (padre uf)).
  { intros n Hn. apply elem_of_dom. eapply raiz_de_registrado. eauto. }
  apply subseteq_size in Hsub.
  assert (Hpos : (0 < size (dom (padre uf)))%nat).
  { pose proof (Nat.pow_nonzero 2 kr). lia. }
  etrans; [exact Hle |]. apply Nat.log2_le_pow2; [done | lia].
Qed.

Lemma asignar_padre_id uf x r : padre uf !! x = Some r → asignar_padre uf x r = uf.
Proof.
  intros Hx. destruct uf as [p rg]. unfold asignar_padre. simpl in *.
  f_equal. by apply insert_id.
Qed.

Lemma encontrar_no_registrado fuel uf x :
  padre uf !! x = None → (0 < fuel)%nat → encontrar fuel uf x = KeyError.
Proof.
  intros Hx Hf. destruct fuel as [| fuel]; [lia |]. simpl.
  unfold consultar. by rewrite Hx.
Qed.

Lemma encontrar_log uf x fuel :
  alcanzable uf → is_Some (padre uf !! x) →
  (Nat.log2 (size (dom (padre uf))) < fuel)%nat →
  ∃ uf' r, encontrar fuel uf x = Ok (uf', r).
Proof.
  intros Halc Hx Hf.
  destruct (alcanzable_inv uf Halc) as [Hinv _].
  apply (inv_dom uf Hinv) in Hx as [k Hk].
  apply (encontrar_termina fuel uf x k (Nat.log2 (size (dom (padre uf)))));
    [done | by apply rango_acotado_log | done | lia].
Qed.

Lemma size_dom_igual (p p' : gmap string string) :
  (∀ n, is_Some (p' !! n) ↔ is_Some (p !! n)) → size (dom p') = size (dom p).
Proof.
  intros H. f_equal. apply set_eq. intros n. by rewrite !elem_of_dom.
Qed.

(** The class of a node of rank [k] has at least [2^k] nodes. *)
Lemma clase_de_rango uf n k :
  alcanzable uf → rango uf !! n = Some k →
  ∃ r (S : gset string),
    raiz_de (padre uf) n r ∧ (2 ^ k ≤ size S)%nat ∧
    ∀ m, m ∈ S → raiz_de (padre uf) m r.
Proof.
  intros Halc Hk.
  destruct (alcanzable_inv uf Halc) as [Hinv HB].
  assert (Hn : is_Some (padre uf !! n)) by (apply (inv_dom uf Hinv); eauto).
  destruct (registrado_tiene_raiz uf n Hinv HB Hn) as [r Hr].
  assert (Hrr : padre uf !! r = Some r) by eauto using raiz_de_es_raiz.
  assert (is_Some (rango uf !! r)) as [kr Hkr] by (apply (inv_dom uf Hinv); eauto).
  assert (Hle : (k ≤ kr)%nat).
  { destruct (decide (n = r)) as [-> | Hnr]; [simplify_eq; lia |].
    pose proof (rango_crece uf n r k kr Hinv Hr Hnr Hk Hkr). lia. }
  destruct (alcanzable_logaritmico uf Halc r kr Hrr Hkr) as (S & HS & HSr).
  exists r, S. split; [done |]. split; [| done].
  etrans; [| exact HS]. apply Nat.pow_le_mono_r; lia.
Qed.

(** X1: in every state of a Union-Find object, the class of a node of rank
    k, the nodes that have the same representative as it, holds at least
    2^k nodes; and a search from a registered node returns within a
    recursion depth of one more than the binary logarithm of the number of
    registered nodes. *)
Theorem encontrar_profundidad_logaritmica (uf : UnionFind) (x : string) (fuel : nat) :
  alcanzable uf → is_Some (padre uf !! x) →
  (Nat.log2 (size (dom (padre uf))) < fuel)%nat →
  (∀ n k, rango uf !! n = Some k →
     ∃ r (S : gset string),
       raiz_de (padre uf) n r ∧ (2 ^ k ≤ size S)%nat ∧
       (∀ m, m ∈ S → raiz_de (padre uf) m r) ∧
       (2 ^ k ≤ size (dom (padre uf)))%nat) ∧
  ∃ uf' r, encontrar fuel uf x = Ok (uf', r).
Proof.
  intros Halc Hx Hf. split; [| by apply encontrar_log].
  intros n k Hk.
  destruct (clase_de_rango uf n k Halc Hk) as (r & S & Hr & HS & HSr).
  exists r, S. repeat (split; [done |]).
  assert (Hsub : S ⊆ dom (padre uf)).
  { intros m Hm. apply elem_of_dom. eapply raiz_de_registrado. eauto. }
  apply subseteq_size in Hsub. lia.
Qed.

Lemma encontrar_profundidad_logaritmica_witness :
  (∀ n k, rango uf_ejemplo !! n = Some k →
     ∃ r (S : gset string),
       raiz_de (padre uf_ejemplo) n r ∧ (2 ^ k ≤ size S)%nat ∧
       (∀ m, m ∈ S → raiz_de (padre uf_ejemplo) m r) ∧
       (2 ^ k ≤ size (dom (padre uf_ejemplo)))%nat) ∧
  ∃ uf' r, encontrar 3 uf_ejemplo "d" = Ok (uf', r).
Proof.
  apply (encontrar_profundidad_logaritmica uf_ejemplo "d" 3).
  - apply uf_ejemplo_alcanzable.
  - by exists "c".
  - vm_compute. lia.
Defined.

(** X2: in every state of a Union-Find object, and with a recursion budget
    above the logarithmic bound, [encontrar] raises KeyError exactly on an
    unregistered node and [unir] exactly when one of its two nodes is
    unregistered; on registered nodes both return. *)
Theorem union_find_KeyError (uf : UnionFind) (fuel : nat) (a b : string) :
  alcanzable uf → (Nat.log2 (size (dom (padre uf))) < fuel)%nat →
  (encontrar fuel uf a = KeyError ↔ padre uf !! a = None) ∧
  (unir fuel uf a b = KeyError ↔ padre uf !! a = None ∨ padre uf !! b = None) ∧
  (is_Some (padre uf !! a) → is_Some (padre uf !! b) →
   ∃ uf' res, unir fuel uf a b = Ok (uf', res)).
Proof.
  intros Halc Hf.
  destruct (alcanzable_inv uf Halc) as [Hinv _].
  assert (Hunir : is_Some (padre uf !! a) → is_Some (padre uf !! b) →
                  ∃ uf' res, unir fuel uf a b = Ok (uf', res)).
  { intros Ha Hb.
    apply (unir_termina fuel uf a b (Nat.log2 (size (dom (padre uf)))));
      [done | by apply rango_acotado_log | done | done | lia]. }
  split; [| split; [| done]].
  - split.
    + intros H. destruct (padre uf !! a) as [y |] eqn:Ea; [| done].
      destruct (encontrar_log uf a fuel Halc) as (uf' & r & E); [eauto | done |].
      congruence.
    + intros H. apply encontrar_no_registrado; [done | lia].
  - split.
    + intros H. destruct (padre uf !! a) as [ya |] eqn:Ea; [| by left].
      destruct (padre uf !! b) as [yb |] eqn:Eb; [| by right].
      destruct Hunir as (uf' & res & E); [eauto.. |]. congruence.
    + intros [Ha | Hb].
      * unfold unir. rewrite encontrar_no_registrado; [done | done | lia].
      * destruct (padre uf !! a) as [ya |] eqn:Ea.
        -- destruct (encontrar_log uf a fuel Halc) as (uf1 & ra & E); [eauto | done |].
           unfold unir. rewrite E. simpl.
           rewrite encontrar_no_registrado; [done | | lia].
           pose proof (encontrar_dom _ _ _ _ _ E b) as Hd. rewrite Hb in Hd.
           destruct (padre uf1 !! b); [| done].
           exfalso. eapply is_Some_None. apply Hd. eauto.
        -- unfold unir. rewrite encontrar_no_registrado; [done | done | lia].
Qed.

Lemma union_find_KeyError_witness :
  (encontrar 3 uf_ejemplo "d" = KeyError ↔ padre uf_ejemplo !! "d" = None) ∧
  (unir 3 uf_ejemplo "d" "z" = KeyError ↔
     padre uf_ejemplo !! "d" = None ∨ padre uf_ejemplo !! "z" = None) ∧
  (is_Some (padre uf_ejemplo !! "d") → is_Some (padre uf_ejemplo !! "z") →
   ∃ uf' res, unir 3 uf_ejemplo "d" "z" = Ok (uf', res)).
Proof.
  apply (union_find_KeyError uf_ejemplo 3 "d" "z").
  - apply uf_ejemplo_alcanzable.
  - vm_compute. lia.
Defined.

Lemma encontrar_de_nuevo uf x fuel uf' r :
  uf_inv uf → encontrar fuel uf x = Ok (uf', r) →
  ∀ fuel', (2 ≤ fuel')%nat → encontrar fuel' uf' x = Ok (uf', r).
Proof.
  intros Hinv H fuel' Hf.
  destruct (encontrar_Ok _ _ _ _ _ Hinv H) as (Hr & _ & _ & Hraices & Hcam & Hno).
  assert (Hrr : padre uf' !! r = Some r).
  { apply raiz_de_propia, Hraices, raiz_de_propia. eauto using raiz_de_es_raiz. }
  destruct fuel' as [| [| f]]; [lia | lia |].
  destruct (decide (x = r)) as [-> | Hxr].
  - cbn [encontrar]. unfold consultar. rewrite Hrr. simpl.
    by rewrite decide_False by (intros Hc; by apply Hc).
  - assert (Hxx : padre uf' !! x = Some r).
    { apply Hcam. inversion Hr; subst; [done |]. by eapply camino_aqui. }
    cbn [encontrar]. unfold consultar. rewrite Hxx. simpl.
    rewrite decide_True by done. rewrite Hrr. simpl.
    rewrite decide_False by (intros Hc; by apply Hc). simpl.
    by rewrite asignar_padre_id.
Qed.

(** X3: a search changes neither the ranks nor the root of any node, and
    repeating it gives the same answer, changes nothing and needs at most
    one recursive call. *)
Theorem encontrar_repetido (uf : UnionFind) (x : string) (fuel : nat)
    (uf' : UnionFind) (r : string) :
  alcanzable uf → encontrar fuel uf x = Ok (uf', r) →
  rango uf' = rango uf ∧
  (∀ n s, raiz_de (padre uf') n s ↔ raiz_de (padre uf) n s) ∧
  ∀ fuel', (2 ≤ fuel')%nat → encontrar fuel' uf' x = Ok (uf', r).
Proof.
  intros Halc H. destruct (alcanzable_inv uf Halc) as [Hinv _].
  destruct (encontrar_Ok _ _ _ _ _ Hinv H) as (_ & Hrg & _ & Hraices & _ & _).
  split; [done |]. split; [intros n s; symmetry; apply Hraices |].
  by apply (encontrar_de_nuevo uf x fuel).
Qed.

Lemma encontrar_repetido_witness :
  rango {| padre := {[ "a" := "a"; "b" := "a"; "c" := "a"; "d" := "a" ]};
           rango := {[ "a" := 2%nat; "b" := 0%nat; "c" := 1%nat; "d" := 0%nat ]} |}
  = rango uf_ejemplo ∧
  (∀ n s, raiz_de {[ "a" := "a"; "b" := "a"; "c" := "a"; "d" := "a" ]} n s ↔
          raiz_de (padre uf_ejemplo) n s) ∧
  ∀ fuel', (2 ≤ fuel')%nat →
    encontrar fuel'
      {| padre := {[ "a" := "a"; "b" := "a"; "c" := "a"; "d" := "a" ]};
         rango := {[ "a" := 2%nat; "b" := 0%nat; "c" := 1%nat; "d" := 0%nat ]} |} "d"
    = Ok ({| padre := {[ "a" := "a"; "b" := "a"; "c" := "a"; "d" := "a" ]};
             rango := {[ "a" := 2%nat; "b" := 0%nat; "c" := 1%nat; "d" := 0%nat ]} |},
          "a").
Proof.
  apply (encontrar_repetido uf_ejemplo "d" 3).
  - apply uf_ejemplo_alcanzable.
  - vm_compute. reflexivity.
Defined.

(** X4: [unir] returns true exactly when its two nodes were in different
    classes; it then merges these two classes and no others, so that there
    is one representative less; in every case the registered nodes stay the
    same. *)
Theorem unir_une_dos_clases (uf : UnionFind) (a b : string) (fuel : nat)
    (uf' : UnionFind) (res : bool) :
  alcanzable uf → unir fuel uf a b = Ok (uf', res) →
  (res = true ↔ ¬ misma_clase uf a b) ∧
  (res = true →
     (∀ n m, misma_clase uf' n m ↔
             misma_clase uf n m ∨
             (misma_clase uf n a ∧ misma_clase uf b m) ∨
             (misma_clase uf n b ∧ misma_clase uf a m)) ∧
     (size (raices uf') + 1 = size (raices uf))%nat) ∧
  (∀ n, is_Some (padre uf' !! n) ↔ is_Some (padre uf !! n)).
Proof.
  intros Halc H. destruct (alcanzable_inv uf Halc) as [Hinv _].
  split; [| split].
  - destruct res.
    + split; [| done]. intros _.
      by destruct (unir_une_clases fuel uf uf' a b true Hinv H eq_refl).
    + split; [done |]. intros Hn. exfalso. apply Hn.
      by destruct (unir_no_une fuel uf uf' a b false Hinv H eq_refl).
  - intros ->.
    destruct (unir_une_clases fuel uf uf' a b true Hinv H eq_refl) as [_ Hcl].
    split; [done |].
    destruct (unir_une_raices fuel uf uf' a b true Hinv H eq_refl) as (x & Hx & ->).
    rewrite size_difference by (by apply singleton_subseteq_l).
    rewrite size_singleton.
    assert (size (raices uf) ≠ 0%nat); [| lia].
    intros H0. apply size_empty_inv in H0. by apply H0 in Hx.
  - by apply (unir_dom fuel uf a b uf' res).
Qed.

Lemma unir_une_dos_clases_witness :
  (true = true ↔ ¬ misma_clase (uf_init ["a"; "b"; "c"]) "a" "b") ∧
  (true = true →
     (∀ n m, misma_clase {| padre := {[ "a" := "a"; "b" := "a"; "c" := "c" ]};
                            rango := {[ "a" := 1%nat; "b" := 0%nat; "c" := 0%nat ]} |} n m ↔
             misma_clase (uf_init ["a"; "b"; "c"]) n m ∨
             (misma_clase (uf_init ["a"; "b"; "c"]) n "a" ∧
              misma_clase (uf_init ["a"; "b"; "c"]) "b" m) ∨
             (misma_clase (uf_init ["a"; "b"; "c"]) n "b" ∧
              misma_clase (uf_init ["a"; "b"; "c"]) "a" m)) ∧
     (size (raices {| padre := {[ "a" := "a"; "b" := "a"; "c" := "c" ]};
                      rango := {[ "a" := 1%nat; "b" := 0%nat; "c" := 0%nat ]} |}) + 1
      = size (raices (uf_init ["a"; "b"; "c"])))%nat) ∧
  (∀ n, is_Some (padre {| padre := {[ "a" := "a"; "b" := "a"; "c" := "c" ]};
                            rango := {[ "a" := 1%nat; "b" := 0%nat; "c" := 0%nat ]} |} !! n) ↔
        is_Some (padre (uf_init ["a"; "b"; "c"]) !! n)).
Proof.
  apply (unir_une_dos_clases (uf_init ["a"; "b"; "c"]) "a" "b" 2).
  - apply alc_init.
  - vm_compute. reflexivity.
Defined.

(** ** Kruskal and Prim: results on every graph *)

Lemma subgrafo_trans T E E' : subgrafo T E → subgrafo E E' → subgrafo T E'.
Proof.
  intros H1 H2 e He. destruct (H1 e He) as (e1 & He1 & Hp1 & Hu1).
  destruct (H2 e1 He1) as (e2 & He2 & Hp2 & Hu2).
  exists e2. split; [done |]. split; [congruence |].
  destruct Hu1 as [[<- <-] | [<- <-]]; [done | by apply une_sym].
Qed.

Lemma mismo_grafo_conectados E E' a b :
  mismo_grafo E E' → conectados E a b ↔ conectados E' a b.
Proof.
  intros [H1 H2]. split; apply con_incl; intros e He;
    eapply subgrafo_conecta; eauto.
Qed.

Lemma mismo_grafo_expansion T E E' :
  mismo_grafo E E' → arbol_de_expansion T E → arbol_de_expansion T E'.
Proof.
  intros HG (Hsub & Hac & Hab). destruct HG as [H1 H2].
  split; [by eapply subgrafo_trans |]. split; [done |].
  intros a b Hc. apply Hab. by apply (mismo_grafo_conectados E E').
Qed.

Lemma mismo_grafo_sym E E' : mismo_grafo E E' → mismo_grafo E' E.
Proof. intros [H1 H2]. by split. Qed.

Lemma arbol_minimo_peso T T' E E' :
  mismo_grafo E E' → arbol_minimo T E → arbol_minimo T' E' →
  suma_pesos T = suma_pesos T'.
Proof.
  intros HG [HT HTmin] [HT' HTmin'].
  pose proof (HTmin T' (mismo_grafo_expansion T' E' E (mismo_grafo_sym _ _ HG) HT')).
  pose proof (HTmin' T (mismo_grafo_expansion T E E' HG HT)).
  lia.
Qed.

(** X5: on every edge list, connected or not, Kruskal returns a spanning
    forest of least total weight: its edges are edges of the input, taken
    as they are and none twice, they close no cycle, they connect whatever
    the input connects, no set of edges with these properties weighs less,
    and the total returned is the sum of their weights. *)
Theorem kruskal_bosque_minimo (aristas : list arista) :
  ∃ mst w,
    kruskal aristas = Ok (mst, w) ∧
    (∀ x, x ∈ mst → x ∈ aristas) ∧ NoDup mst ∧
    aciclico mst ∧
    (∀ a b, conectados mst a b ↔ conectados aristas a b) ∧
    (∀ T, arbol_de_expansion T aristas → suma_pesos mst <= suma_pesos T) ∧
    w = suma_pesos mst.
Proof.
  destruct (kruskal_total aristas) as (mst & w & Hrun & [(Hsub & Hac & Hab) Hmin] & Hw).
  exists mst, w. split; [done |].
  assert (Hin : ∀ x, x ∈ mst → x ∈ aristas).
  { unfold kruskal, kruskal_con in Hrun. destruct aristas as [| e0 rest].
    - injection Hrun as <- _. intros x Hx. by apply elem_of_nil in Hx.
    - apply kruskal_bucle_forma in Hrun as (acc & -> & Hsl & _). simpl.
      intros x Hx. rewrite <- (sorted_por_peso_perm (e0 :: rest)).
      eapply elem_of_sublist; eauto. }
  split; [done |]. split; [by apply aciclico_NoDup |]. split; [done |].
  split; [| done].
  intros a b. split; [| apply Hab]. apply con_mono. done.
Qed.

(** X6: the total weight that Kruskal returns depends only on the
    undirected weighted graph, not on the order in which the edges are
    listed, on the order of the two nodes of an edge, or on repetitions. *)
Theorem kruskal_peso_del_grafo (aristas aristas' : list arista) :
  mismo_grafo aristas aristas' →
  ∃ mst mst' w,
    kruskal aristas = Ok (mst, w) ∧ kruskal aristas' = Ok (mst', w).
Proof.
  intros HG.
  destruct (kruskal_total aristas) as (mst & w & Hrun & Hmin & Hw).
  destruct (kruskal_total aristas') as (mst' & w' & Hrun' & Hmin' & Hw').
  exists mst, mst', w. split; [done |].
  rewrite Hrun'. do 2 f_equal. subst.
  symmetry. by apply (arbol_minimo_peso mst mst' aristas aristas').
Qed.

Lemma triangulo_reordenado : mismo_grafo triangulo grafo_ejemplo_reordenado.
Proof.
  split; intros e He; unfold triangulo, grafo_ejemplo_reordenado in *;
    repeat (apply elem_of_cons in He as [-> | He]);
    try (by apply elem_of_nil in He).
  - exists ("A", "B", 1). split; [set_solver |]. split; [done | by left].
  - exists ("C", "B", 2). split; [set_solver |]. split; [done | by right].
  - exists ("C", "A", 4). split; [set_solver |]. split; [done | by right].
  - exists ("A", "C", 4). split; [set_solver |]. split; [done | by right].
  - exists ("A", "B", 1). split; [set_solver |]. split; [done | by right].
  - exists ("B", "C", 2). split; [set_solver |]. split; [done | by right].
  - exists ("A", "B", 1). split; [set_solver |]. split; [done | by left].
Qed.

Lemma kruskal_peso_del_grafo_witness :
  ∃ mst mst' w,
    kruskal triangulo = Ok (mst, w) ∧ kruskal grafo_ejemplo_reordenado = Ok (mst', w).
Proof.
  apply (kruskal_peso_del_grafo triangulo grafo_ejemplo_reordenado).
  apply triangulo_reordenado.
Defined.

(** *** Prim: the start node *)

Lemma prim_vacio inicio : prim [] inicio = Ok ([], 0).
Proof. reflexivity. Qed.

(** X7: with a start node supplied, Prim raises KeyError exactly when the
    edge list is not empty and the node is not an endpoint of any edge; in
    every other case it returns. *)
Theorem prim_inicio_explicito (aristas : list arista) (s : string) :
  (prim aristas (Some s) = KeyError ↔ aristas ≠ [] ∧ s ∉ nodos_de aristas) ∧
  ((∃ mst w, prim aristas (Some s) = Ok (mst, w)) ↔
   aristas = [] ∨ s ∈ nodos_de aristas).
Proof.
  destruct (decide (aristas = [])) as [-> | Hne].
  { rewrite prim_vacio. split; [split; [done | by intros [? _]] |].
    split; [by left | eauto]. }
  destruct (decide (s ∈ nodos_de aristas)) as [Hs | Hs].
  - destruct (prim_correcto aristas (Some s) s eq_refl Hs) as (mst & w & Hrun & _).
    rewrite Hrun. split; [split; [done | by intros [_ ?]] |].
    split; [by right | eauto].
  - rewrite (prim_nodo_ausente aristas s Hne Hs).
    split; [done |]. split; [by intros (? & ? & ?) | by intros [? | ?]].
Qed.

(** X8: without a start node, Prim starts from the first node of the first
    edge. *)
Theorem prim_inicio_por_defecto (e0 : arista) (resto : list arista) :
  prim (e0 :: resto) None = prim (e0 :: resto) (Some (nodo1 e0)).
Proof.
  unfold prim, prim_con.
  destruct (construir_grafo_primera_clave e0 resto) as (a & g & ->). done.
Qed.

(** *** Prim: the order of growth *)

Lemma prim_bucle_voraz E ini fuel :
  ∀ V mst w heap mst' w',
  prim_inv E ini V mst heap →
  prim_bucle fuel (construir_grafo E) V mst w heap = Ok (mst', w') →
  ∃ acc V' heap', mst' = mst ++ acc ∧ crecimiento_voraz E V acc ∧
                  prim_inv E ini V' mst' heap' ∧
                  (heap' = [] ∨ ¬ (size V' < length (construir_grafo E))%nat).
Proof.
  induction fuel as [| fuel IH]; intros V mst w heap mst' w' HP Hrun; [done |].
  simpl in Hrun. destruct heap as [| [[p n1] n2] heap].
  { rewrite bool_decide_eq_false_2 in Hrun by (intros H; by apply H). simpl in Hrun.
    injection Hrun as <- <-. exists [], V, []. rewrite app_nil_r. simpl. auto. }
  rewrite bool_decide_eq_true_2 in Hrun by done. simpl in Hrun.
  destruct (decide (size V < length (construir_grafo E))%nat) as [Hsz | Hsz].
  2: { rewrite bool_decide_eq_false_2 in Hrun by done. injection Hrun as <- <-.
       exists [], V, ((p, n1, n2) :: heap). rewrite app_nil_r. simpl. auto. }
  rewrite bool_decide_eq_true_2 in Hrun by done.
  destruct (decide (n2 ∈ V)) as [Hn2 | Hn2].
  - eapply IH; [| exact Hrun]. by eapply prim_paso_descarta.
  - destruct (pi_heap _ _ _ _ _ HP p n1 n2) as (Hn1 & e0 & He0 & Hp0 & Hu0); [by left |].
    assert (is_Some (grafo_buscar (construir_grafo E) n2)) as [ady Hady].
    { apply construir_grafo_claves. by destruct (une_nodos E e0 n1 n2). }
    unfold grafo_consultar in Hrun. rewrite Hady in Hrun. simpl in Hrun.
    pose proof (prim_paso_acepta E ini V mst heap p n1 n2 HP Hn2) as HP'.
    unfold ady_de in HP'. rewrite Hady in HP'. simpl in HP'.
    destruct (IH _ _ _ _ _ _ HP' Hrun) as (acc & V' & heap' & -> & Hacc & HPf & Hfin).
    exists ((n1, n2, p) :: acc), V', heap'.
    split; [by rewrite <- app_assoc |]. split; [| done].
    simpl. split; [done |]. split; [done |]. split; [by exists e0 |]. split; [| done].
    intros e' a b He' Hab Ha Hb.
    pose proof (pi_completo _ _ _ _ _ HP e' a b He' Hab Ha Hb) as Hin.
    pose proof (pi_orden _ _ _ _ _ HP) as Hord.
    apply StronglySorted_inv in Hord as [_ Hall].
    apply elem_of_cons in Hin as [Heq | Hin].
    + injection Heq as Hp _ _. change (p <= peso e'). lia.
    + rewrite Forall_forall in Hall. specialize (Hall _ Hin).
      unfold por_clave, peso3 in Hall. simpl in Hall. exact Hall.
Qed.

Lemma prim_estado_final E inicio ini mst w :
  nodo_inicial_de E inicio = Some ini → ini ∈ nodos_de E →
  prim E inicio = Ok (mst, w) →
  crecimiento_voraz E {[ini]} mst ∧
  ∃ V heap, prim_inv E ini V mst heap ∧
            (heap = [] ∨ ¬ (size V < length (construir_grafo E))%nat).
Proof.
  intros Hini Hnodo Hrun.
  assert (is_Some (grafo_buscar (construir_grafo E) ini)) as [ady Hady]
    by (by apply construir_grafo_claves).
  pose proof (prim_inv_inicial E ini Hnodo) as HP0.
  unfold ady_de in HP0. rewrite Hady in HP0. simpl in HP0.
  unfold prim, prim_con in Hrun. destruct E as [| e0 E'].
  { by apply elem_of_empty in Hnodo. }
  assert (Hin : (match inicio with
                 | Some n => Ok n
                 | None => match construir_grafo (e0 :: E') with
                           | (k, _) :: _ => Ok k
                           | [] => IndexError
                           end
                 end) = Ok ini).
  { destruct inicio as [s |]; simpl in Hini; [by injection Hini as -> |].
    destruct (construir_grafo_primera_clave e0 E') as (a & g & ->). congruence. }
  rewrite Hin in Hrun.
  change ((ady0 ← grafo_consultar (construir_grafo (e0 :: E')) ini;
           prim_bucle (S (2 * length (e0 :: E'))) (construir_grafo (e0 :: E'))
                      {[ini]} [] 0 (heap_inicial ini ady0)) = Ok (mst, w)) in Hrun.
  unfold grafo_consultar in Hrun. rewrite Hady in Hrun.
  change (prim_bucle (S (2 * length (e0 :: E'))) (construir_grafo (e0 :: E'))
                     {[ini]} [] 0 (heap_inicial ini ady) = Ok (mst, w)) in Hrun.
  destruct (prim_bucle_voraz _ ini _ _ _ _ _ _ _ HP0 Hrun)
    as (acc & V & heap & -> & Hacc & HP & Hfin).
  simpl. split; [done |]. exists V, heap. done.
Qed.

(** X9: the edges that Prim returns are listed in the order in which the
    tree grew from the start node: each one goes from a node already
    reached to a node not yet reached, it is an edge of the graph with its
    weight, and no edge of the graph that leaves the nodes reached so far
    is lighter. *)
Theorem prim_crecimiento_voraz (aristas : list arista) (inicio : option string)
    (ini : string) (mst : list arista) (w : Z) :
  nodo_inicial_de aristas inicio = Some ini →
  prim aristas inicio = Ok (mst, w) →
  crecimiento_voraz aristas {[ini]} mst.
Proof.
  intros Hini Hrun.
  destruct (decide (ini ∈ nodos_de aristas)) as [Hnodo | Hnodo].
  - by destruct (prim_estado_final aristas inicio ini mst w Hini Hnodo Hrun).
  - destruct aristas as [| e0 rest].
    + rewrite prim_vacio in Hrun. by injection Hrun as <- _.
    + destruct inicio as [s |]; simpl in Hini; injection Hini as <-.
      * rewrite prim_nodo_ausente in Hrun; done.
      * exfalso. apply Hnodo. apply elem_of_nodos_de. exists e0.
        split; [by left | by left].
Qed.

Lemma prim_crecimiento_voraz_witness :
  crecimiento_voraz triangulo {["C"]} [("C", "B", 2); ("B", "A", 1)].
Proof.
  apply (prim_crecimiento_voraz triangulo (Some "C") "C" _ 3).
  - reflexivity.
  - vm_compute. reflexivity.
Defined.

(** X10: on every graph, connected or not, the edges that Prim returns are
    part of a spanning forest of least total weight of the whole graph. *)
Theorem prim_parte_de_un_minimo (aristas : list arista) (inicio : option string)
    (mst : list arista) (w : Z) :
  prim aristas inicio = Ok (mst, w) →
  ∃ T, arbol_minimo T aristas ∧ ∀ x, x ∈ mst → x ∈ T.
Proof.
  intros Hrun.
  destruct (kruskal_total aristas) as (mk & wk & _ & Hmin & _).
  assert (Hprom : prometedor aristas mst).
  { destruct aristas as [| e0 rest].
    { rewrite prim_vacio in Hrun. injection Hrun as <- _. apply prometedor_nil. }
    assert (Hval : inicio_valido (e0 :: rest) inicio).
    { destruct inicio as [s |]; [| done]. simpl.
      destruct (decide (s ∈ nodos_de (e0 :: rest))) as [| Hs]; [done |].
      rewrite prim_nodo_ausente in Hrun; done. }
    destruct (nodo_inicial_de_valido (e0 :: rest) inicio) as (ini & Hini & Hnodo);
      [done | done |].
    destruct (prim_estado_final _ inicio ini mst w Hini Hnodo Hrun)
      as (_ & V & heap & HP & _).
    apply (pi_prom _ _ _ _ _ HP). }
  destruct Hmin as [Hk Hkmin].
  destruct (Hprom mk Hk) as (T & HT & Hsub & Hle).
  exists T. split; [| done]. split; [done |].
  intros T0 HT0. specialize (Hkmin T0 HT0). lia.
Qed.

Lemma prim_parte_de_un_minimo_witness :
  ∃ T, arbol_minimo T dos_islas ∧ ∀ x, x ∈ [("A", "B", 1)] → x ∈ T.
Proof.
  apply (prim_parte_de_un_minimo dos_islas None _ 1).
  vm_compute. reflexivity.
Defined.

(** ** Dijkstra: the recorded distances are the shortest ones *)

Lemma camino_snoc E a b c e w :
  camino_de_peso E a b w → e ∈ E → une e b c → camino_de_peso E a c (w + peso e).
Proof.
  induction 1 as [a | a b' c' e' w' He' Hu' _ IH]; intros He Hu.
  - replace (0 + peso e) with (peso e + 0) by lia.
    eapply cp_paso; [done | done | constructor].
  - replace (peso e' + w' + peso e) with (peso e' + (w' + peso e)) by lia.
    eapply cp_paso; [done | done | by apply IH].
Qed.

Lemma camino_sym E a b w : camino_de_peso E a b w → camino_de_peso E b a w.
Proof.
  induction 1 as [a | a b c e w He Hu _ IH]; [constructor |].
  replace (peso e + w) with (w + peso e) by lia.
  eapply camino_snoc; [done | done | by apply une_sym].
Qed.

Lemma camino_no_negativo E a b w :
  (∀ e, e ∈ E → 0 <= peso e) → camino_de_peso E a b w → 0 <= w.
Proof.
  intros Hp. induction 1 as [a | a b c e w He Hu _ IH]; [lia |].
  specialize (Hp e He). lia.
Qed.

Lemma camino_conectados E a b : conectados E a b ↔ ∃ w, camino_de_peso E a b w.
Proof.
  split.
  - induction 1 as [a | a b c e He Hu _ [w IH]].
    + exists 0. constructor.
    + exists (peso e + w). by eapply cp_paso.
  - intros [w H]. induction H as [a | a b c e w He Hu _ IH]; [constructor |].
    by eapply con_paso.
Qed.

Lemma camino_por_de_peso E l es a b :
  camino_por E l es → head l = Some a → last l = Some b →
  camino_de_peso E a b (suma_pesos es).
Proof.
  revert es a. induction l as [| x l IH]; intros es a Hc Hh Hl; [done |].
  injection Hh as ->. destruct l as [| y l].
  - destruct es; [| done]. injection Hl as ->. constructor.
  - destruct es as [| e es]; [done |]. destruct Hc as (He & Hu & Hc).
    rewrite suma_pesos_cons. eapply cp_paso; [done | done |].
    apply IH; done.
Qed.

Section dijkstra_minimo.
Context (E : list arista) (origen : string).
Hypothesis Hpesos : ∀ e, e ∈ E → 0 <= peso e.
Implicit Types (r : gmap string nat) (V C : gset string) (st : estado_dijkstra).

(** A walk that starts at a finalised node either stays among the finalised
    nodes or passes through a node that is not finalised and whose recorded
    distance is at most the length of the walk. *)
Lemma opt_frontera V st a n da w :
  dijkstra_opt E origen V V st → a ∈ V →
  distancias st !! a = Some (Finita da) →
  camino_de_peso E a n w →
  n ∈ V ∨ ∃ y dy, y ∉ V ∧ distancias st !! y = Some (Finita dy) ∧ dy <= da + w.
Proof.
  intros Hopt Ha HDa Hc. revert da Ha HDa.
  induction Hc as [a | a b c e w He Hu Hc IH]; intros da Ha HDa; [by left |].
  destruct (do_relajado _ _ _ _ _ Hopt a b e da Ha He Hu HDa) as (db & HDb & Hle).
  pose proof (camino_no_negativo E b c w Hpesos Hc) as Hw.
  destruct (decide (b ∈ V)) as [Hb | Hb].
  - destruct (IH db Hb HDb) as [? | (y & dy & Hy & HDy & Hdy)]; [by left |].
    right. exists y, dy. split; [done |]. split; [done | lia].
  - right. exists b, db. split; [done |]. split; [done | lia].
Qed.

Lemma opt_paso_descarta V st d u heap :
  dijkstra_opt E origen V V st → heap_d st = (d, u) :: heap → u ∈ V →
  dijkstra_opt E origen V V (con_heap st heap).
Proof.
  intros [Hcl Hreal Hmin Hrel Hord Hpen Hpred] Hheap Hu.
  constructor; simpl; try done.
  - intros n dn x m Hn HDn Hx. apply (Hord n dn x m Hn HDn). rewrite Hheap. by right.
  - intros n dn Hn HDn. specialize (Hpen n dn Hn HDn). rewrite Hheap in Hpen.
    apply elem_of_cons in Hpen as [[= -> ->] | Hpen]; done.
Qed.

Lemma opt_paso_visita r V st d u heap :
  dijkstra_inv E origen r V st → dijkstra_opt E origen V V st →
  heap_d st = (d, u) :: heap → u ∉ V →
  distancias st !! u = Some (Finita d) →
  dijkstra_opt E origen (V ∪ {[u]}) V (con_heap st heap) ∧
  (∀ n dn, n ∈ V ∪ {[u]} → distancias st !! n = Some (Finita dn) → dn <= d).
Proof.
  intros Hinv Hopt Hheap Hu HDu.
  pose proof (di_orden _ _ _ _ _ Hinv) as Hsorted. rewrite Hheap in Hsorted.
  apply StronglySorted_inv in Hsorted as [_ Hall]. rewrite Forall_forall in Hall.
  assert (Hcabeza : ∀ x m, (x, m) ∈ (d, u) :: heap → d <= x).
  { intros x m Hx. apply elem_of_cons in Hx as [[= -> ->] | Hx]; [lia |].
    apply (Hall _ Hx). }
  assert (Hmax : ∀ n dn, n ∈ V ∪ {[u]} →
                 distancias st !! n = Some (Finita dn) → dn <= d).
  { intros n dn Hn HDn. apply elem_of_union in Hn as [Hn | Hn].
    - apply (do_orden _ _ _ _ _ Hopt n dn d u Hn HDn). rewrite Hheap. by left.
    - apply elem_of_singleton in Hn as ->. rewrite HDu in HDn. injection HDn as <-. lia. }
  split; [| done].
  assert (Hu_min : ∀ w, camino_de_peso E origen u w → d <= w).
  { intros w Hw.
    destruct (di_V_origen _ _ _ _ _ Hinv) as [Hor | (_ & _ & Hh)].
    - pose proof (di_D_origen _ _ _ _ _ Hinv) as HDo.
      destruct (opt_frontera V st origen u 0 w Hopt Hor HDo Hw)
        as [? | (y & dy & Hy & HDy & Hdy)]; [done |].
      pose proof (do_pendiente _ _ _ _ _ Hopt y dy Hy HDy) as Hin.
      rewrite Hheap in Hin. specialize (Hcabeza dy y Hin). lia.
    - rewrite Hheap in Hh. injection Hh as -> -> _.
      by apply (camino_no_negativo E origen origen). }
  destruct Hopt as [Hcl Hreal Hmin Hrel Hord Hpen Hpred].
  constructor; simpl; try done.
  - intros n Hn. apply elem_of_union in Hn as [Hn | Hn]; [auto |].
    apply elem_of_singleton in Hn as ->. eauto.
  - intros n dn x m Hn HDn Hx.
    assert (Hx' : (x, m) ∈ (d, u) :: heap) by (by right).
    specialize (Hmax n dn Hn HDn). specialize (Hcabeza x m Hx'). lia.
  - intros n dn Hn HDn.
    assert (Hn' : n ∉ V) by (intros ?; apply Hn, elem_of_union; by left).
    specialize (Hpen n dn Hn' HDn). rewrite Hheap in Hpen.
    apply elem_of_cons in Hpen as [[= -> ->] | Hpen]; [| done].
    exfalso. apply Hn, elem_of_union. right. by apply elem_of_singleton.
Qed.

(** Relaxing one neighbour. *)
Lemma opt_relajar_paso V C st d u v e :
  dijkstra_opt E origen V C st → C ⊆ V → u ∈ V → v ∉ V →
  (∀ n dn, n ∈ V → distancias st !! n = Some (Finita dn) → dn <= d) →
  distancias st !! u = Some (Finita d) →
  e ∈ E → une e u v →
  (∀ d', distancias st !! v = Some (Finita d') → d + peso e < d') →
  dijkstra_opt E origen V C
    {| distancias := <[v := Finita (d + peso e)]> (distancias st);
       predecesores := <[v := u]> (predecesores st);
       heap_d := heappush tupla2_ltb (heap_d st) (d + peso e, v) |}.
Proof.
  intros [Hcl Hreal Hmin Hrel Hord Hpen Hpred] HC Hu Hv Hmax HDu He Hue Hmenor.
  pose proof (Hpesos e He) as Hpe.
  constructor; simpl.
  - intros n Hn. destruct (decide (v = n)) as [<- | Hne].
    + by destruct (une_nodos E e u v).
    + rewrite lookup_insert_ne in Hn by done. auto.
  - intros n dn HDn. destruct (decide (v = n)) as [<- | Hne].
    + rewrite lookup_insert_eq in HDn. injection HDn as <-.
      eapply camino_snoc; eauto.
    + rewrite lookup_insert_ne in HDn by done. auto.
  - intros n Hn. rewrite lookup_insert_ne by (intros ->; done). auto.
  - intros u' v' e' du' Hu' He' Hue' HDu'.
    assert (Hu'V : u' ∈ V) by auto.
    rewrite lookup_insert_ne in HDu' by (intros ->; done).
    destruct (Hrel u' v' e' du' Hu' He' Hue' HDu') as (dv' & HDv' & Hle).
    destruct (decide (v = v')) as [<- | Hne].
    + rewrite lookup_insert_eq. exists (d + peso e). split; [done |].
      specialize (Hmenor dv' HDv'). lia.
    + rewrite lookup_insert_ne by done. eauto.
  - intros n dn x m Hn HDn Hx.
    rewrite lookup_insert_ne in HDn by (intros ->; done).
    apply elem_of_heappush in Hx as [[= -> ->] | Hx]; [| eauto].
    specialize (Hmax n dn Hn HDn). lia.
  - intros n dn Hn HDn. apply elem_of_heappush.
    destruct (decide (v = n)) as [<- | Hne].
    + rewrite lookup_insert_eq in HDn. injection HDn as <-. by left.
    + rewrite lookup_insert_ne in HDn by done. right. auto.
  - intros n dn Hno HDn. destruct (decide (v = n)) as [<- | Hne].
    + rewrite lookup_insert_eq. eauto.
    + rewrite lookup_insert_ne in HDn by done. rewrite lookup_insert_ne by done. eauto.
Qed.

(** The loop over the neighbours of the node just finalised. *)
Lemma opt_relajar V C d u ady :
  ∀ st st',
  C ⊆ V → u ∈ V →
  (∀ n dn, n ∈ V → distancias st !! n = Some (Finita dn) → dn <= d) →
  distancias st !! u = Some (Finita d) →
  (∀ v w, (v, w) ∈ ady → ∃ e, e ∈ E ∧ peso e = w ∧ une e u v) →
  dijkstra_opt E origen V C st →
  dijkstra_relajar V d u ady st = Ok st' →
  dijkstra_opt E origen V C st' ∧
  (∀ n, n ∈ V → distancias st' !! n = distancias st !! n) ∧
  (∀ n dn, distancias st !! n = Some (Finita dn) →
           ∃ dn', distancias st' !! n = Some (Finita dn') ∧ dn' <= dn) ∧
  (∀ v w, (v, w) ∈ ady → v ∉ V →
          ∃ dv, distancias st' !! v = Some (Finita dv) ∧ dv <= d + w).
Proof.
  induction ady as [| [v w] ady IH]; intros st st' HC Hu Hmax HDu Hady Hopt Hrun;
    simpl in Hrun.
  { injection Hrun as <-. split; [done |]. split; [done |]. split.
    - intros n dn HDn. exists dn. split; [done | lia].
    - intros v w Hvw. by apply elem_of_nil in Hvw. }
  assert (Hady' : ∀ v w, (v, w) ∈ ady → ∃ e, e ∈ E ∧ peso e = w ∧ une e u v).
  { intros v' w' H'. apply Hady. by right. }
  destruct (decide (v ∈ V)) as [Hv | Hv].
  { destruct (IH st st' HC Hu Hmax HDu Hady' Hopt Hrun) as (H1 & H2 & H3 & H4).
    split; [done |]. split; [done |]. split; [done |].
    intros v' w' Hvw Hv'. apply elem_of_cons in Hvw as [[= -> ->] | Hvw]; [done | auto]. }
  destruct (Hady v w) as (e & He & Hw & Hue); [by left |].
  unfold consultar in Hrun.
  destruct (distancias st !! v) as [dv |] eqn:Hdv; [| discriminate]. simpl in Hrun.
  destruct (menor_que (d + w) dv) eqn:Emenor.
  - subst w.
    assert (Hmenor : ∀ d', distancias st !! v = Some (Finita d') → d + peso e < d').
    { intros d' Hd'. rewrite Hdv in Hd'. injection Hd' as ->. simpl in Emenor. lia. }
    pose proof (opt_relajar_paso V C st d u v e Hopt HC Hu Hv Hmax HDu He Hue Hmenor)
      as Hopt1.
    assert (Huv : v ≠ u) by (intros ->; done).
    destruct (IH {| distancias := <[v := Finita (d + peso e)]> (distancias st);
                    predecesores := <[v := u]> (predecesores st);
                    heap_d := heappush tupla2_ltb (heap_d st) (d + peso e, v) |}
                 st' HC Hu) as (H1 & H2 & H3 & H4).
    + simpl. intros n dn Hn HDn. rewrite lookup_insert_ne in HDn by (intros ->; done).
      eauto.
    + simpl. by rewrite lookup_insert_ne.
    + done.
    + done.
    + exact Hrun.
    + split; [done |]. split; [| split].
      * intros n Hn. rewrite (H2 n Hn). simpl.
        by rewrite lookup_insert_ne by (intros ->; done).
      * intros n dn HDn. destruct (decide (v = n)) as [<- | Hne].
        -- destruct (H3 v (d + peso e)) as (dn' & Hdn' & Hle).
           { simpl. by rewrite lookup_insert_eq. }
           exists dn'. split; [done |]. specialize (Hmenor dn HDn). lia.
        -- apply H3. simpl. by rewrite lookup_insert_ne.
      * intros v' w' Hvw Hv'. apply elem_of_cons in Hvw as [[= -> ->] | Hvw]; [| auto].
        apply H3. simpl. by rewrite lookup_insert_eq.
  - destruct (IH st st' HC Hu Hmax HDu Hady' Hopt Hrun) as (H1 & H2 & H3 & H4).
    split; [done |]. split; [done |]. split; [done |].
    intros v' w' Hvw Hv'. apply elem_of_cons in Hvw as [[= -> ->] | Hvw]; [| auto].
    destruct dv as [x |]; [| done]. simpl in Emenor. apply Z.ltb_ge in Emenor.
    destruct (H3 v x Hdv) as (dn' & Hdn' & Hle).
    exists dn'. split; [done | lia].
Qed.

(** Once the neighbours of the node just finalised are relaxed, the node is
    complete. *)
Lemma opt_completar V st st1 d u (ady : list (string * Z)) :
  u ∉ V →
  dijkstra_opt E origen (V ∪ {[u]}) V st1 →
  (∀ n dn, n ∈ V ∪ {[u]} → distancias st !! n = Some (Finita dn) → dn <= d) →
  distancias st !! u = Some (Finita d) →
  (∀ n, n ∈ V ∪ {[u]} → distancias st1 !! n = distancias st !! n) →
  (∀ v w, (v, w) ∈ ady → v ∉ V ∪ {[u]} →
          ∃ dv, distancias st1 !! v = Some (Finita dv) ∧ dv <= d + w) →
  (∀ v e, e ∈ E → une e u v → (v, peso e) ∈ ady) →
  dijkstra_opt E origen (V ∪ {[u]}) (V ∪ {[u]}) st1.
Proof.
  intros Hu [Hcl Hreal Hmin Hrel Hord Hpen Hpred] Hmax HDu Hsame Hady Hgrafo.
  constructor; try done.
  intros u' v e du Hu' He Hue HDu'.
  apply elem_of_union in Hu' as [Hu' | Hu']; [eauto |].
  apply elem_of_singleton in Hu' as ->.
  assert (HuV : u ∈ V ∪ {[u]}) by (apply elem_of_union; right; by apply elem_of_singleton).
  rewrite (Hsame u HuV), HDu in HDu'. injection HDu' as <-.
  pose proof (Hpesos e He) as Hpe.
  destruct (decide (v ∈ V ∪ {[u]})) as [Hv | Hv].
  - destruct (Hmin v Hv) as (dv & HDv & _). exists dv. split; [done |].
    rewrite (Hsame v Hv) in HDv. specialize (Hmax v dv Hv HDv). lia.
  - apply Hady; [| done]. by apply Hgrafo.
Qed.

Lemma dijkstra_relajar_unico r V d u ady st st2 :
  dijkstra_inv E origen r V st → u ∈ V →
  distancias st !! u = Some (Finita d) →
  (∀ v w, (v, w) ∈ ady → ∃ e, e ∈ E ∧ peso e = w ∧ une e u v) →
  dijkstra_relajar V d u ady st = Ok st2 →
  dijkstra_inv E origen r V st2.
Proof.
  intros Hinv Hu HDu Hady Hrun.
  destruct (dijkstra_relajar_inv E origen r V d u ady st Hinv Hu HDu Hady)
    as (st' & Hrun' & Hinv' & _).
  rewrite Hrun in Hrun'. by injection Hrun' as <-.
Qed.

(** The main loop hands both invariants over to its result. *)
Lemma opt_bucle fuel :
  ∀ r V st D P,
  dijkstra_inv E origen r V st → dijkstra_opt E origen V V st →
  dijkstra_bucle fuel (construir_grafo E) V st = Ok (D, P) →
  ∃ r' V',
    dijkstra_inv E origen r' V' {| distancias := D; predecesores := P; heap_d := [] |} ∧
    dijkstra_opt E origen V' V' {| distancias := D; predecesores := P; heap_d := [] |}.
Proof.
  induction fuel as [| fuel IH]; intros r V st D P Hinv Hopt Hrun; [discriminate |].
  simpl in Hrun. destruct (heap_d st) as [| [d u] heap] eqn:Eheap.
  { simpl in Hrun. injection Hrun as <- <-. exists r, V.
    destruct st as [D P h]. simpl in *. by subst h. }
  simpl in Hrun. destruct (decide (u ∈ V)) as [Hu | Hu].
  - apply (IH r V (con_heap st heap)); [| | exact Hrun].
    + by eapply dijkstra_paso_descarta.
    + by eapply opt_paso_descarta.
  - destruct (dijkstra_paso_visita E origen r V st d u heap Hinv Eheap Hu) as [Hinv1 HDu].
    destruct (opt_paso_visita r V st d u heap Hinv Hopt Eheap Hu HDu) as [Hopt1 Hmax].
    unfold grafo_consultar in Hrun.
    destruct (grafo_buscar (construir_grafo E) u) as [ady |] eqn:Hady; [| discriminate].
    simpl in Hrun. fold (con_heap st heap) in Hrun.
    destruct (dijkstra_relajar (V ∪ {[u]}) d u ady (con_heap st heap)) as [st2 | | | |]
      eqn:Hrel; try discriminate.
    simpl in Hrun.
    assert (HuV : u ∈ V ∪ {[u]}) by (apply elem_of_union; right; by apply elem_of_singleton).
    assert (Hgrafo : ∀ v w, (v, w) ∈ ady → ∃ e, e ∈ E ∧ peso e = w ∧ une e u v).
    { intros v w Hvw. apply construir_grafo_ady. unfold ady_de. by rewrite Hady. }
    pose proof (dijkstra_relajar_unico _ _ d u ady _ st2 Hinv1 HuV HDu Hgrafo Hrel) as Hinv2.
    destruct (opt_relajar (V ∪ {[u]}) V d u ady (con_heap st heap) st2)
      as (Hopt2 & Hsame & _ & Hrelajados); [| done | done | done | done | done | done |].
    { intros x Hx. apply elem_of_union. by left. }
    apply (IH _ _ st2 D P Hinv2); [| exact Hrun].
    apply (opt_completar V (con_heap st heap) st2 d u ady); try done.
    intros v e He Hue.
    assert (Hin : (v, peso e) ∈ ady_de (construir_grafo E) u).
    { apply construir_grafo_ady. eauto. }
    unfold ady_de in Hin. by rewrite Hady in Hin.
Qed.

Lemma dijkstra_inv_inicial :
  origen ∈ nodos_de E → dijkstra_inv E origen ∅ ∅ (estado_inicial E origen).
Proof.
  intros Hor. constructor; simpl.
  - by rewrite lookup_insert_eq.
  - apply lookup_empty.
  - by right.
  - intros n Hn. destruct (decide (origen = n)) as [<- | Hne].
    + rewrite lookup_insert_eq. eauto.
    + rewrite lookup_insert_ne by done. apply distancias_iniciales_claves.
      by apply elem_of_claves, construir_grafo_claves.
  - intros d n Hd. apply list_elem_of_singleton in Hd. by injection Hd as -> ->.
  - intros d n Hd _. apply list_elem_of_singleton in Hd. injection Hd as -> ->.
    exists 0. rewrite lookup_insert_eq. split; [done |]. split; [lia | by left].
  - repeat constructor.
  - intros v u Hv. by rewrite lookup_empty in Hv.
  - intros v u Hv. by rewrite lookup_empty in Hv.
  - intros n Hn. by apply elem_of_empty in Hn.
  - intros v u kv ku Hv. by rewrite lookup_empty in Hv.
Qed.

Lemma distancias_iniciales_infinitas (g : grafo_t) n d :
  (list_to_map ((λ kv, (kv.1, Infinita)) <$> g) : gmap string distancia) !! n
  ≠ Some (Finita d).
Proof.
  induction g as [| [k a] g IH]; simpl; [by rewrite lookup_empty |].
  destruct (decide (k = n)) as [-> | Hne].
  - by rewrite lookup_insert_eq.
  - by rewrite lookup_insert_ne.
Qed.

Lemma dijkstra_opt_inicial :
  origen ∈ nodos_de E → dijkstra_opt E origen ∅ ∅ (estado_inicial E origen).
Proof.
  intros Hor. constructor; simpl.
  - intros n Hn. destruct (decide (origen = n)) as [<- | Hne]; [done |].
    rewrite lookup_insert_ne in Hn by done.
    by apply distancias_iniciales_claves, elem_of_claves, construir_grafo_claves in Hn.
  - intros n d Hn. destruct (decide (origen = n)) as [<- | Hne].
    + rewrite lookup_insert_eq in Hn. injection Hn as <-. constructor.
    + rewrite lookup_insert_ne in Hn by done.
      by apply distancias_iniciales_infinitas in Hn.
  - intros n Hn. by apply elem_of_empty in Hn.
  - intros u v e du Hu. by apply elem_of_empty in Hu.
  - intros n d x m Hn. by apply elem_of_empty in Hn.
  - intros n d _ Hn. destruct (decide (origen = n)) as [<- | Hne].
    + rewrite lookup_insert_eq in Hn. injection Hn as <-. by left.
    + rewrite lookup_insert_ne in Hn by done.
      by apply distancias_iniciales_infinitas in Hn.
  - intros n d Hno Hn. rewrite lookup_insert_ne in Hn by done.
    by apply distancias_iniciales_infinitas in Hn.
Qed.

(** Dijkstra returns, and its result satisfies both invariants with an empty
    queue. *)
Lemma dijkstra_resultado :
  origen ∈ nodos_de E →
  ∃ D P r V,
    dijkstra E origen = Ok (D, P) ∧
    dijkstra_inv E origen r V {| distancias := D; predecesores := P; heap_d := [] |} ∧
    dijkstra_opt E origen V V {| distancias := D; predecesores := P; heap_d := [] |}.
Proof.
  intros Hor.
  destruct (dijkstra_estado_final E origen Hor) as (D & P & r0 & V0 & Hrun & _).
  assert (Hrun' : dijkstra_bucle (2 * length E + 2) (construir_grafo E) ∅
                    (estado_inicial E origen) = Ok (D, P)).
  { unfold dijkstra, dijkstra_con in Hrun.
    assert (is_Some (grafo_buscar (construir_grafo E) origen)) as [ady Hady]
      by (by apply construir_grafo_claves).
    rewrite Hady in Hrun. exact Hrun. }
  destruct (opt_bucle _ ∅ ∅ _ D P (dijkstra_inv_inicial Hor) (dijkstra_opt_inicial Hor) Hrun')
    as (r & V & Hinv & Hopt).
  exists D, P, r, V. done.
Qed.

End dijkstra_minimo.

(** *** The result of Dijkstra *)

Section dijkstra_final.
Context (E : list arista) (origen : string)
        (D : gmap string distancia) (P : gmap string string)
        (r : gmap string nat) (V : gset string).
Hypothesis Hpesos : ∀ e, e ∈ E → 0 <= peso e.
Hypothesis Hinv :
  dijkstra_inv E origen r V {| distancias := D; predecesores := P; heap_d := [] |}.
Hypothesis Hopt :
  dijkstra_opt E origen V V {| distancias := D; predecesores := P; heap_d := [] |}.

Lemma final_finita_visitada n d : D !! n = Some (Finita d) → n ∈ V.
Proof.
  intros HDn. destruct (decide (n ∈ V)) as [| Hn]; [done |].
  pose proof (do_pendiente _ _ _ _ _ Hopt n d Hn HDn) as Hin.
  simpl in Hin. by apply elem_of_nil in Hin.
Qed.

Lemma final_origen_visitado : origen ∈ V.
Proof. by destruct (di_V_origen _ _ _ _ _ Hinv) as [? | (_ & _ & ?)]. Qed.

Lemma final_minima n d :
  D !! n = Some (Finita d) →
  camino_de_peso E origen n d ∧ ∀ w, camino_de_peso E origen n w → d <= w.
Proof.
  intros HDn. split; [by apply (do_real _ _ _ _ _ Hopt) |].
  destruct (do_min _ _ _ _ _ Hopt n (final_finita_visitada n d HDn)) as (d' & HDn' & Hmin).
  simpl in HDn'. rewrite HDn in HDn'. by injection HDn' as <-.
Qed.

Lemma final_conectado n :
  conectados E origen n → ∃ d, D !! n = Some (Finita d).
Proof.
  intros Hc. apply camino_conectados in Hc as [w Hw].
  destruct (opt_frontera E origen Hpesos V _ origen n 0 w Hopt final_origen_visitado
              (di_D_origen _ _ _ _ _ Hinv) Hw) as [Hn | (y & dy & Hy & HDy & _)].
  - destruct (do_min _ _ _ _ _ Hopt n Hn) as (d & HDn & _). eauto.
  - exfalso. apply Hy. by eapply final_finita_visitada.
Qed.

Lemma final_finita_sii n d :
  D !! n = Some (Finita d) ↔
  camino_de_peso E origen n d ∧ ∀ w, camino_de_peso E origen n w → d <= w.
Proof.
  split; [apply final_minima |]. intros [Hd Hmin].
  destruct (final_conectado n) as [d' HDn]; [apply camino_conectados; eauto |].
  destruct (final_minima n d' HDn) as [Hd' Hmin'].
  specialize (Hmin d' Hd'). specialize (Hmin' d Hd).
  by replace d with d' by lia.
Qed.

Lemma final_infinita_sii n :
  D !! n = Some Infinita ↔ n ∈ nodos_de E ∧ ¬ conectados E origen n.
Proof.
  split.
  - intros HDn. split; [apply (do_claves _ _ _ _ _ Hopt); simpl; eauto |].
    intros Hc. destruct (final_conectado n Hc) as [d Hd]. congruence.
  - intros [Hn Hno].
    destruct (di_claves _ _ _ _ _ Hinv n Hn) as [[d |] HDn]; [| done].
    exfalso. apply Hno. apply camino_conectados. exists d.
    by apply (do_real _ _ _ _ _ Hopt).
Qed.

Lemma final_claves n : is_Some (D !! n) ↔ n ∈ nodos_de E.
Proof.
  split; [apply (do_claves _ _ _ _ _ Hopt) | apply (di_claves _ _ _ _ _ Hinv)].
Qed.

(** From a finalised node the reconstruction loop reaches the source. *)
Lemma ruta_bucle_no_vacia fuel :
  ∀ actual ruta res,
  actual = origen ∨ actual ∈ V →
  ruta_bucle fuel P origen actual ruta = Ok res → res ≠ [].
Proof.
  induction fuel as [| fuel IH]; intros actual ruta res Hact Hrun; [discriminate |].
  simpl in Hrun. destruct (decide (actual ≠ origen)) as [Hne | Heq].
  - destruct Hact as [-> | HaV]; [done |].
    destruct (do_min _ _ _ _ _ Hopt actual HaV) as (d & HDa & _).
    destruct (do_pred _ _ _ _ _ Hopt actual d Hne HDa) as [p Hp].
    simpl in Hp. rewrite Hp in Hrun.
    destruct (di_pred _ _ _ _ _ Hinv actual p Hp) as [HpV _].
    eapply IH; [| exact Hrun]. by right.
  - injection Hrun as <-. intros Hnil. apply (f_equal length) in Hnil.
    rewrite length_reverse, length_app in Hnil. simpl in Hnil. lia.
Qed.

Lemma final_ruta_no_vacia fuel destino ruta :
  conectados E origen destino →
  reconstruir_ruta fuel P origen destino = Ok ruta → ruta ≠ [].
Proof.
  intros Hc Hrun. destruct (final_conectado destino Hc) as [d HDd].
  unfold reconstruir_ruta in Hrun.
  destruct (decide (destino = origen)) as [Heq | Hne].
  - rewrite (bool_decide_eq_false_2 (destino ≠ origen)) in Hrun
      by (intros Hc'; by apply Hc').
    rewrite andb_false_r in Hrun.
    eapply ruta_bucle_no_vacia; [| exact Hrun]. by left.
  - destruct (do_pred _ _ _ _ _ Hopt destino d Hne HDd) as [p Hp]. simpl in Hp.
    rewrite (bool_decide_eq_false_2 (P !! destino = None)) in Hrun by congruence.
    simpl in Hrun.
    eapply ruta_bucle_no_vacia; [| exact Hrun]. right.
    by eapply final_finita_visitada.
Qed.

End dijkstra_final.

Lemma triangulo_pesos : ∀ e, e ∈ triangulo → 0 <= peso e.
Proof.
  intros e He. unfold triangulo in He.
  repeat (apply elem_of_cons in He as [-> | He]; [unfold peso; simpl; lia |]).
  by apply elem_of_nil in He.
Qed.

Lemma triangulo_nodo_A : "A" ∈ nodos_de triangulo.
Proof. apply elem_of_nodos_de. exists ("A", "B", 1). split; [by left | by left]. Qed.

Lemma triangulo_nodo_C : "C" ∈ nodos_de triangulo.
Proof.
  apply elem_of_nodos_de. exists ("B", "C", 2). split; [right; by left | by right].
Qed.

(** X11: with non-negative weights and a source in the graph, Dijkstra
    returns a distance for every node of the graph and for nothing else; a
    node has the integer distance d exactly when d is the weight of a walk
    from the source to it and no such walk weighs less, and it has the
    distance infinity exactly when no walk leads to it. *)
Theorem dijkstra_distancias_minimas (aristas : list arista) (nodo_origen : string) :
  (∀ e, e ∈ aristas → 0 <= peso e) → nodo_origen ∈ nodos_de aristas →
  ∃ D P,
    dijkstra aristas nodo_origen = Ok (D, P) ∧
    (∀ n, is_Some (D !! n) ↔ n ∈ nodos_de aristas) ∧
    (∀ n d, D !! n = Some (Finita d) ↔
            camino_de_peso aristas nodo_origen n d ∧
            ∀ w, camino_de_peso aristas nodo_origen n w → d <= w) ∧
    (∀ n, D !! n = Some Infinita ↔
          n ∈ nodos_de aristas ∧ ¬ conectados aristas nodo_origen n).
Proof.
  intros Hpesos Hor.
  destruct (dijkstra_resultado aristas nodo_origen Hpesos Hor)
    as (D & P & r & V & Hrun & Hinv & Hopt).
  exists D, P. split; [done |].
  split; [intros n; by eapply final_claves |].
  split; [intros n d; by eapply final_finita_sii |].
  intros n. by eapply final_infinita_sii.
Qed.

Lemma dijkstra_distancias_minimas_witness :
  ∃ D P,
    dijkstra triangulo "A" = Ok (D, P) ∧
    (∀ n, is_Some (D !! n) ↔ n ∈ nodos_de triangulo) ∧
    (∀ n d, D !! n = Some (Finita d) ↔
            camino_de_peso triangulo "A" n d ∧
            ∀ w, camino_de_peso triangulo "A" n w → d <= w) ∧
    (∀ n, D !! n = Some Infinita ↔
          n ∈ nodos_de triangulo ∧ ¬ conectados triangulo "A" n).
Proof.
  apply (dijkstra_distancias_minimas triangulo "A").
  - apply triangulo_pesos.
  - apply triangulo_nodo_A.
Defined.

(** X12: with non-negative weights and a source in the graph, the path
    that [reconstruir_ruta] builds from the predecessors of Dijkstra is
    empty exactly when no walk leads from the source to the target;
    otherwise it is a walk from the source to the target over edges of the
    graph, and no walk between the two weighs less. *)
Theorem dijkstra_ruta_minima (aristas : list arista) (nodo_origen : string) :
  (∀ e, e ∈ aristas → 0 <= peso e) → nodo_origen ∈ nodos_de aristas →
  ∃ D P,
    dijkstra aristas nodo_origen = Ok (D, P) ∧
    ∀ nodo_destino,
      ∃ fuel0 ruta,
        (∀ fuel, (fuel0 ≤ fuel)%nat →
           reconstruir_ruta fuel P nodo_origen nodo_destino = Ok ruta) ∧
        (ruta = [] ↔ ¬ conectados aristas nodo_origen nodo_destino) ∧
        (ruta ≠ [] →
         ∃ es, head ruta = Some nodo_origen ∧ last ruta = Some nodo_destino ∧
               camino_por aristas ruta es ∧
               D !! nodo_destino = Some (Finita (suma_pesos es)) ∧
               ∀ w, camino_de_peso aristas nodo_origen nodo_destino w →
                    suma_pesos es <= w).
Proof.
  intros Hpesos Hor.
  destruct (dijkstra_resultado aristas nodo_origen Hpesos Hor)
    as (D & P & r & V & Hrun & Hinv & Hopt).
  exists D, P. split; [done |]. intros destino.
  destruct (reconstruir_ruta_termina aristas nodo_origen D P r V Hinv destino)
    as (fuel0 & ruta & Hruta).
  exists fuel0, ruta. split; [done |].
  pose proof (Hruta fuel0 (le_n _)) as Hruta0.
  assert (Hcaso : ruta ≠ [] →
    ∃ es, head ruta = Some nodo_origen ∧ last ruta = Some destino ∧
          camino_por aristas ruta es ∧
          D !! destino = Some (Finita (suma_pesos es))).
  { intros Hne.
    destruct (reconstruir_ruta_Ok nodo_origen fuel0 P destino ruta Hruta0 Hne)
      as (l & Hl & ->).
    destruct (cadena_distancias aristas nodo_origen D P r V Hinv Hpesos destino l Hl)
      as (ds & es & HF & Hs & Hc & Hh & _).
    destruct (cadena_cabeza nodo_origen P destino l Hl) as [Hhead Hlast].
    exists (reverse es).
    split; [by rewrite head_reverse |].
    split; [by rewrite last_reverse |].
    split; [by apply camino_por_reverse |].
    rewrite (suma_pesos_perm (reverse es) es) by apply reverse_Permutation.
    destruct l as [| v l]; [done |]. injection Hhead as ->.
    destruct ds as [| d ds]; [done |]. injection Hh as ->.
    by apply Forall2_cons in HF as [? _]. }
  split; [split |].
  - intros -> Hc.
    by apply (final_ruta_no_vacia aristas nodo_origen D P r V Hpesos Hinv Hopt
                fuel0 destino [] Hc Hruta0).
  - intros Hno. destruct ruta as [| x ruta]; [done |].
    destruct Hcaso as (es & _ & _ & _ & HDd); [done |].
    exfalso. apply Hno. apply camino_conectados. exists (suma_pesos es).
    by apply (do_real _ _ _ _ _ Hopt).
  - intros Hne. destruct (Hcaso Hne) as (es & Hh & Hl & Hc & HDd).
    exists es. repeat (split; [done |]).
    by apply (final_minima aristas nodo_origen D P V Hopt destino).
Qed.

Lemma dijkstra_ruta_minima_witness :
  ∃ D P,
    dijkstra triangulo "A" = Ok (D, P) ∧
    ∀ nodo_destino,
      ∃ fuel0 ruta,
        (∀ fuel, (fuel0 ≤ fuel)%nat →
           reconstruir_ruta fuel P "A" nodo_destino = Ok ruta) ∧
        (ruta = [] ↔ ¬ conectados triangulo "A" nodo_destino) ∧
        (ruta ≠ [] →
         ∃ es, head ruta = Some "A" ∧ last ruta = Some nodo_destino ∧
               camino_por triangulo ruta es ∧
               D !! nodo_destino = Some (Finita (suma_pesos es)) ∧
               ∀ w, camino_de_peso triangulo "A" nodo_destino w →
                    suma_pesos es <= w).
Proof.
  apply (dijkstra_ruta_minima triangulo "A").
  - apply triangulo_pesos.
  - apply triangulo_nodo_A.
Defined.

(** X13: with non-negative weights, the distance that Dijkstra records
    from a node a to a node b is the one it records from b to a. *)
Theorem dijkstra_simetrica (aristas : list arista) (a b : string) :
  (∀ e, e ∈ aristas → 0 <= peso e) →
  a ∈ nodos_de aristas → b ∈ nodos_de aristas →
  ∃ Da Pa Db Pb,
    dijkstra aristas a = Ok (Da, Pa) ∧ dijkstra aristas b = Ok (Db, Pb) ∧
    Da !! b = Db !! a.
Proof.
  intros Hpesos Ha Hb.
  destruct (dijkstra_resultado aristas a Hpesos Ha) as (Da & Pa & ra & Va & Hruna & Hia & Hoa).
  destruct (dijkstra_resultado aristas b Hpesos Hb) as (Db & Pb & rb & Vb & Hrunb & Hib & Hob).
  exists Da, Pa, Db, Pb. split; [done |]. split; [done |].
  destruct (di_claves _ _ _ _ _ Hia b Hb) as [[d |] HDb]; simpl in HDb; rewrite HDb; symmetry.
  - apply (final_finita_sii aristas b Db Pb rb Vb Hpesos Hib Hob).
    apply (final_minima aristas a Da Pa Va Hoa) in HDb as [Hd Hmin].
    split; [by apply camino_sym |]. intros w Hw. by apply Hmin, camino_sym.
  - apply (final_infinita_sii aristas b Db Pb rb Vb Hpesos Hib Hob).
    apply (final_infinita_sii aristas a Da Pa ra Va Hpesos Hia Hoa) in HDb as [_ Hno].
    split; [done |]. intros Hc. by apply Hno, con_sym.
Qed.

Lemma dijkstra_simetrica_witness :
  ∃ Da Pa Db Pb,
    dijkstra triangulo "A" = Ok (Da, Pa) ∧ dijkstra triangulo "C" = Ok (Db, Pb) ∧
    Da !! "C" = Db !! "A".
Proof.
  apply (dijkstra_simetrica triangulo "A" "C").
  - apply triangulo_pesos.
  - apply triangulo_nodo_A.
  - apply triangulo_nodo_C.
Defined.

(** X14: with non-negative weights, no edge can improve a distance that
    Dijkstra has recorded: if one end of an edge has an integer distance,
    the other end has one too, and it is at most the first plus the weight
    of the edge. *)
Theorem dijkstra_sin_mejora (aristas : list arista) (nodo_origen : string) :
  (∀ e, e ∈ aristas → 0 <= peso e) → nodo_origen ∈ nodos_de aristas →
  ∃ D P,
    dijkstra aristas nodo_origen = Ok (D, P) ∧
    ∀ e u v du, e ∈ aristas → une e u v → D !! u = Some (Finita du) →
      ∃ dv, D !! v = Some (Finita dv) ∧ dv <= du + peso e.
Proof.
  intros Hpesos Hor.
  destruct (dijkstra_resultado aristas nodo_origen Hpesos Hor)
    as (D & P & r & V & Hrun & Hinv & Hopt).
  exists D, P. split; [done |]. intros e u v du He Hu HDu.
  apply (do_relajado _ _ _ _ _ Hopt u v e du); [| done | done | done].
  by apply (final_finita_visitada aristas nodo_origen D P V Hopt u du).
Qed.

Lemma dijkstra_sin_mejora_witness :
  ∃ D P,
    dijkstra triangulo "A" = Ok (D, P) ∧
    ∀ e u v du, e ∈ triangulo → une e u v → D !! u = Some (Finita du) →
      ∃ dv, D !! v = Some (Finita dv) ∧ dv <= du + peso e.
Proof.
  apply (dijkstra_sin_mejora triangulo "A").
  - apply triangulo_pesos.
  - apply triangulo_nodo_A.
Defined.

(** X15: Dijkstra returns on every edge list and every source, whatever
    the sign of the weights, within the loop turns of its budget: the empty
    result when the source is not in the graph, and otherwise a distance
    for every node, zero for the source, and predecessors each of which
    accounts for the distance of its node by one edge of the graph. *)
Theorem dijkstra_termina_siempre (aristas : list arista) (nodo_origen : string) :
  ∃ D P,
    dijkstra aristas nodo_origen = Ok (D, P) ∧
    (nodo_origen ∉ nodos_de aristas → D = ∅ ∧ P = ∅) ∧
    (nodo_origen ∈ nodos_de aristas →
       D !! nodo_origen = Some (Finita 0) ∧ P !! nodo_origen = None ∧
       (∀ n, n ∈ nodos_de aristas → is_Some (D !! n)) ∧
       ∀ v u, P !! v = Some u →
         ∃ du e, D !! u = Some (Finita du) ∧
                 D !! v = Some (Finita (du + peso e)) ∧
                 e ∈ aristas ∧ une e u v).
Proof.
  destruct (decide (nodo_origen ∈ nodos_de aristas)) as [Hor | Hno].
  - destruct (dijkstra_estado_final aristas nodo_origen Hor)
      as (D & P & r & V & Hrun & Hinv).
    exists D, P. split; [done |]. split; [done |]. intros _.
    split; [apply (di_D_origen _ _ _ _ _ Hinv) |].
    split; [apply (di_P_origen _ _ _ _ _ Hinv) |].
    split; [apply (di_claves _ _ _ _ _ Hinv) |].
    intros v u Hvu. by destruct (di_pred _ _ _ _ _ Hinv v u Hvu) as [_ ?].
  - exists ∅, ∅. split; [| split; [done | done]].
    unfold dijkstra, dijkstra_con.
    destruct (grafo_buscar (construir_grafo aristas) nodo_origen) eqn:Eg; [| done].
    exfalso. apply Hno. apply construir_grafo_claves. eauto.
Qed.

(** *** Path reconstruction on any predecessor map *)

Lemma ruta_bucle_ciclo (P : gmap string string) origen (S : gset string) fuel :
  origen ∉ S → (∀ n, n ∈ S → ∃ p, P !! n = Some p ∧ p ∈ S) →
  ∀ actual ruta, actual ∈ S → ruta_bucle fuel P origen actual ruta = Agotado.
Proof.
  intros Hor Hcerrado.
  induction fuel as [| fuel IH]; intros actual ruta Hact; [done |].
  simpl. rewrite decide_True by (intros ->; done).
  destruct (Hcerrado actual Hact) as (p & -> & Hp). by apply IH.
Qed.

(** X16: on a predecessor map in which the links from the target lead
    round a cycle that does not contain the source, [reconstruir_ruta]
    never returns: every budget of loop turns is exhausted. *)
Theorem reconstruir_ruta_ciclo (P : gmap string string) (origen destino : string)
    (S : gset string) (fuel : nat) :
  destino ∈ S → origen ∉ S → (∀ n, n ∈ S → ∃ p, P !! n = Some p ∧ p ∈ S) →
  reconstruir_ruta fuel P origen destino = Agotado.
Proof.
  intros Hd Hor Hcerrado. unfold reconstruir_ruta.
  destruct (Hcerrado destino Hd) as (p & Hp & _).
  rewrite (bool_decide_eq_false_2 (P !! destino = None)) by congruence. simpl.
  by apply (ruta_bucle_ciclo P origen S).
Qed.

Lemma reconstruir_ruta_ciclo_witness :
  reconstruir_ruta 1000 {[ "A" := "B"; "B" := "A" ]} "C" "A" = Agotado.
Proof.
  apply (reconstruir_ruta_ciclo {[ "A" := "B"; "B" := "A" ]} "C" "A" {[ "A"; "B" ]} 1000).
  - set_solver.
  - set_solver.
  - intros n Hn. apply elem_of_union in Hn as [Hn | Hn];
      apply elem_of_singleton in Hn as ->.
    + exists "B". split; [reflexivity | set_solver].
    + exists "A". split; [reflexivity | set_solver].
Defined.

Lemma cadena_unica (P : gmap string string) origen v l1 l2 :
  cadena P origen v l1 → cadena P origen v l2 → l1 = l2.
Proof.
  intros H1. revert l2.
  induction H1 as [| v u l Hv Hvu Hl IH]; intros l2 H2.
  - inversion H2; [done | congruence].
  - inversion H2 as [| v' u' l' Hv' Hvu' Hl']; subst; [done |].
    f_equal. apply IH. congruence.
Qed.

Lemma cadena_sufijo (P : gmap string string) origen v l x :
  cadena P origen v l → x ∈ l →
  ∃ l', cadena P origen x l' ∧ (length l' ≤ length l)%nat.
Proof.
  induction 1 as [| v u l Hv Hvu Hl IH]; intros Hx.
  - apply list_elem_of_singleton in Hx as ->. exists [origen]. split; [constructor | done].
  - apply elem_of_cons in Hx as [-> | Hx].
    + exists (v :: l). split; [by econstructor | done].
    + destruct (IH Hx) as (l' & Hl' & Hlen). exists l'. split; [done | simpl; lia].
Qed.

Lemma cadena_NoDup (P : gmap string string) origen v l :
  cadena P origen v l → NoDup l.
Proof.
  induction 1 as [| v u l Hv Hvu Hl IH]; [apply NoDup_singleton |].
  constructor; [| done]. intros Hin.
  destruct (cadena_sufijo P origen u l v Hl Hin) as (l' & Hl' & Hlen).
  assert (Heq : l' = v :: l).
  { eapply cadena_unica; [exact Hl' |]. by econstructor. }
  subst l'. simpl in Hlen. lia.
Qed.

Lemma cadena_enlaces (P : gmap string string) origen v k1 b a k2 :
  cadena P origen v (k1 ++ b :: a :: k2) → P !! b = Some a ∧ b ≠ origen.
Proof.
  revert v. induction k1 as [| x k1 IH]; intros v H; simpl in H.
  - inversion H as [| v' u l Hv Hvu Hl]; subst.
    destruct (cadena_cabeza origen P u (a :: k2) Hl) as [Hh _].
    injection Hh as ->. done.
  - inversion H as [| v' u l Hv Hvu Hl]; subst.
    + by destruct k1.
    + by eapply IH.
Qed.

(** X17: whatever the predecessor map, a path that [reconstruir_ruta]
    returns and that is not empty leads from the source to the target, holds
    no node twice, and every node of it after the first has the node before
    it as its predecessor; for the source as target the path is the source
    alone. *)
Theorem reconstruir_ruta_enlaces (P : gmap string string) (origen destino : string)
    (fuel : nat) (ruta : list string) :
  reconstruir_ruta fuel P origen destino = Ok ruta → ruta ≠ [] →
  head ruta = Some origen ∧ last ruta = Some destino ∧ NoDup ruta ∧
  (∀ l1 a b l2, ruta = l1 ++ a :: b :: l2 → P !! b = Some a ∧ b ≠ origen) ∧
  (destino = origen → ruta = [origen]).
Proof.
  intros Hrun Hne.
  destruct (reconstruir_ruta_Ok origen fuel P destino ruta Hrun Hne) as (l & Hl & ->).
  destruct (cadena_cabeza origen P destino l Hl) as [Hhead Hlast].
  split; [by rewrite head_reverse |].
  split; [by rewrite last_reverse |].
  split; [rewrite reverse_Permutation; by eapply cadena_NoDup |].
  split.
  - intros l1 a b l2 Heq. apply (f_equal reverse) in Heq.
    rewrite reverse_involutive, reverse_app, !reverse_cons, <- !app_assoc in Heq.
    simpl in Heq. subst l. by eapply cadena_enlaces.
  - intros ->. inversion Hl; [done | congruence].
Qed.

Lemma reconstruir_ruta_enlaces_witness :
  head ["A"; "B"; "C"] = Some "A" ∧ last ["A"; "B"; "C"] = Some "C" ∧
  NoDup ["A"; "B"; "C"] ∧
  (∀ l1 a b l2, ["A"; "B"; "C"] = l1 ++ a :: b :: l2 →
     ({[ "B" := "A"; "C" := "B" ]} : gmap string string) !! b = Some a ∧ b ≠ "A") ∧
  ("C" = "A" → ["A"; "B"; "C"] = ["A"]).
Proof.
  apply (reconstruir_ruta_enlaces {[ "B" := "A"; "C" := "B" ]} "A" "C" 5).
  - vm_compute. reflexivity.
  - discriminate.
Defined.

(** ** Huffman: the shape of the tree and the lengths of the codes *)

Lemma hojas_prof_desplaza k t :
  hojas_prof k t = (λ x, (x.1, (x.2 + k)%nat)) <$> hojas_prof 0 t.
Proof.
  revert k.
  induction t as [c f | c f i IHi | c f d IHd | c f i d IHi IHd] using NodoHuffman_ind;
    intros k; simpl.
  - done.
  - rewrite !app_nil_r, (IHi (S k)), (IHi 1%nat), <- list_fmap_compose.
    apply list_fmap_ext. intros _ [[c' f'] d'] _. simpl. f_equal. lia.
  - rewrite (IHd (S k)), (IHd 1%nat), <- list_fmap_compose.
    apply list_fmap_ext. intros _ [[c' f'] d'] _. simpl. f_equal. lia.
  - rewrite fmap_app, (IHi (S k)), (IHi 1%nat), (IHd (S k)), (IHd 1%nat),
      <- !list_fmap_compose.
    f_equal; apply list_fmap_ext; intros _ [[c' f'] d'] _; simpl; f_equal; lia.
Qed.

Lemma hojas_prof_hojas k t : (λ x, x.1.1) <$> hojas_prof k t = hojas t.
Proof.
  revert k.
  induction t as [c f | c f i IHi | c f d IHd | c f i d IHi IHd] using NodoHuffman_ind;
    intros k; simpl.
  - done.
  - by rewrite !app_nil_r.
  - done.
  - by rewrite fmap_app, IHi, IHd.
Qed.

Lemma hojas_prof_cf k t : (λ x, x.1) <$> hojas_prof k t = hojas_cf t.
Proof.
  unfold hojas_cf. rewrite (hojas_prof_desplaza k), <- list_fmap_compose.
  by apply list_fmap_ext.
Qed.

Lemma hojas_cf_nodo c f i d :
  hojas_cf (Nodo c f (Some i) (Some d)) = hojas_cf i ++ hojas_cf d.
Proof. unfold hojas_cf at 1. simpl. by rewrite fmap_app, !hojas_prof_cf. Qed.

Lemma hojas_prof_no_vacia k t : arbol_bien_formado t → hojas_prof k t ≠ [].
Proof.
  revert k.
  induction t as [c f | c f i IHi | c f d IHd | c f i d IHi IHd] using NodoHuffman_ind;
    intros k Hbf; simpl in *; try done.
  destruct Hbf as (_ & _ & Hi & _). intros Heq.
  apply app_eq_nil in Heq as [Heq _]. by apply (IHi (S k)).
Qed.

Lemma suma_cf_app (l1 l2 : list (option string * Z)) :
  foldr (λ x s, x.2 + s) 0 (l1 ++ l2)
  = foldr (λ x s, x.2 + s) 0 l1 + foldr (λ x s, x.2 + s) 0 l2.
Proof. induction l1 as [| x l1 IH]; simpl; [done |]. rewrite IH. lia. Qed.

(** The frequency of a tree is the sum of the frequencies of its leaves. *)
Lemma frecuencia_suma t :
  arbol_bien_formado t → frecuencia t = foldr (λ x s, x.2 + s) 0 (hojas_cf t).
Proof.
  induction t as [c f | c f i IHi | c f d IHd | c f i d IHi IHd] using NodoHuffman_ind;
    intros Hbf; simpl in *; try done.
  - unfold hojas_cf. simpl. lia.
  - destruct Hbf as (_ & -> & Hi & Hd).
    by rewrite hojas_cf_nodo, suma_cf_app, (IHi Hi), (IHd Hd).
Qed.

(** In a tree with n leaves no leaf is deeper than n - 1. *)
Lemma hojas_prof_cota k t x :
  arbol_bien_formado t → x ∈ hojas_prof k t →
  (k ≤ x.2 ∧ x.2 + 1 ≤ k + length (hojas_prof k t))%nat.
Proof.
  revert k.
  induction t as [c f | c f i IHi | c f d IHd | c f i d IHi IHd] using NodoHuffman_ind;
    intros k Hbf Hx; simpl in *; try done.
  - apply list_elem_of_singleton in Hx as ->. simpl. lia.
  - destruct Hbf as (_ & _ & Hi & Hd). rewrite length_app.
    pose proof (hojas_prof_no_vacia (S k) i Hi) as Hni.
    pose proof (hojas_prof_no_vacia (S k) d Hd) as Hnd.
    destruct (hojas_prof (S k) i) as [| yi li] eqn:Ei; [done |].
    destruct (hojas_prof (S k) d) as [| yd ld] eqn:Ed; [done |].
    apply elem_of_app in Hx as [Hx | Hx].
    + specialize (IHi (S k) Hi). rewrite Ei in IHi. specialize (IHi Hx). simpl in *. lia.
    + specialize (IHd (S k) Hd). rewrite Ed in IHd. specialize (IHd Hx). simpl in *. lia.
Qed.

(** The equality of Kraft for the leaves of a tree. *)
Lemma kraft_arbol (L k : nat) t :
  arbol_bien_formado t → (∀ x, x ∈ hojas_prof k t → (x.2 ≤ L)%nat) →
  sum_list ((λ x, (2 ^ (L - x.2))%nat) <$> hojas_prof k t) = (2 ^ (L - k))%nat.
Proof.
  revert k.
  induction t as [c f | c f i IHi | c f d IHd | c f i d IHi IHd] using NodoHuffman_ind;
    intros k Hbf HL; simpl in *; try done.
  destruct Hbf as (_ & _ & Hi & Hd).
  rewrite fmap_app, sum_list_app'.
    rewrite (IHi (S k) Hi), (IHd (S k) Hd);
      [| intros x Hx; apply HL, elem_of_app; by right
       | intros x Hx; apply HL, elem_of_app; by left].
    assert (Hk : (S k ≤ L)%nat).
    { pose proof (hojas_prof_no_vacia (S k) i Hi) as Hni.
      destruct (hojas_prof (S k) i) as [| y l] eqn:Ei; [done |].
      assert (Hy : y ∈ hojas_prof (S k) i) by (rewrite Ei; by left).
      destruct (hojas_prof_cota (S k) i y Hi Hy) as [Hle _].
      assert (y.2 ≤ L)%nat; [| lia]. apply HL, elem_of_app. left. by left. }
    replace (L - k)%nat with (S (L - S k)) by lia. rewrite Nat.pow_succ_r'.
    generalize (2 ^ (L - S k))%nat. intros; lia.
Qed.

(** The path to a leaf has the length of its depth. *)
Lemma ruta_a_prof k t bits c :
  ruta_a t bits c → ∃ f, (c, f, (k + String.length bits)%nat) ∈ hojas_prof k t.
Proof.
  intros H. revert k.
  induction H as [c f | c f i der bits s Hi IH | c f izq d bits s Hd IH]; intros k.
  - exists f. simpl. rewrite Nat.add_0_r. by left.
  - destruct (IH (S k)) as [f' Hf']. exists f'. rewrite length_append.
    replace (k + (String.length "0" + String.length bits))%nat
      with (S k + String.length bits)%nat by (simpl; lia).
    simpl. destruct der; apply elem_of_app; by left.
  - destruct (IH (S k)) as [f' Hf']. exists f'. rewrite length_append.
    replace (k + (String.length "1" + String.length bits))%nat
      with (S k + String.length bits)%nat by (simpl; lia).
    simpl. destruct izq; [apply elem_of_app; by right | done].
Qed.

Lemma prof_ruta_a k t c f d :
  (c, f, d) ∈ hojas_prof k t →
  ∃ bits, ruta_a t bits c ∧ d = (k + String.length bits)%nat.
Proof.
  revert k.
  induction t as [c0 f0 | c0 f0 i IHi | c0 f0 dd IHd | c0 f0 i dd IHi IHd]
    using NodoHuffman_ind; intros k Hx; simpl in Hx.
  - apply list_elem_of_singleton in Hx. injection Hx as -> -> ->.
    exists "". split; [constructor | simpl; lia].
  - rewrite app_nil_r in Hx. destruct (IHi _ Hx) as (bits & Hb & ->).
    exists ("0" +:+ bits). split; [by constructor | rewrite length_append; simpl; lia].
  - destruct (IHd _ Hx) as (bits & Hb & ->).
    exists ("1" +:+ bits). split; [by constructor | rewrite length_append; simpl; lia].
  - apply elem_of_app in Hx as [Hx | Hx].
    + destruct (IHi _ Hx) as (bits & Hb & ->).
      exists ("0" +:+ bits). split; [by constructor | rewrite length_append; simpl; lia].
    + destruct (IHd _ Hx) as (bits & Hb & ->).
      exists ("1" +:+ bits). split; [by constructor | rewrite length_append; simpl; lia].
Qed.

Section construir_forma.
Context `{M : Monticulo} (HM : monticulo_correcto M).

Lemma hoja_de_bien_formada kv : arbol_bien_formado (hoja_de kv).
Proof. destruct kv as [c f]. simpl. eauto. Qed.

(** The loop keeps the trees well formed and their leaves with their
    frequencies. *)
Lemma huffman_bucle_forma fuel :
  ∀ heap, es_monticulo heap → heap ≠ [] → (length heap ≤ fuel)%nat →
  Forall arbol_bien_formado heap →
  ∃ raiz, huffman_bucle fuel heap = Ok [raiz] ∧ arbol_bien_formado raiz ∧
          hojas_cf raiz ≡ₚ mjoin (hojas_cf <$> heap).
Proof.
  induction fuel as [| fuel IH]; intros heap Hm Hne Hlen Hbf.
  { destruct heap; [done | simpl in Hlen; lia]. }
  simpl. destruct (decide (1 < length heap)%nat) as [Hgt | Hle].
  - destruct (extraer_Ok HM heap Hm Hne) as (izq & heap1 & -> & Hm1 & HP1). simpl.
    assert (Hl1 : length heap = S (length heap1)) by (by rewrite HP1).
    assert (Hne1 : heap1 ≠ []) by (intros ->; simpl in Hl1; lia).
    destruct (extraer_Ok HM heap1 Hm1 Hne1) as (der & heap2 & -> & Hm2 & HP2). simpl.
    assert (Hl2 : length heap1 = S (length heap2)) by (by rewrite HP2).
    destruct (heappush_h_spec M HM heap2
                (Nodo None (frecuencia izq + frecuencia der) (Some izq) (Some der)) Hm2)
      as [Hm3 HP3].
    rewrite HP1, HP2 in Hbf.
    apply Forall_cons in Hbf as [Hizq Hbf]. apply Forall_cons in Hbf as [Hder Hbf].
    destruct (IH _ Hm3) as (raiz & Hrun & Hraiz & Hh).
    + intros Heq. rewrite Heq in HP3. by apply Permutation_nil_cons in HP3.
    + rewrite HP3. simpl. lia.
    + rewrite HP3. constructor; [| done]. simpl. done.
    + exists raiz. split; [done |]. split; [done |]. rewrite Hh.
      rewrite HP3, HP1, HP2. simpl. rewrite hojas_cf_nodo. by rewrite <- app_assoc.
  - destruct heap as [| x [| y heap]]; [done | | simpl in Hle; lia].
    exists x. split; [done |]. apply Forall_cons in Hbf as [Hx _].
    split; [done |]. simpl. by rewrite app_nil_r.
Qed.

Lemma hojas_cf_hojas_de frecuencias :
  mjoin (hojas_cf <$> (hoja_de <$> frecuencias)) = (λ kv, (Some kv.1, kv.2)) <$> frecuencias.
Proof.
  induction frecuencias as [| [c f] l IH]; [done |].
  rewrite !fmap_cons. simpl. by rewrite IH.
Qed.

Lemma construir_arbol_huffman_forma frecuencias :
  frecuencias ≠ [] →
  ∃ raiz, construir_arbol_huffman frecuencias = Ok (Some raiz) ∧
          arbol_bien_formado raiz ∧
          hojas_cf raiz ≡ₚ (λ kv, (Some kv.1, kv.2)) <$> frecuencias.
Proof.
  intros Hne. unfold construir_arbol_huffman.
  destruct frecuencias as [| kv0 rest] eqn:Efr; [done |]. rewrite <- Efr.
  assert (Hl : (λ '(char, freq), Nodo (Some char) freq None None) <$> frecuencias
               = hoja_de <$> frecuencias).
  { apply list_fmap_ext. by intros _ [c f] _. }
  rewrite Hl. set (l := hoja_de <$> frecuencias).
  destruct (heapify_h_spec M HM l) as [Hm HP].
  destruct (huffman_bucle_forma (length frecuencias) (heapify_h l) Hm)
    as (raiz & Hrun & Hbf & Hh).
  - intros Heq. rewrite Heq in HP. apply Permutation_nil in HP.
    subst l. rewrite Efr in HP. discriminate.
  - rewrite HP. subst l. by rewrite length_fmap.
  - rewrite HP. subst l. apply Forall_fmap, Forall_forall. intros kv _.
    apply hoja_de_bien_formada.
  - exists raiz. rewrite Hrun. simpl. split; [done |]. split; [done |].
    rewrite Hh, HP. subst l.
    apply (reflexive_eq (R:=Permutation)). apply hojas_cf_hojas_de.
Qed.

End construir_forma.

(** *** The frequency table *)

Lemma ocurrencias_snoc c texto x :
  ocurrencias c (texto ++ [x]) = ocurrencias c texto + (if decide (x = c) then 1 else 0).
Proof.
  unfold ocurrencias. rewrite filter_app, length_app.
  rewrite filter_cons, filter_nil. case_decide; simpl; lia.
Qed.

Lemma ocurrencias_positivas c texto : c ∈ texto → 1 <= ocurrencias c texto.
Proof.
  intros Hc. unfold ocurrencias.
  assert (Hin : c ∈ filter (λ x, x = c) texto) by (by apply list_elem_of_filter).
  destruct (filter (λ x, x = c) texto); [by apply elem_of_nil in Hin | simpl; lia].
Qed.

Lemma ocurrencias_ninguna c texto : c ∉ texto → ocurrencias c texto = 0.
Proof.
  intros Hc. unfold ocurrencias.
  destruct (filter (λ x, x = c) texto) as [| y l] eqn:Ef; [done |].
  assert (Hy : y ∈ filter (λ x, x = c) texto) by (rewrite Ef; by left).
  apply list_elem_of_filter in Hy as [-> Hy]. done.
Qed.

Lemma contar_claves tabla c :
  (contar tabla c).*1 = if decide (c ∈ tabla.*1) then tabla.*1 else tabla.*1 ++ [c].
Proof.
  induction tabla as [| [k f] tabla IH].
  - case_decide as H; [by apply elem_of_nil in H | done].
  - cbn [contar]. rewrite (fmap_cons fst (k, f) tabla). cbn [fst].
    destruct (decide (k = c)) as [-> | Hne].
    + rewrite fmap_cons. cbn [fst]. rewrite decide_True; [done | by left].
    + rewrite fmap_cons, IH. cbn [fst]. destruct (decide (c ∈ tabla.*1)) as [Hin | Hin].
      * rewrite decide_True; [done | by right].
      * rewrite decide_False; [done |]. intros Hc.
        apply elem_of_cons in Hc as [-> | Hc]; done.
Qed.

Lemma contar_NoDup tabla c : NoDup tabla.*1 → NoDup (contar tabla c).*1.
Proof.
  intros Hnd. rewrite contar_claves. case_decide; [done |].
  apply NoDup_app. split; [done |]. split; [| apply NoDup_singleton].
  intros x Hx Hc. apply list_elem_of_singleton in Hc as ->. done.
Qed.

Lemma contar_elem tabla c k f :
  NoDup tabla.*1 →
  (k, f) ∈ contar tabla c ↔
  (k ≠ c ∧ (k, f) ∈ tabla) ∨
  (k = c ∧ ((c, f - 1) ∈ tabla ∨ ((c ∉ (tabla.*1)) ∧ f = 1))).
Proof.
  induction tabla as [| [k0 f0] tabla IH]; intros Hnd; simpl.
  - rewrite list_elem_of_singleton. split.
    + intros [= -> ->]. right. split; [done |]. right. split; [apply not_elem_of_nil | done].
    + intros [[_ H] | [-> [H | [_ ->]]]]; [by apply elem_of_nil in H.. | done].
  - apply NoDup_cons in Hnd as [Hk0 Hnd]. specialize (IH Hnd).
    destruct (decide (k0 = c)) as [-> | Hne].
    + rewrite !elem_of_cons. split.
      * intros [[= -> ->] | Hin].
        -- right. split; [done |]. left. left. f_equal. lia.
        -- left. split; [| by right]. intros ->. apply Hk0.
           apply list_elem_of_fmap. by exists (c, f).
      * intros [[Hkc [[= -> ->] | Hin]] | [-> [[[= Hf] | Hin] | [Hc _]]]].
        -- done.
        -- by right.
        -- left. f_equal. lia.
        -- exfalso. apply Hk0. apply list_elem_of_fmap. by exists (c, f - 1).
        -- exfalso. apply Hc. by left.
    + rewrite !elem_of_cons, IH. split.
      * intros [[= -> ->] | [[Hkc Hin] | [-> [Hin | [Hc ->]]]]].
        -- left. split; [done | by left].
        -- left. split; [done | by right].
        -- right. split; [done |]. left. by right.
        -- right. split; [done |]. right. split; [| done].
           intros [-> | Hc']; done.
      * intros [[Hkc [Heq | Hin]] | [Hkc [[Heq | Hin] | [Hc Hf]]]].
        -- by left.
        -- right. left. done.
        -- injection Heq as Hc _. congruence.
        -- right. right. split; [done |]. by left.
        -- right. right. split; [done |]. right. split; [| done].
           intros Hc'. apply Hc. by right.
Qed.

Lemma calcular_frecuencias_inv texto :
  ∀ tabla visto,
  NoDup tabla.*1 →
  (∀ k f, (k, f) ∈ tabla ↔ k ∈ visto ∧ f = ocurrencias k visto) →
  NoDup (foldl contar tabla texto).*1 ∧
  ∀ k f, (k, f) ∈ foldl contar tabla texto ↔
         k ∈ visto ++ texto ∧ f = ocurrencias k (visto ++ texto).
Proof.
  induction texto as [| c texto IH]; intros tabla visto Hnd Hinv; simpl.
  { by rewrite app_nil_r. }
  assert (Hclaves : ∀ k, k ∈ tabla.*1 ↔ k ∈ visto).
  { intros k. rewrite list_elem_of_fmap. split.
    - intros ([k' f] & -> & Hin). by apply Hinv in Hin as [? _].
    - intros Hk. exists (k, ocurrencias k visto). split; [done |]. by apply Hinv. }
  destruct (IH (contar tabla c) (visto ++ [c])) as [H1 H2].
  - by apply contar_NoDup.
  - intros k f. rewrite (contar_elem tabla c k f Hnd), ocurrencias_snoc, elem_of_app,
      list_elem_of_singleton, !Hinv, Hclaves.
    destruct (decide (c = k)) as [-> | Hne].
    + split.
      * intros [[Hkk _] | [_ [[Hin Hf] | [Hno ->]]]]; [done | |].
        -- split; [by left | lia].
        -- split; [by right |]. rewrite (ocurrencias_ninguna k visto Hno). lia.
      * intros [_ ->]. right. split; [done |].
        destruct (decide (k ∈ visto)) as [Hin | Hno].
        -- left. split; [done | lia].
        -- right. split; [done |]. rewrite (ocurrencias_ninguna k visto Hno). lia.
    + split.
      * intros [[_ [Hin ->]] | [-> _]]; [| done]. split; [by left | lia].
      * intros [[Hin | ->] ->]; [| done]. left. split; [congruence |].
        split; [done | lia].
  - rewrite <- !app_assoc in H2. simpl in H2. done.
Qed.

Lemma calcular_frecuencias_tabla (texto : list string) :
  NoDup (calcular_frecuencias texto).*1 ∧
  (∀ c f, (c, f) ∈ calcular_frecuencias texto ↔
          c ∈ texto ∧ f = ocurrencias c texto) ∧
  (∀ c f, (c, f) ∈ calcular_frecuencias texto → 1 <= f).
Proof.
  destruct (calcular_frecuencias_inv texto [] []) as [H1 H2].
  - constructor.
  - intros k f. split; [intros H; by apply elem_of_nil in H |].
    intros [H _]. by apply elem_of_nil in H.
  - split; [done |]. split; [done |].
    intros c f Hcf. apply H2 in Hcf as [Hc ->]. by apply ocurrencias_positivas.
Qed.

(** X18: the frequency table of a text lists every character of the text
    once, with the number of its occurrences, and nothing else; so its
    frequencies are positive and add up to the length of the text. *)
Theorem calcular_frecuencias_cuenta (texto : list string) :
  NoDup (calcular_frecuencias texto).*1 ∧
  (∀ c f, (c, f) ∈ calcular_frecuencias texto ↔
          c ∈ texto ∧ f = ocurrencias c texto) ∧
  (∀ c f, (c, f) ∈ calcular_frecuencias texto → 1 <= f) ∧
  suma_frecuencias (calcular_frecuencias texto) = Z.of_nat (length texto).
Proof.
  destruct (calcular_frecuencias_tabla texto) as (H1 & H2 & H3).
  repeat (split; [done |]). apply calcular_frecuencias_suma.
Qed.

(** *** The tree and the codes of a table *)

Lemma suma_cf_perm (l1 l2 : list (option string * Z)) :
  l1 ≡ₚ l2 → foldr (λ x s, x.2 + s) 0 l1 = foldr (λ x s, x.2 + s) 0 l2.
Proof. induction 1; simpl; lia. Qed.

Lemma suma_cf_frecuencias (frecuencias : list (string * Z)) :
  foldr (λ x s, x.2 + s) 0 ((λ kv, (Some kv.1, kv.2)) <$> frecuencias)
  = suma_frecuencias frecuencias.
Proof.
  unfold suma_frecuencias. induction frecuencias as [| [c f] l IH]; [done |].
  rewrite fmap_cons. cbn [foldr snd fst]. by rewrite IH.
Qed.

(** X19: for a non-empty frequency table, and over any priority queue that
    meets the contract of heapq, the tree that is built has the symbols of
    the table with their frequencies as its leaves, each entry once; every
    inner node has two children, no symbol, and the sum of the frequencies
    of its children; so the root holds the sum of all the frequencies. *)
Theorem huffman_arbol_forma `{M : Monticulo} (frecuencias : list (string * Z)) :
  monticulo_correcto M → frecuencias ≠ [] →
  ∃ raiz,
    construir_arbol_huffman frecuencias = Ok (Some raiz) ∧
    arbol_bien_formado raiz ∧
    hojas_cf raiz ≡ₚ (λ kv, (Some kv.1, kv.2)) <$> frecuencias ∧
    frecuencia raiz = suma_frecuencias frecuencias.
Proof.
  intros HM Hne.
  destruct (construir_arbol_huffman_forma HM frecuencias Hne) as (raiz & Hrun & Hbf & Hh).
  exists raiz. repeat (split; [done |]).
  by rewrite (frecuencia_suma raiz Hbf), (suma_cf_perm _ _ Hh), suma_cf_frecuencias.
Qed.

Lemma huffman_arbol_forma_witness :
  ∃ raiz,
    construir_arbol_huffman frecuencias_ejemplo = Ok (Some raiz) ∧
    arbol_bien_formado raiz ∧
    hojas_cf raiz ≡ₚ (λ kv, (Some kv.1, kv.2)) <$> frecuencias_ejemplo ∧
    frecuencia raiz = suma_frecuencias frecuencias_ejemplo.
Proof.
  apply (huffman_arbol_forma (M := monticulo_lista) frecuencias_ejemplo).
  - apply monticulo_lista_correcto.
  - discriminate.
Defined.

Lemma sum_list_perm (l1 l2 : list nat) : l1 ≡ₚ l2 → sum_list l1 = sum_list l2.
Proof. induction 1; simpl; lia. Qed.

(** With two leaves or more the root is an inner node, and every leaf lies
    below it. *)
Lemma hojas_prof_interior t x :
  arbol_bien_formado t → (2 ≤ length (hojas_prof 0 t))%nat →
  x ∈ hojas_prof 0 t → (1 ≤ x.2)%nat.
Proof.
  intros Hbf Hlen Hx. destruct t as [c f [i |] [d |]]; simpl in *; try done.
  - destruct Hbf as (_ & _ & Hi & Hd).
    apply elem_of_app in Hx as [Hx | Hx].
    + by destruct (hojas_prof_cota 1 i x Hi Hx).
    + by destruct (hojas_prof_cota 1 d x Hd Hx).
  - lia.
Qed.

Section codigos_del_arbol.
Context (raiz : NodoHuffman) (frecuencias : list (string * Z)).
Hypothesis Hbf : arbol_bien_formado raiz.
Hypothesis Hh : hojas_cf raiz ≡ₚ (λ kv, (Some kv.1, kv.2)) <$> frecuencias.
Hypothesis Hnd : NoDup frecuencias.*1.

Lemma arbol_hojas_claves : hojas raiz ≡ₚ Some <$> frecuencias.*1.
Proof.
  rewrite <- (hojas_prof_hojas 0 raiz).
  assert (H1 : (λ x : option string * Z * nat, x.1.1) <$> hojas_prof 0 raiz
               = fst <$> hojas_cf raiz).
  { unfold hojas_cf. by rewrite <- list_fmap_compose. }
  rewrite H1, Hh, <- !list_fmap_compose. done.
Qed.

Lemma arbol_hojas_NoDup : NoDup (hojas raiz).
Proof. rewrite arbol_hojas_claves. by apply (NoDup_fmap_2 _). Qed.

Lemma arbol_num_hojas : length (hojas_prof 0 raiz) = length frecuencias.
Proof.
  rewrite <- (length_fmap (λ x, x.1) (hojas_prof 0 raiz)).
  fold (hojas_cf raiz). by rewrite Hh, length_fmap.
Qed.

(** The code of the symbol of a leaf has the length of the depth of the
    leaf, or length one when the leaf is the root. *)
Lemma longitud_codigo_hoja c f d :
  (Some c, f, d) ∈ hojas_prof 0 raiz →
  longitud_codigo (generar_codigos (Some raiz)) c = (if decide (d = 0%nat) then 1 else d)%nat.
Proof.
  intros Hx. destruct (prof_ruta_a 0 raiz (Some c) f d Hx) as (bits & Hb & ->).
  destruct (generar_codigos_spec raiz arbol_hojas_NoDup) as [H1 _].
  unfold longitud_codigo. rewrite (H1 _ _ Hb). unfold codigo_final.
  destruct bits; [done |]. rewrite decide_False by done. simpl. done.
Qed.

Lemma hojas_prof_simbolo x : x ∈ hojas_prof 0 raiz → ∃ c, x.1.1 = Some c.
Proof.
  intros Hx.
  assert (Hin : x.1.1 ∈ hojas raiz).
  { rewrite <- (hojas_prof_hojas 0 raiz). apply list_elem_of_fmap. by exists x. }
  rewrite arbol_hojas_claves in Hin. apply list_elem_of_fmap in Hin as (c & -> & _). eauto.
Qed.

End codigos_del_arbol.

(** X20: for a table of two or more distinct symbols, the code of every
    symbol has between one bit and one bit less than the number of symbols,
    and the lengths of the codes satisfy the equality of Kraft: with n
    symbols, the sum of 2^(n - length) over the codes is 2^n, so no shorter
    prefix-free code could be added. *)
Theorem huffman_kraft `{M : Monticulo} (frecuencias : list (string * Z)) :
  monticulo_correcto M → NoDup frecuencias.*1 → (2 ≤ length frecuencias)%nat →
  ∃ raiz,
    construir_arbol_huffman frecuencias = Ok (Some raiz) ∧
    (∀ c, c ∈ frecuencias.*1 →
       (1 ≤ longitud_codigo (generar_codigos (Some raiz)) c ∧
        longitud_codigo (generar_codigos (Some raiz)) c + 1 ≤ length frecuencias)%nat) ∧
    sum_list ((λ c, (2 ^ (length frecuencias
                          - longitud_codigo (generar_codigos (Some raiz)) c))%nat)
              <$> frecuencias.*1)
    = (2 ^ length frecuencias)%nat.
Proof.
  intros HM Hnd Hlen.
  assert (Hne : frecuencias ≠ []) by (intros ->; simpl in Hlen; lia).
  destruct (construir_arbol_huffman_forma HM frecuencias Hne) as (raiz & Hrun & Hbf & Hh).
  exists raiz. split; [done |].
  pose proof (arbol_num_hojas raiz frecuencias Hh) as Hnum.
  assert (Hlong : ∀ x c, x ∈ hojas_prof 0 raiz → x.1.1 = Some c →
            longitud_codigo (generar_codigos (Some raiz)) c = x.2 ∧
            (1 ≤ x.2 ∧ x.2 + 1 ≤ length frecuencias)%nat).
  { intros [[oc f] d] c Hx Hc. simpl in Hc. subst oc.
    assert (Hd : (1 ≤ d)%nat).
    { apply (hojas_prof_interior raiz _ Hbf) in Hx; [done | lia]. }
    destruct (hojas_prof_cota 0 raiz _ Hbf Hx) as [_ Hcota]. simpl in Hcota.
    rewrite (longitud_codigo_hoja raiz frecuencias Hh Hnd c f d Hx).
    rewrite decide_False by lia. simpl. lia. }
  assert (Hperm : (λ x : option string * Z * nat, x.1.1) <$> hojas_prof 0 raiz
                  ≡ₚ Some <$> frecuencias.*1).
  { rewrite hojas_prof_hojas. by apply (arbol_hojas_claves raiz frecuencias). }
  split.
  - intros c Hc.
    assert (Hin : Some c ∈ (λ x : option string * Z * nat, x.1.1) <$> hojas_prof 0 raiz).
    { rewrite Hperm. by apply list_elem_of_fmap_2. }
    apply list_elem_of_fmap in Hin as (x & Hxc & Hx).
    destruct (Hlong x c Hx (eq_sym Hxc)) as [-> ?]. done.
  - pose proof (kraft_arbol (length frecuencias) 0 raiz Hbf) as Hk.
    rewrite Nat.sub_0_r in Hk. rewrite <- Hk.
    2: { intros x Hx. destruct (hojas_prof_simbolo raiz frecuencias Hh x Hx) as [c Hc].
         destruct (Hlong x c Hx Hc) as [_ ?]. lia. }
    set (g := λ oc : option string,
           match oc with
           | Some c => (2 ^ (length frecuencias
                             - longitud_codigo (generar_codigos (Some raiz)) c))%nat
           | None => 0%nat
           end).
    transitivity (sum_list (g <$> (Some <$> frecuencias.*1))).
    { f_equal. generalize (frecuencias.*1). intros l.
      induction l as [| a l IH]; [done |]. rewrite !fmap_cons. by rewrite IH. }
    rewrite <- (sum_list_perm _ _ (fmap_Permutation g _ _ Hperm)).
    rewrite <- list_fmap_compose. f_equal.
    apply list_fmap_ext. intros j x Hx. apply list_elem_of_lookup_2 in Hx.
    destruct (hojas_prof_simbolo raiz frecuencias Hh x Hx) as [c Hc].
    destruct (Hlong x c Hx Hc) as [Hl _].
    change (g (x.1.1) = (2 ^ (length frecuencias - x.2))%nat).
    rewrite Hc. unfold g. cbv beta iota. by rewrite Hl.
Qed.

Lemma huffman_kraft_witness :
  ∃ raiz,
    construir_arbol_huffman frecuencias_ejemplo = Ok (Some raiz) ∧
    (∀ c, c ∈ frecuencias_ejemplo.*1 →
       (1 ≤ longitud_codigo (generar_codigos (Some raiz)) c ∧
        longitud_codigo (generar_codigos (Some raiz)) c + 1 ≤ length frecuencias_ejemplo)%nat) ∧
    sum_list ((λ c, (2 ^ (length frecuencias_ejemplo
                          - longitud_codigo (generar_codigos (Some raiz)) c))%nat)
              <$> frecuencias_ejemplo.*1)
    = (2 ^ length frecuencias_ejemplo)%nat.
Proof.
  apply (huffman_kraft (M := monticulo_lista) frecuencias_ejemplo).
  - apply monticulo_lista_correcto.
  - apply (bool_decide_unpack _). vm_compute. exact I.
  - simpl. lia.
Defined.

(** *** The compression statistic on any text *)

Lemma bits_comprimido_cota (codigos : gmap (option string) string)
    (frecuencias : list (string * Z)) :
  (∀ c f, (c, f) ∈ frecuencias →
          1 <= f ∧ ∃ k, codigos !! Some c = Some k ∧ k ≠ "") →
  ∃ s, bits_comprimido codigos frecuencias = Ok s ∧ suma_frecuencias frecuencias <= s.
Proof.
  unfold suma_frecuencias.
  induction frecuencias as [| [c f] l IH]; intros H.
  { exists 0. done. }
  destruct (H c f) as (Hf & k & Hk & Hne); [by left |].
  destruct IH as (s & Hs & Hle); [intros c' f' Hin; apply H; by right |].
  cbn [bits_comprimido]. rewrite Hk, Hs. cbn [mbind resultado_bind].
  eexists. split; [done |]. cbn [foldr snd].
  destruct k as [| a k]; [done |]. cbn [String.length]. nia.
Qed.

Lemma calcular_frecuencias_no_vacia texto : texto ≠ [] → calcular_frecuencias texto ≠ [].
Proof.
  intros Hne Heq. pose proof (calcular_frecuencias_suma texto) as Hs.
  rewrite Heq in Hs. destruct texto; [done | simpl in Hs; lia].
Qed.

(** X21: the statistic of [ejecutar_huffman] on any text, over any
    priority queue that meets the contract of heapq: on the empty text the
    division raises ZeroDivisionError; on every other text every character
    has a code, the lookups of the codes succeed, and the compression ratio
    is at most 87.5 percent. *)
Theorem tasa_compresion_definida `{M : Monticulo} (texto : list string) :
  monticulo_correcto M →
  (texto = [] → tasa_compresion texto = ZeroDivisionError) ∧
  (texto ≠ [] → ∃ q, tasa_compresion texto = Ok q ∧ (q <= 87.5)%Q).
Proof.
  intros HM. split; [by intros -> |]. intros Hne.
  destruct (calcular_frecuencias_tabla texto) as (Hnd & _ & Hpos).
  pose proof (calcular_frecuencias_suma texto) as Hsum.
  pose proof (calcular_frecuencias_no_vacia texto Hne) as Hfne.
  destruct (construir_arbol_huffman_correcto HM _ Hfne) as (raiz & Hrun & Hh).
  assert (Hndh : NoDup (hojas raiz)).
  { rewrite Hh. by apply (NoDup_fmap_2 _). }
  destruct (generar_codigos_spec raiz Hndh) as [H1 _].
  destruct (bits_comprimido_cota (generar_codigos (Some raiz)) (calcular_frecuencias texto))
    as (s & Hs & Hle).
  { intros c f Hcf. split; [by eapply Hpos |].
    assert (Hc : Some c ∈ hojas raiz).
    { rewrite Hh. apply list_elem_of_fmap_2, list_elem_of_fmap. by exists (c, f). }
    apply ruta_a_hojas in Hc as [bits Hb]. exists (codigo_final bits).
    split; [by apply H1 |]. unfold codigo_final. by case_decide. }
  unfold tasa_compresion. rewrite Hrun. cbn [mbind resultado_bind]. rewrite Hs.
  cbn [mbind resultado_bind]. unfold bits_original.
  rewrite Hsum in Hle.
  assert (Hlen : 0 < Z.of_nat (length texto)) by (destruct texto; [done | simpl; lia]).
  rewrite decide_False by lia.
  eexists. split; [done |].
  destruct (Z.of_nat (length texto) * 8) as [| p | p] eqn:Ep; try lia.
  unfold Qle, Qmult, Qminus, Qplus, Qopp, Qdiv, Qinv, inject_Z. simpl. lia.
Qed.

Lemma tasa_compresion_definida_witness :
  (["A"; "B"; "A"] = [] → tasa_compresion ["A"; "B"; "A"] = ZeroDivisionError) ∧
  (["A"; "B"; "A"] ≠ [] → ∃ q, tasa_compresion ["A"; "B"; "A"] = Ok q ∧ (q <= 87.5)%Q).
Proof.
  apply (tasa_compresion_definida (M := monticulo_lista) ["A"; "B"; "A"]).
  apply monticulo_lista_correcto.
Defined.

(** ** Huffman: the tree is optimal *)

(** *** Weighted path lengths over lists of leaves *)

Lemma coste_pares_cons p ps :
  coste_pares (p :: ps) = p.1 * Z.of_nat p.2 + coste_pares ps.
Proof. done. Qed.

Lemma coste_pares_perm ps1 ps2 : ps1 ≡ₚ ps2 → coste_pares ps1 = coste_pares ps2.
Proof.
  induction 1 as [| p l1 l2 _ IH | p q l | l1 l2 l3 _ IH1 _ IH2];
    rewrite ?coste_pares_cons in *; lia.
Qed.

(** A permutation of the image of a list comes from a permutation of the
    list. *)
Lemma fmap_perm_cons_inv {A B : Type} (f : A → B) (l : list A) (y : B) (k : list B) :
  f <$> l ≡ₚ y :: k → ∃ x l', l ≡ₚ x :: l' ∧ f x = y ∧ f <$> l' ≡ₚ k.
Proof.
  intros HP.
  assert (Hy : y ∈ f <$> l) by (rewrite HP; by left).
  apply list_elem_of_fmap in Hy as (x & -> & Hx).
  apply elem_of_Permutation in Hx as [l' Hl'].
  exists x, l'. split; [done |]. split; [done |].
  rewrite Hl', fmap_cons in HP. by apply Permutation_cons_inv in HP.
Qed.

(** *** Lists of depths *)

Lemma profundidades_no_vacia k ds : profundidades k ds → ds ≠ [].
Proof.
  induction 1 as [k | k l1 l2 _ IH1 _ IH2]; [done |].
  intros Heq. apply app_eq_nil in Heq as [? _]. done.
Qed.

Lemma profundidades_una k d : profundidades k [d] → d = k.
Proof.
  intros H. remember [d] as l eqn:El. revert d El.
  induction H as [k | k l1 l2 H1 IH1 H2 IH2]; intros d El.
  - by injection El as ->.
  - apply profundidades_no_vacia in H1, H2.
    destruct l1 as [| x [| ? ?]]; [done | | done].
    destruct l2; [done | done].
Qed.

(** In a tree with at least two leaves, two leaves of the greatest depth
    are children of one node; taking them away leaves this node as a leaf. *)
Lemma profundidades_hermanas k ds :
  profundidades k ds → (2 ≤ length ds)%nat →
  ∃ h D ds',
    ds ≡ₚ h :: h :: D ∧ (∀ d, d ∈ ds → (d ≤ h)%nat) ∧ (S k ≤ h)%nat ∧
    profundidades k ds' ∧ ds' ≡ₚ (h - 1)%nat :: D.
Proof.
  induction 1 as [k | k l1 l2 H1 IH1 H2 IH2]; intros Hlen; [simpl in Hlen; lia |].
  pose proof (profundidades_no_vacia _ _ H1) as Hn1.
  pose proof (profundidades_no_vacia _ _ H2) as Hn2.
  destruct (decide (2 ≤ length l1)%nat) as [Hl1 | Hl1];
    destruct (decide (2 ≤ length l2)%nat) as [Hl2 | Hl2].
  - destruct (IH1 Hl1) as (h1 & D1 & l1' & HP1 & Hmax1 & Hk1 & Hpv1 & HP1').
    destruct (IH2 Hl2) as (h2 & D2 & l2' & HP2 & Hmax2 & Hk2 & Hpv2 & HP2').
    destruct (decide (h2 ≤ h1)%nat) as [Hle | Hgt].
    + exists h1, (D1 ++ l2), (l1' ++ l2).
      split; [by rewrite HP1 |]. split; [| split; [lia | split]].
      * intros d Hd. apply elem_of_app in Hd as [Hd | Hd]; [auto |].
        specialize (Hmax2 d Hd). lia.
      * by constructor.
      * by rewrite HP1'.
    + exists h2, (l1 ++ D2), (l1 ++ l2').
      split; [rewrite HP2; by rewrite !Permutation_middle |].
      split; [| split; [lia | split]].
      * intros d Hd. apply elem_of_app in Hd as [Hd | Hd]; [| auto].
        specialize (Hmax1 d Hd). lia.
      * by constructor.
      * rewrite HP2'. by rewrite Permutation_middle.
  - destruct (IH1 Hl1) as (h1 & D1 & l1' & HP1 & Hmax1 & Hk1 & Hpv1 & HP1').
    destruct l2 as [| y [| ? ?]]; [done | | simpl in Hl2; lia].
    apply profundidades_una in H2 as Hy. subst y.
    exists h1, (D1 ++ [S k]), (l1' ++ [S k]).
    split; [by rewrite HP1 |]. split; [| split; [lia | split]].
    + intros d Hd. apply elem_of_app in Hd as [Hd | Hd]; [auto |].
      apply list_elem_of_singleton in Hd as ->. lia.
    + by constructor.
    + by rewrite HP1'.
  - destruct (IH2 Hl2) as (h2 & D2 & l2' & HP2 & Hmax2 & Hk2 & Hpv2 & HP2').
    destruct l1 as [| x [| ? ?]]; [done | | simpl in Hl1; lia].
    apply profundidades_una in H1 as Hx. subst x.
    exists h2, (S k :: D2), ([S k] ++ l2').
    split; [simpl; rewrite HP2; by rewrite !(Permutation_swap (S k)) |].
    split; [| split; [lia | split]].
    + intros d Hd. apply elem_of_cons in Hd as [-> | Hd]; [lia | auto].
    + by constructor.
    + simpl. rewrite HP2'. apply Permutation_swap.
  - destruct l1 as [| x [| ? ?]]; [done | | simpl in Hl1; lia].
    destruct l2 as [| y [| ? ?]]; [done | | simpl in Hl2; lia].
    apply profundidades_una in H1 as Hx. apply profundidades_una in H2 as Hy. subst x y.
    exists (S k), [], [k]. split; [done |]. split; [| split; [lia | split]].
    + intros d Hd. apply elem_of_cons in Hd as [-> | Hd]; [lia |].
      apply list_elem_of_singleton in Hd as ->. lia.
    + constructor.
    + simpl. by rewrite Nat.sub_0_r.
Qed.

Lemma extraer_profundidad (d h : nat) (L D : list nat) :
  d :: L ≡ₚ h :: D → d ≠ h → ∃ K, L ≡ₚ h :: K ∧ d :: K ≡ₚ D.
Proof.
  intros HP Hne.
  assert (Hh : h ∈ d :: L) by (rewrite HP; by left).
  apply elem_of_cons in Hh as [-> | Hh]; [done |].
  apply elem_of_Permutation in Hh as [K HK]. exists K. split; [done |].
  rewrite HK, Permutation_swap in HP. by apply Permutation_cons_inv in HP.
Qed.

(** The exchange: in any pairing of weights with depths, the two least
    weights can be given two greatest depths without making the weighted
    path length greater. *)
Lemma reparto (a b : Z) (da db h : nat) (Rest : list (Z * nat)) (D : list nat) :
  da :: db :: Rest.*2 ≡ₚ h :: h :: D → (da ≤ h)%nat → (db ≤ h)%nat →
  a <= b → Forall (λ x, b <= x) Rest.*1 →
  ∃ Rest', Rest'.*1 ≡ₚ Rest.*1 ∧ Rest'.*2 ≡ₚ D ∧
           coste_pares Rest' + (a + b) * Z.of_nat h
           <= a * Z.of_nat da + b * Z.of_nat db + coste_pares Rest.
Proof.
  intros HP Hda Hdb Hab Hmin.
  assert (Hsaca : ∀ (L : list (Z * nat)) K,
    L.*2 ≡ₚ h :: K → ∃ y L0, L ≡ₚ (y, h) :: L0 ∧ L0.*2 ≡ₚ K).
  { intros L K HL. apply fmap_perm_cons_inv in HL as ([y d] & L0 & HL & Hd & HK).
    simpl in Hd. subst d. eauto. }
  destruct (decide (da = h)) as [-> | Hnea]; destruct (decide (db = h)) as [-> | Hneb].
  - exists Rest. split; [done |]. split; [| lia].
    by do 2 apply Permutation_cons_inv in HP.
  - apply Permutation_cons_inv in HP.
    destruct (extraer_profundidad db h _ _ HP Hneb) as (K & HK & HD).
    destruct (Hsaca Rest K HK) as (y & L0 & HR & HL0).
    exists ((y, db) :: L0). split; [by rewrite HR |].
    split; [rewrite fmap_cons; simpl; by rewrite HL0 |].
    rewrite (coste_pares_perm _ _ HR), !coste_pares_cons. simpl.
    assert (Hy : b <= y).
    { rewrite Forall_forall in Hmin. apply Hmin. rewrite HR. by left. }
    nia.
  - rewrite Permutation_swap in HP. apply Permutation_cons_inv in HP.
    destruct (extraer_profundidad da h _ _ HP Hnea) as (K & HK & HD).
    destruct (Hsaca Rest K HK) as (x & L0 & HR & HL0).
    exists ((x, da) :: L0). split; [by rewrite HR |].
    split; [rewrite fmap_cons; simpl; by rewrite HL0 |].
    rewrite (coste_pares_perm _ _ HR), !coste_pares_cons. simpl.
    assert (Hx : b <= x).
    { rewrite Forall_forall in Hmin. apply Hmin. rewrite HR. by left. }
    nia.
  - destruct (extraer_profundidad da h _ _ HP Hnea) as (K1 & HK1 & HD1).
    destruct (extraer_profundidad db h _ _ HK1 Hneb) as (K2 & HK2 & HD2).
    destruct (extraer_profundidad da h _ _ HD1 Hnea) as (K3 & HK3 & HD3).
    rewrite HK3 in HD2.
    destruct (extraer_profundidad db h _ _ HD2 Hneb) as (K4 & HK4 & HD4).
    rewrite HK4 in HK2.
    destruct (Hsaca Rest _ HK2) as (x & L0 & HR & HL0).
    destruct (Hsaca L0 _ HL0) as (y & L1 & HR0 & HL1).
    exists ((x, da) :: (y, db) :: L1).
    split; [by rewrite HR, HR0 |]. split.
    + rewrite !fmap_cons. simpl. by rewrite HL1, HD4.
    + rewrite (coste_pares_perm _ _ HR), !coste_pares_cons.
      rewrite (coste_pares_perm _ _ HR0), !coste_pares_cons. simpl.
      assert (Hx : b <= x).
      { rewrite Forall_forall in Hmin. apply Hmin. rewrite HR. by left. }
      assert (Hy : b <= y).
      { rewrite Forall_forall in Hmin. apply Hmin. rewrite HR, HR0. right. by left. }
      nia.
Qed.

Lemma arbol_posible_perm W1 W2 C : W1 ≡ₚ W2 → arbol_posible W1 C → arbol_posible W2 C.
Proof.
  intros HW (ps & ds & Hds & Hp & Hw & HC). exists ps, ds.
  repeat (split; [done |]). split; [by rewrite Hw | done].
Qed.

(** The step of the greedy argument: from a tree over the weights
    [a :: b :: R], [a] and [b] being the two least, there is a tree in which
    a leaf of weight [a + b] stands for the two, and its weighted path
    length is less by at least [a + b]. *)
Lemma fusion_minimos (a b : Z) (R : list Z) (C : Z) :
  a <= b → Forall (λ x, b <= x) R → arbol_posible (a :: b :: R) C →
  ∃ C', arbol_posible ((a + b) :: R) C' ∧ C' + a + b <= C.
Proof.
  intros Hab Hmin (ps & ds & Hds & Hp & Hw & ->).
  apply fmap_perm_cons_inv in Hw as ([a' da] & ps1 & Hps & Ha & Hw). simpl in Ha. subst a'.
  apply fmap_perm_cons_inv in Hw as ([b' db] & Rest & Hps1 & Hb & Hw). simpl in Hb. subst b'.
  rewrite Hps1 in Hps. clear ps1 Hps1.
  assert (Hlen : (2 ≤ length ds)%nat).
  { rewrite Hp, length_fmap, Hps. simpl. lia. }
  destruct (profundidades_hermanas 0 ds Hds Hlen) as (h & D & ds' & HD & Hmax & Hh & Hds' & HD').
  assert (HP : da :: db :: Rest.*2 ≡ₚ h :: h :: D).
  { rewrite <- HD, Hp, Hps. done. }
  assert (Hda : (da ≤ h)%nat).
  { apply Hmax. rewrite Hp, Hps. by left. }
  assert (Hdb : (db ≤ h)%nat).
  { apply Hmax. rewrite Hp, Hps. right. by left. }
  destruct (reparto a b da db h Rest D HP Hda Hdb Hab) as (Rest' & HR1 & HR2 & Hle).
  { by rewrite Hw. }
  exists (coste_pares ((a + b, (h - 1)%nat) :: Rest')). split.
  - exists ((a + b, (h - 1)%nat) :: Rest'), ds'. split; [done |].
    split; [rewrite HD', fmap_cons; simpl; by rewrite HR2 |].
    split; [rewrite fmap_cons; simpl; by rewrite HR1, Hw | done].
  - rewrite (coste_pares_perm _ _ Hps), !coste_pares_cons. simpl.
    replace (Z.of_nat (h - 1)) with (Z.of_nat h - 1) by lia. lia.
Qed.

(** *** The trees of the queue *)

Lemma coste_pesos_prof t : coste t = coste_pares (pesos_prof 0 t).
Proof.
  unfold coste, pesos_prof, coste_pares.
  induction (hojas_prof 0 t) as [| x l IH]; simpl; [done |]. by rewrite IH.
Qed.

Lemma coste_app (l1 l2 : list (option string * Z * nat)) :
  foldr (λ x s, x.1.2 * Z.of_nat x.2 + s) 0 (l1 ++ l2)
  = foldr (λ x s, x.1.2 * Z.of_nat x.2 + s) 0 l1
    + foldr (λ x s, x.1.2 * Z.of_nat x.2 + s) 0 l2.
Proof. induction l1 as [| x l1 IH]; simpl; [done |]. rewrite IH. lia. Qed.

Lemma coste_desplaza (l : list (option string * Z * nat)) :
  foldr (λ x s, x.1.2 * Z.of_nat x.2 + s) 0 ((λ x, (x.1, (x.2 + 1)%nat)) <$> l)
  = foldr (λ x s, x.1.2 * Z.of_nat x.2 + s) 0 l
    + foldr (λ x s, x.2 + s) 0 ((λ x, x.1) <$> l).
Proof.
  induction l as [| x l IH]; [done |]. rewrite !fmap_cons. cbn [foldr fst snd].
  rewrite IH. lia.
Qed.

(** One level further down, the weighted path length of a tree grows by
    the frequency of the tree. *)
Lemma coste_un_nivel t :
  arbol_bien_formado t →
  foldr (λ x s, x.1.2 * Z.of_nat x.2 + s) 0 (hojas_prof 1 t) = coste t + frecuencia t.
Proof.
  intros Hbf. rewrite (frecuencia_suma t Hbf). unfold coste, hojas_cf.
  rewrite (hojas_prof_desplaza 1). apply coste_desplaza.
Qed.

(** The weighted path length of the node that the loop builds. *)
Lemma coste_nodo c f i d :
  arbol_bien_formado i → arbol_bien_formado d →
  coste (Nodo c f (Some i) (Some d)) = coste i + coste d + frecuencia i + frecuencia d.
Proof.
  intros Hi Hd. unfold coste at 1. simpl.
  rewrite coste_app, (coste_un_nivel i Hi), (coste_un_nivel d Hd). lia.
Qed.

Lemma coste_bosque_perm ts1 ts2 : ts1 ≡ₚ ts2 → coste_bosque ts1 = coste_bosque ts2.
Proof.
  unfold coste_bosque.
  induction 1 as [| p l1 l2 _ IH | p q l | l1 l2 l3 _ IH1 _ IH2]; simpl in *; lia.
Qed.

(** The depths of the leaves of a tree in which every node has two
    children or none. *)
Lemma arbol_completo_profundidades k t :
  arbol_completo t → profundidades k (pesos_prof k t).*2.
Proof.
  revert k.
  induction t as [c f | c f i IHi | c f d IHd | c f i d IHi IHd] using NodoHuffman_ind;
    intros k Hc; simpl in Hc; try done.
  - constructor.
  - destruct Hc as [Hi Hd]. unfold pesos_prof. simpl. rewrite !fmap_app.
    constructor; [apply IHi | apply IHd]; done.
Qed.

Lemma pesos_prof_pesos t : (pesos_prof 0 t).*1 = (hojas_cf t).*2.
Proof.
  unfold pesos_prof, hojas_cf. rewrite <- !list_fmap_compose. by apply list_fmap_ext.
Qed.

Lemma arbol_completo_posible t :
  arbol_completo t → arbol_posible (hojas_cf t).*2 (coste t).
Proof.
  intros Hc. exists (pesos_prof 0 t), (pesos_prof 0 t).*2.
  split; [by apply arbol_completo_profundidades |]. split; [done |].
  split; [by rewrite pesos_prof_pesos | apply coste_pesos_prof].
Qed.

Lemma arbol_bien_formado_completo t : arbol_bien_formado t → arbol_completo t.
Proof.
  induction t as [c f | c f i IHi | c f d IHd | c f i d IHi IHd] using NodoHuffman_ind;
    simpl; try done.
  intros (_ & _ & Hi & Hd). auto.
Qed.

(** *** The loop *)

Section construir_optimo.
Context `{M : Monticulo} (HM : monticulo_correcto M).

(** Whatever tree could be built over the frequencies of the trees in the
    queue, the root that the loop leaves costs no more than that tree with
    the trees of the queue hung from its leaves. *)
Lemma huffman_bucle_optimo fuel :
  ∀ heap, es_monticulo heap → heap ≠ [] → (length heap ≤ fuel)%nat →
  Forall arbol_bien_formado heap →
  ∃ raiz, huffman_bucle fuel heap = Ok [raiz] ∧
          ∀ C, arbol_posible (frecuencia <$> heap) C →
               coste raiz <= coste_bosque heap + C.
Proof.
  induction fuel as [| fuel IH]; intros heap Hm Hne Hlen Hbf.
  { destruct heap; [done | simpl in Hlen; lia]. }
  simpl. destruct (decide (1 < length heap)%nat) as [Hgt | Hle].
  - destruct (heappop_h_some M HM heap Hm Hne) as [[izq heap1] Hpop1].
    destruct (heappop_h_spec M HM heap izq heap1 Hm Hpop1) as (Hm1 & HP1 & Hmin1).
    unfold extraer. rewrite Hpop1. simpl.
    assert (Hl1 : length heap = S (length heap1)) by (by rewrite HP1).
    assert (Hne1 : heap1 ≠ []) by (intros ->; simpl in Hl1; lia).
    destruct (heappop_h_some M HM heap1 Hm1 Hne1) as [[der heap2] Hpop2].
    destruct (heappop_h_spec M HM heap1 der heap2 Hm1 Hpop2) as (Hm2 & HP2 & Hmin2).
    rewrite Hpop2. simpl.
    assert (Hl2 : length heap1 = S (length heap2)) by (by rewrite HP2).
    set (padre_n := Nodo None (frecuencia izq + frecuencia der) (Some izq) (Some der)).
    destruct (heappush_h_spec M HM heap2 padre_n Hm2) as [Hm3 HP3].
    rewrite HP1, HP2 in Hbf.
    apply Forall_cons in Hbf as [Hizq Hbf]. apply Forall_cons in Hbf as [Hder Hbf].
    destruct (IH _ Hm3) as (raiz & Hrun & Hopt).
    + intros Heq. rewrite Heq in HP3. by apply Permutation_nil_cons in HP3.
    + rewrite HP3. simpl. lia.
    + rewrite HP3. constructor; [| done]. simpl. done.
    + exists raiz. split; [done |]. intros C HC.
      assert (Hab : frecuencia izq <= frecuencia der).
      { rewrite HP2 in Hmin1. apply Forall_cons in Hmin1 as [Hlt _].
        unfold nodo_lt in Hlt. lia. }
      assert (HR : Forall (λ x, frecuencia der <= x) (frecuencia <$> heap2)).
      { apply Forall_fmap. eapply Forall_impl; [exact Hmin2 |].
        intros y Hy. unfold nodo_lt in Hy. simpl. lia. }
      assert (HC' : arbol_posible (frecuencia izq :: frecuencia der :: (frecuencia <$> heap2)) C).
      { eapply arbol_posible_perm; [| exact HC]. by rewrite HP1, HP2. }
      destruct (fusion_minimos _ _ _ _ Hab HR HC') as (C' & HC'' & Hle).
      assert (Hpos : arbol_posible (frecuencia <$> heappush_h heap2 padre_n) C').
      { eapply arbol_posible_perm; [| exact HC'']. by rewrite HP3. }
      specialize (Hopt C' Hpos).
      rewrite (coste_bosque_perm _ _ HP3) in Hopt.
      rewrite (coste_bosque_perm heap (izq :: der :: heap2)) by (by rewrite HP1, HP2).
      unfold coste_bosque in *. simpl in Hopt |- *.
      unfold padre_n in Hopt. rewrite (coste_nodo _ _ _ _ Hizq Hder) in Hopt. lia.
  - destruct heap as [| x [| y heap]]; [done | | simpl in Hle; lia].
    exists x. split; [done |]. intros C (ps & ds & Hds & Hp & Hw & ->).
    destruct ps as [| [w d] [| ? ?]];
      [by apply Permutation_nil_cons in Hw | | apply Permutation_length in Hw; done].
    simpl in Hp. apply Permutation_singleton_r in Hp. subst ds.
    apply profundidades_una in Hds. subst d.
    unfold coste_bosque, coste_pares. simpl. lia.
Qed.

Lemma coste_bosque_hojas frecuencias : coste_bosque (hoja_de <$> frecuencias) = 0.
Proof.
  unfold coste_bosque. induction frecuencias as [| [c f] l IH]; [done |].
  rewrite fmap_cons. simpl. rewrite IH. unfold coste. simpl. lia.
Qed.

Lemma construir_arbol_huffman_optimo frecuencias :
  frecuencias ≠ [] →
  ∃ raiz, construir_arbol_huffman frecuencias = Ok (Some raiz) ∧
          ∀ C, arbol_posible frecuencias.*2 C → coste raiz <= C.
Proof.
  intros Hne. unfold construir_arbol_huffman.
  destruct frecuencias as [| kv0 rest] eqn:Efr; [done |]. rewrite <- Efr.
  assert (Hl : (λ '(char, freq), Nodo (Some char) freq None None) <$> frecuencias
               = hoja_de <$> frecuencias).
  { apply list_fmap_ext. by intros _ [c f] _. }
  rewrite Hl. set (l := hoja_de <$> frecuencias).
  destruct (heapify_h_spec M HM l) as [Hm HP].
  destruct (huffman_bucle_optimo (length frecuencias) (heapify_h l) Hm)
    as (raiz & Hrun & Hopt).
  - intros Heq. rewrite Heq in HP. apply Permutation_nil in HP.
    subst l. rewrite Efr in HP. discriminate.
  - rewrite HP. subst l. by rewrite length_fmap.
  - rewrite HP. subst l. apply Forall_fmap, Forall_forall. intros kv _.
    apply hoja_de_bien_formada.
  - exists raiz. rewrite Hrun. simpl. split; [done |]. intros C HC.
    specialize (Hopt C). rewrite (coste_bosque_perm _ _ HP) in Hopt.
    subst l. rewrite coste_bosque_hojas in Hopt.
    assert (Hfr : frecuencia <$> (hoja_de <$> frecuencias) = frecuencias.*2).
    { rewrite <- list_fmap_compose. apply list_fmap_ext. by intros _ [c f] _. }
    assert (Hpos : arbol_posible (frecuencia <$> heapify_h (hoja_de <$> frecuencias)) C).
    { eapply arbol_posible_perm; [| exact HC]. by rewrite HP, Hfr. }
    specialize (Hopt Hpos). lia.
Qed.

End construir_optimo.

(** *** The size of the compressed text *)

Lemma bits_hojas_perm codigos l1 l2 :
  l1 ≡ₚ l2 → bits_hojas codigos l1 = bits_hojas codigos l2.
Proof.
  unfold bits_hojas.
  induction 1 as [| p l1 l2 _ IH | p q l | l1 l2 l3 _ IH1 _ IH2]; simpl in *; lia.
Qed.

(** [bits_comprimido] on a table all of whose symbols have a code. *)
Lemma bits_comprimido_hojas codigos (frecuencias : list (string * Z)) :
  (∀ kv, kv ∈ frecuencias → is_Some (codigos !! Some kv.1)) →
  bits_comprimido codigos frecuencias
  = Ok (bits_hojas codigos ((λ kv, (Some kv.1, kv.2)) <$> frecuencias)).
Proof.
  induction frecuencias as [| [c f] l IH]; intros H; [done |].
  destruct (H (c, f)) as [k Hk]; [by left |]. simpl in Hk.
  cbn [bits_comprimido]. rewrite Hk, IH by (intros kv Hkv; apply H; by right).
  cbn [mbind resultado_bind]. rewrite fmap_cons. unfold bits_hojas. cbn [foldr fst snd].
  by rewrite Hk.
Qed.

Lemma bits_hojas_coste codigos (l : list (option string * Z * nat)) :
  (∀ x, x ∈ l → ∃ k, codigos !! x.1.1 = Some k ∧ String.length k = x.2) →
  bits_hojas codigos ((λ x, x.1) <$> l) = foldr (λ x s, x.1.2 * Z.of_nat x.2 + s) 0 l.
Proof.
  induction l as [| x l IH]; intros H; [done |].
  destruct (H x) as (k & Hk & Hlen); [by left |].
  rewrite fmap_cons. unfold bits_hojas in *. cbn [foldr fst snd].
  rewrite IH by (intros y Hy; apply H; by right).
  rewrite Hk. simpl. rewrite Hlen. lia.
Qed.

Lemma hojas_prof_min k t x : x ∈ hojas_prof k t → (k ≤ x.2)%nat.
Proof.
  revert k.
  induction t as [c f | c f i IHi | c f d IHd | c f i d IHi IHd] using NodoHuffman_ind;
    intros k Hx; simpl in Hx.
  - apply list_elem_of_singleton in Hx as ->. done.
  - rewrite app_nil_r in Hx. specialize (IHi _ Hx). lia.
  - specialize (IHd _ Hx). lia.
  - apply elem_of_app in Hx as [Hx | Hx]; [specialize (IHi _ Hx) | specialize (IHd _ Hx)]; lia.
Qed.

(** With two leaves or more, every leaf lies below the root, and its code
    is the path to it. *)
Lemma codigo_de_hoja t x :
  NoDup (hojas t) → (2 ≤ length (hojas_prof 0 t))%nat → x ∈ hojas_prof 0 t →
  ∃ k, generar_codigos (Some t) !! x.1.1 = Some k ∧ String.length k = x.2.
Proof.
  intros Hnd Hlen Hx.
  assert (Hd : (1 ≤ x.2)%nat).
  { destruct t as [c f [i |] [d |]]; simpl in Hx, Hlen; [| | | lia].
    - apply elem_of_app in Hx as [Hx | Hx]; by apply hojas_prof_min in Hx.
    - rewrite app_nil_r in Hx. by apply hojas_prof_min in Hx.
    - by apply hojas_prof_min in Hx. }
  destruct x as [[c f] d]. simpl in *.
  destruct (prof_ruta_a 0 t c f d Hx) as (bits & Hb & ->).
  destruct (generar_codigos_spec t Hnd) as [H1 _].
  exists (codigo_final bits). split; [by apply H1 |].
  unfold codigo_final. destruct bits; [simpl in Hd; lia |].
  rewrite decide_False by done. done.
Qed.

(** The compressed size that [ejecutar_huffman] computes from the codes of
    a tree is the weighted path length of the tree. *)
Lemma bits_comprimido_coste t (frecuencias : list (string * Z)) :
  hojas_cf t ≡ₚ (λ kv, (Some kv.1, kv.2)) <$> frecuencias →
  NoDup frecuencias.*1 → (2 ≤ length frecuencias)%nat →
  bits_comprimido (generar_codigos (Some t)) frecuencias = Ok (coste t).
Proof.
  intros Hh Hnd Hlen.
  pose proof (arbol_hojas_NoDup t frecuencias Hh Hnd) as Hndh.
  pose proof (arbol_num_hojas t frecuencias Hh) as Hnum.
  assert (Hcod : ∀ x, x ∈ hojas_prof 0 t →
            ∃ k, generar_codigos (Some t) !! x.1.1 = Some k ∧ String.length k = x.2).
  { intros x Hx. apply codigo_de_hoja; [done | lia | done]. }
  rewrite bits_comprimido_hojas.
  - f_equal. rewrite <- (bits_hojas_perm _ _ _ Hh). unfold hojas_cf, coste.
    by apply bits_hojas_coste.
  - intros [c f] Hkv. simpl.
    assert (Hin : (Some c, f) ∈ hojas_cf t).
    { rewrite Hh. apply list_elem_of_fmap. by exists (c, f). }
    apply list_elem_of_fmap in Hin as (x & Hxe & Hx).
    destruct (Hcod x Hx) as (k & Hk & _). rewrite <- Hxe in Hk. simpl in Hk. eauto.
Qed.

(** X22: for a non-empty frequency table, and over any priority queue that
    meets the contract of heapq, the tree that is built is a tree of least
    weighted path length: every node has two children or none, its leaves
    carry the frequencies of the table, and the sum over its leaves of
    frequency times depth is not greater than that of any binary tree, every
    node of which has two children or none, whose leaves carry the same
    frequencies. The frequencies may be any integers, and the order in
    which the queue returns nodes of equal frequency does not matter. *)
Theorem huffman_optimo `{M : Monticulo} (frecuencias : list (string * Z)) :
  monticulo_correcto M → frecuencias ≠ [] →
  ∃ raiz,
    construir_arbol_huffman frecuencias = Ok (Some raiz) ∧
    arbol_completo raiz ∧ (hojas_cf raiz).*2 ≡ₚ frecuencias.*2 ∧
    ∀ t, arbol_completo t → (hojas_cf t).*2 ≡ₚ frecuencias.*2 → coste raiz <= coste t.
Proof.
  intros HM Hne.
  destruct (construir_arbol_huffman_forma HM frecuencias Hne) as (raiz & Hrun & Hbf & Hh).
  destruct (construir_arbol_huffman_optimo HM frecuencias Hne) as (raiz' & Hrun' & Hopt).
  rewrite Hrun in Hrun'. injection Hrun' as <-.
  exists raiz. split; [done |]. split; [by apply arbol_bien_formado_completo |]. split.
  - rewrite Hh, <- list_fmap_compose. done.
  - intros t Hc Ht. apply Hopt.
    eapply arbol_posible_perm; [exact Ht |]. by apply arbol_completo_posible.
Qed.

Lemma huffman_optimo_witness :
  ∃ raiz,
    construir_arbol_huffman frecuencias_ejemplo = Ok (Some raiz) ∧
    arbol_completo raiz ∧ (hojas_cf raiz).*2 ≡ₚ frecuencias_ejemplo.*2 ∧
    ∀ t, arbol_completo t → (hojas_cf t).*2 ≡ₚ frecuencias_ejemplo.*2 →
         coste raiz <= coste t.
Proof.
  apply (huffman_optimo (M := monticulo_lista) frecuencias_ejemplo).
  - apply monticulo_lista_correcto.
  - discriminate.
Defined.

(** X23: for a table of two or more distinct symbols, the number of bits
    that [ejecutar_huffman] computes for the compressed text, the sum over
    the table of code length times frequency, is the weighted path length
    of the tree that was built; and the codes of no other tree over the
    same table, every node of which has two children or none, give fewer
    bits. *)
Theorem huffman_bits_minimos `{M : Monticulo} (frecuencias : list (string * Z)) :
  monticulo_correcto M → NoDup frecuencias.*1 → (2 ≤ length frecuencias)%nat →
  ∃ raiz b,
    construir_arbol_huffman frecuencias = Ok (Some raiz) ∧
    bits_comprimido (generar_codigos (Some raiz)) frecuencias = Ok b ∧
    b = coste raiz ∧
    ∀ t, arbol_completo t →
         hojas_cf t ≡ₚ (λ kv, (Some kv.1, kv.2)) <$> frecuencias →
         ∃ b', bits_comprimido (generar_codigos (Some t)) frecuencias = Ok b' ∧ b <= b'.
Proof.
  intros HM Hnd Hlen.
  assert (Hne : frecuencias ≠ []) by (intros ->; simpl in Hlen; lia).
  destruct (construir_arbol_huffman_forma HM frecuencias Hne) as (raiz & Hrun & Hbf & Hh).
  destruct (construir_arbol_huffman_optimo HM frecuencias Hne) as (raiz' & Hrun' & Hopt).
  rewrite Hrun in Hrun'. injection Hrun' as <-.
  exists raiz, (coste raiz). split; [done |].
  split; [by apply bits_comprimido_coste |]. split; [done |].
  intros t Hc Ht. exists (coste t). split; [by apply bits_comprimido_coste |].
  apply Hopt. eapply arbol_posible_perm; [| by apply arbol_completo_posible].
  rewrite Ht, <- list_fmap_compose. done.
Qed.

Lemma huffman_bits_minimos_witness :
  ∃ raiz b,
    construir_arbol_huffman frecuencias_ejemplo = Ok (Some raiz) ∧
    bits_comprimido (generar_codigos (Some raiz)) frecuencias_ejemplo = Ok b ∧
    b = coste raiz ∧
    ∀ t, arbol_completo t →
         hojas_cf t ≡ₚ (λ kv, (Some kv.1, kv.2)) <$> frecuencias_ejemplo →
         ∃ b', bits_comprimido (generar_codigos (Some t)) frecuencias_ejemplo = Ok b'
               ∧ b <= b'.
Proof.
  apply (huffman_bits_minimos (M := monticulo_lista) frecuencias_ejemplo).
  - apply monticulo_lista_correcto.
  - apply (bool_decide_unpack _). vm_compute. exact I.
  - simpl. lia.
Defined.
